(** * The voice-relay worker (worker.js): a shallow embedding and its properties

    The worker receives PCM audio frames of every speaker of a room, batches
    them into chunks, sends each chunk as a WAV file to a speech-to-speech
    service and publishes the answer into the speaker's output route.

    Layout of this file:
    - byte buffers and [pcmToWavBuffer];
    - the silence gate [rmsDbFS], as a real number and in double precision;
    - the worker's state, JavaScript exceptions and asynchronous steps;
    - [recreateRouteForParticipant], [setupRouteForParticipant],
      [handleParticipantDisconnected], [sendS2SChunk], [_startAudioStream];
    - a scheduler that interleaves suspended asynchronous calls;
    - predicates on the recorded trace, and a few concrete rooms;
    - [pcm16ToWav], the frames published from a response, and what every
      call keeps of the shared state under any interleaving;
    - the theorems. *)

From Stdlib Require Import Floats.
From Stdlib Require Import ZArith Ascii String List Lia Reals Lra FunctionalExtensionality.
From stdpp Require Import gmap strings list fin_maps.

Open Scope Z_scope.

(* ===================================================================== *)
(** * 1. Byte buffers and the WAV container                               *)
(* ===================================================================== *)

(** A Node [Buffer] is a sequence of octets, each a number in [0, 255]. *)
Definition Buffer := list Z.

(** [Buffer.alloc(n)]: [n] zero octets. *)
Definition Buffer_alloc (n : nat) : Buffer := replicate n 0.

(** Overwrites [buf] from offset [o] with [bytes]; octets that do not fit
    are not written and the length of [buf] never changes. *)
Definition Buffer_splice (buf : Buffer) (bytes : list Z) (o : nat) : Buffer :=
  take o buf ++ take (length buf - o) bytes ++ drop (o + length bytes) buf.

Definition ascii_octets (s : string) : list Z :=
  map (fun c => Z.of_nat (nat_of_ascii c)) (list_ascii_of_string s).

(** [buffer.write(s, o)] for an ASCII string: a RangeError ([None]) when the
    offset lies beyond the buffer. *)
Definition Buffer_write (buf : Buffer) (s : string) (o : nat) : option Buffer :=
  if (o <=? length buf)%nat then Some (Buffer_splice buf (ascii_octets s) o) else None.

Definition octet (v : Z) (i : Z) : Z := Z.land (Z.shiftr v (8 * i)) 255.

(** [buffer.writeUInt32LE(v, o)]: a RangeError ([None]) when [v] is not an
    unsigned 32-bit number or the four octets do not fit. *)
Definition Buffer_writeUInt32LE (buf : Buffer) (v : Z) (o : nat) : option Buffer :=
  if (0 <=? v) && (v <=? 4294967295) && (o + 4 <=? length buf)%nat
  then Some (Buffer_splice buf [octet v 0; octet v 1; octet v 2; octet v 3] o)
  else None.

(** [buffer.writeUInt16LE(v, o)]. *)
Definition Buffer_writeUInt16LE (buf : Buffer) (v : Z) (o : nat) : option Buffer :=
  if (0 <=? v) && (v <=? 65535) && (o + 2 <=? length buf)%nat
  then Some (Buffer_splice buf [octet v 0; octet v 1] o)
  else None.

(** An [Int16Array] is a list of integers in [-32768, 32767]. *)
Definition is_int16 (s : Z) : Prop := -32768 <= s <= 32767.

(** The two octets that store one Int16 sample in the typed array's backing
    store (two's complement, low octet first: the byte order of every
    platform Node runs this worker on). *)
Definition int16_octets (s : Z) : list Z := [octet s 0; octet s 1].

(** [Buffer.from(int16.buffer, int16.byteOffset, int16.byteLength)]. *)
Definition Int16Array_octets (int16 : list Z) : Buffer :=
  flat_map int16_octets int16.

(** [src.copy(target, o)]. *)
Definition Buffer_copy (src target : Buffer) (o : nat) : Buffer :=
  Buffer_splice target src o.

Definition VOICE_SAMPLE_RATE : Z := 48000.

(** [pcmToWavBuffer(int16, sampleRate)], statement by statement; the running
    offset [o] of the source is written out. *)
Definition pcmToWavBuffer (int16 : list Z) (sampleRate : Z) : option Buffer :=
  let numChannels := 1 in
  let bitsPerSample := 16 in
  let byteRate := sampleRate * numChannels * bitsPerSample / 8 in
  let blockAlign := numChannels * bitsPerSample / 8 in
  let dataSize := (length int16 * 2)%nat in
  let buffer := Buffer_alloc (44 + dataSize) in
  buffer ← Buffer_write buffer "RIFF" 0;
  buffer ← Buffer_writeUInt32LE buffer (36 + Z.of_nat dataSize) 4;
  buffer ← Buffer_write buffer "WAVE" 8;
  buffer ← Buffer_write buffer "fmt " 12;
  buffer ← Buffer_writeUInt32LE buffer 16 16;
  buffer ← Buffer_writeUInt16LE buffer 1 20;
  buffer ← Buffer_writeUInt16LE buffer numChannels 22;
  buffer ← Buffer_writeUInt32LE buffer sampleRate 24;
  buffer ← Buffer_writeUInt32LE buffer byteRate 28;
  buffer ← Buffer_writeUInt16LE buffer blockAlign 32;
  buffer ← Buffer_writeUInt16LE buffer bitsPerSample 34;
  buffer ← Buffer_write buffer "data" 36;
  buffer ← Buffer_writeUInt32LE buffer (Z.of_nat dataSize) 40;
  Some (Buffer_copy (Int16Array_octets int16) buffer 44).

(** ** The RIFF/WAVE layout, as a strict reader sees it

    Follows the format's description, not the writer above: a 44-octet
    header of four-character tags and little-endian fields, then the sample
    data. *)
Record WavHeader := {
  wav_riffSize : Z;
  wav_fmtSize : Z;
  wav_format : Z;
  wav_channels : Z;
  wav_sampleRate : Z;
  wav_byteRate : Z;
  wav_blockAlign : Z;
  wav_bitsPerSample : Z;
  wav_dataSize : Z
}.

Definition le16 (b : list Z) : Z :=
  match b with
  | [b0; b1] => b0 + 256 * b1
  | _ => 0
  end.

Definition le32 (b : list Z) : Z :=
  match b with
  | [b0; b1; b2; b3] => b0 + 256 * b1 + 65536 * b2 + 16777216 * b3
  | _ => 0
  end.

Definition signed16 (u : Z) : Z := if u <? 32768 then u else u - 65536.

Fixpoint read_samples (b : list Z) : option (list Z) :=
  match b with
  | [] => Some []
  | b0 :: b1 :: rest => s ← read_samples rest; Some (signed16 (le16 [b0; b1]) :: s)
  | _ => None
  end.

Definition field (b : Buffer) (o n : nat) : list Z := take n (drop o b).

Definition parseWav (b : Buffer) : option (WavHeader * list Z) :=
  if decide (field b 0 4 = ascii_octets "RIFF" ∧ field b 8 4 = ascii_octets "WAVE" ∧
             field b 12 4 = ascii_octets "fmt " ∧ field b 36 4 = ascii_octets "data" ∧
             (44 <= length b)%nat)
  then
    samples ← read_samples (drop 44 b);
    Some ({| wav_riffSize := le32 (field b 4 4);
             wav_fmtSize := le32 (field b 16 4);
             wav_format := le16 (field b 20 2);
             wav_channels := le16 (field b 22 2);
             wav_sampleRate := le32 (field b 24 4);
             wav_byteRate := le32 (field b 28 4);
             wav_blockAlign := le16 (field b 32 2);
             wav_bitsPerSample := le16 (field b 34 2);
             wav_dataSize := le32 (field b 40 4) |}, samples)
  else None.

(** The header a reader must find for mono 16-bit PCM of [n] samples. *)
Definition pcm16_mono_header (sampleRate : Z) (n : nat) : WavHeader :=
  {| wav_riffSize := 36 + 2 * Z.of_nat n;
     wav_fmtSize := 16;
     wav_format := 1;
     wav_channels := 1;
     wav_sampleRate := sampleRate;
     wav_byteRate := sampleRate * 1 * (16 / 8);
     wav_blockAlign := 1 * (16 / 8);
     wav_bitsPerSample := 16;
     wav_dataSize := 2 * Z.of_nat n |}.

(** The 44 octets [pcmToWavBuffer] puts in front of the samples. *)
Definition wav_header_octets (sampleRate : Z) (n : nat) : list Z :=
  ascii_octets "RIFF" ++
  (let v := 36 + Z.of_nat (n * 2) in [octet v 0; octet v 1; octet v 2; octet v 3]) ++
  ascii_octets "WAVE" ++ ascii_octets "fmt " ++
  [octet 16 0; octet 16 1; octet 16 2; octet 16 3] ++
  [octet 1 0; octet 1 1] ++ [octet 1 0; octet 1 1] ++
  [octet sampleRate 0; octet sampleRate 1; octet sampleRate 2; octet sampleRate 3] ++
  (let v := sampleRate * 2 in [octet v 0; octet v 1; octet v 2; octet v 3]) ++
  [octet 2 0; octet 2 1] ++ [octet 16 0; octet 16 1] ++
  ascii_octets "data" ++
  (let v := Z.of_nat (n * 2) in [octet v 0; octet v 1; octet v 2; octet v 3]).

(* ===================================================================== *)
(** * 2. The silence gate                                                 *)
(* ===================================================================== *)

Definition SILENCE_DB : Z := -55.

(** The level of a chunk as a real number: [rmsDbFS(int16)] with
    JavaScript's numbers read as real numbers and [Math.log10 x] as
    [ln x / ln 10]. This is the quantity the function approximates; what
    the worker computes and compares is [Double.rmsDbFS] below. *)
Definition rmsDbFS (int16 : list Z) : R :=
  match int16 with
  | [] => (-120)%R
  | _ =>
    let sum :=
      fold_left (fun (sum : R) (v : Z) => let s := (IZR v / 32768)%R in (sum + s * s)%R)
                int16 0%R in
    let rms := sqrt (sum / INR (length int16)) in
    let db := (20 * (ln (rms + 1e-12) / ln 10))%R in
    Rmax (-120) db
  end.

(** The comparison [a < b] on numbers, as a boolean. *)
Definition Rltb (a b : R) : bool := if Rlt_dec a b then true else false.

(** The one place where the worker's control flow depends on a computed
    number is the test [rmsDbFS(int16) < threshold] of sendS2SChunk. The
    worker is written against this test as an interface. [double_level]
    below is the test as the worker computes it, in double precision;
    [exact_level] is the test on the real-valued level, which the concrete
    rooms use for chunks that are far from the threshold. *)
Class LevelGate := levelBelow : list Z -> Z -> bool.

#[global] Instance exact_level : LevelGate :=
  fun int16 threshold => Rltb (rmsDbFS int16) (IZR threshold).

(** ** The level in double precision *)

(** JavaScript's numbers are IEEE 754 binary64 values, and [+], [*] and [/]
    round to nearest, as the primitive floats do. [Math.sqrt] and
    [Math.log10] return implementation-approximated values (ECMA-262): the
    level is written against the two as an interface, and what is proved
    of it holds for every implementation. *)
Class MathLibrary := { Math_sqrt : float -> float; Math_log10 : float -> float }.

Module Double.

(** An integer as a Number; exact for the integers met here (samples of 16
    bits, lengths, thresholds), all below 2^53. *)
Definition of_Z (v : Z) : float :=
  match v with
  | Z0 => 0%float
  | Zpos _ => PrimFloat.of_uint63 (Uint63.of_Z v)
  | Zneg p => PrimFloat.opp (PrimFloat.of_uint63 (Uint63.of_Z (Zpos p)))
  end.

(** [Math.max(a, b)]: NaN when an argument is NaN, and +0 is larger than -0. *)
Definition Math_max (a b : float) : float :=
  if PrimFloat.is_nan a || PrimFloat.is_nan b then PrimFloat.nan
  else if PrimFloat.ltb a b then b
  else if PrimFloat.ltb b a then a
  else if PrimFloat.is_zero a && PrimFloat.get_sign a then b
  else a.

(** [rmsDbFS(int16)] as the worker computes it. The literal is [1e-12]. *)
Definition rmsDbFS {math : MathLibrary} (int16 : list Z) : float :=
  match int16 with
  | [] => (-120)%float
  | _ =>
    let sum :=
      fold_left (fun (sum : float) (v : Z) =>
                   let s := (of_Z v / 32768)%float in (sum + s * s)%float)
                int16 0%float in
    let rms := Math_sqrt (sum / of_Z (Z.of_nat (length int16)))%float in
    let db := (20 * Math_log10 (rms + 0x1.19799812dea11p-40))%float in
    Math_max (-120)%float db
  end.

End Double.

(** The test [rmsDbFS(int16) < threshold] on doubles: false when the level
    is NaN. *)
Definition double_level {math : MathLibrary} : LevelGate :=
  fun int16 threshold => PrimFloat.ltb (Double.rmsDbFS int16) (Double.of_Z threshold).

(* ===================================================================== *)
(** * 3. Strings, exceptions, routes and the worker's state              *)
(* ===================================================================== *)

(** [s.includes(sub)]. *)
Fixpoint includes (s sub : string) : bool :=
  String.prefix sub s ||
  match s with
  | EmptyString => false
  | String _ rest => includes rest sub
  end.

(** [s.startsWith(p)]. *)
Definition startsWith (s p : string) : bool := String.prefix p s.

(** A string in a condition: the empty string is falsy. *)
Definition truthy_string (s : string) : bool :=
  match s with EmptyString => false | _ => true end.

(** A thrown value. Every value thrown at this code is an [Error] object of
    the runtime or of a library; the handlers read its [name], [code] and
    [message]. *)
Record JsError := { err_name : string; err_code : string; err_message : string }.

(** How a call ends: it returns, or an exception leaves it (for an async
    function: its promise is fulfilled or rejected). *)
Inductive Completion := Normal | Throw (e : JsError).

(** The value of [this.participantVoices.get(participantIdentity)]. *)
Record VoiceInfo := { vi_voiceId : string; vi_voiceName : string }.

(** A route object [{ key, voiceId, source, track }]. [ref] tells the
    objects apart; [source] and [track] are the handles of the AudioSource
    and of the LocalAudioTrack made for it. The only mutation the worker
    ever applies to a route object is [route.source = null]
    (handleParticipantDisconnected): the worker's [nulled] set holds the
    objects it was applied to, so that a reference kept across an [await]
    sees it. *)
Record Route := { ref : nat; key : string; voiceId : string; source : nat; track : nat }.

(** A remote audio track, given by the frames its AudioStream delivers:
    [frame.data] as an Int16Array, or [None] for a frame without data. *)
Definition Track := list (option (list Z)).

Inductive Timer :=
| TimerClearRecreated (speaker : string)   (* () => this.recentlyRecreated.delete(speaker) *)
| TimerRetryStart (participantIdentity : string) (track : option Track).

(** What the worker awaits or calls outside itself; the index is the type
    of the value it gets back. [CaptureFrame] is the only synchronous one:
    the worker calls the library's [captureFrame] without [await] and drops
    the promise it returns, so [Fulfilled] is the call returning and
    [Rejected] a synchronous throw. A capture that fails inside the
    library's async method rejects the dropped promise: it never comes as
    [Rejected], and reaches [onUnhandledRejection] below.
    [LookupVoice] stands for the request to the voice server and the
    reading of its answer: it answers the [voiceSelection] of the answer,
    or none when there is no answer to read (the request fails, the status
    is not ok, the body is not JSON) or no selection in it, and it throws
    when reading the answer throws (a body that is JSON null). A selection
    is a string here, as the server's page sends it; a selection of another
    JSON type is outside this model. *)
Inductive Request : Type -> Type :=
| Fetch (voice : string) (wav : Buffer) : Request Z          (* the POST; answers the status *)
| ResText : Request string                                   (* res.text() *)
| ResArrayBuffer : Request Buffer                            (* res.arrayBuffer() *)
| LookupVoice (participantIdentity : string) : Request (option string)  (* GET /get-voice/:participantIdentity *)
| PublishTrack (track : nat) (name : string) : Request unit
| UnpublishTrack (track : nat) : Request unit
| CaptureFrame (source : nat) (frame : list Z) : Request unit
| NextFrame (speaker : string) : Request unit.               (* next turn of [for await] *)

Definition synchronous {X} (req : Request X) : bool :=
  match req with CaptureFrame _ _ => true | _ => false end.

Inductive LogLine :=
| LogRoomNotConnected (speaker : string)
| LogNoRoute (speaker : string)
| LogProcessing (speaker voice : string)
| LogQuotaExhausted
| LogRateLimited
| LogServiceError (status : Z) (text : string)
| LogEmptyResponse
| LogSourceGone (speaker : string)
| LogRouteBecameInvalid (speaker : string)
| LogRoomDisconnected (speaker : string)
| LogRouteInvalid (speaker : string)
| LogRecovering (speaker : string)
| LogCaptureFailed (message : string)
| LogFrameFailed (frame : nat) (message : string)
| LogParticipantGone (speaker : string)
| LogQuotaRestored
| LogComplete (speaker : string) (samples frames : nat)
| LogTimeout
| LogSendFailed (speaker message : string)
| LogRecreating (participantIdentity : string)
| LogNoVoiceInfo (participantIdentity : string)
| LogUnpublishFailed (participantIdentity message : string)
| LogRecreated (participantIdentity voiceName : string)
| LogRecreateFailed (participantIdentity message : string)
| LogRouteCreated (participantIdentity voiceName : string)
| LogSetupFailed (participantIdentity message : string)
| LogVoiceAssigned (participantIdentity voiceName : string)
| LogCleanedUp (participantIdentity : string)
| LogCleanupFailed (participantIdentity message : string)
| LogAlreadyActive (speaker : string)
| LogNoRouteForStream (speaker : string)
| LogStarting (speaker voice : string)
| LogChunkFailed (speaker message : string)
| LogStopping (speaker : string)
| LogFlushFailed (speaker message : string)
| LogStreamEnded (speaker : string)
| LogChunkingError (speaker message : string)
| LogSubscribed (participantIdentity : string)
| LogRouteNotReady (participantIdentity : string)
| LogRouteReady (participantIdentity : string)
| LogRouteStillMissing (participantIdentity : string)
| LogQuotaReset
| LogVoiceFailed (participantIdentity message : string)
| LogUnhandledRejection (message : string).

(** What the worker did, in order: requests to the outside, console lines,
    and the calls of the two functions the properties count. *)
Inductive Event :=
| EvAwait (X : Type) (req : Request X)
| EvSetTimeout (delay : Z) (t : Timer)
| EvSendS2SChunk (speaker : string) (int16 : list Z) (now : Z)
| EvRecreateRoute (participantIdentity : string)
| EvLog (line : LogLine).

Record Worker := {
  connected : bool;                         (* this.room && this.room.state === Connected *)
  participantVoices : gmap string VoiceInfo;
  routes : gmap string Route;
  nulled : gset nat;
  activeS2S : gset string;
  quotaExhausted : option Z;
  lastSuccessfulCall : Z;
  recentlyRecreated : gset string;
  timers : list (Z * Timer);                (* pending setTimeout callbacks, with their delay *)
  nextId : nat;                             (* allocation of object identities *)
  trace : list Event
}.

(** Field updates ([this.f = v]); every other field is kept. *)
Definition set_connected (v : bool) (w : Worker) : Worker :=
  {| connected := v; participantVoices := participantVoices w; routes := routes w; nulled := nulled w; activeS2S := activeS2S w; quotaExhausted := quotaExhausted w; lastSuccessfulCall := lastSuccessfulCall w; recentlyRecreated := recentlyRecreated w; timers := timers w; nextId := nextId w; trace := trace w |}.
Definition set_participantVoices (v : gmap string VoiceInfo) (w : Worker) : Worker :=
  {| connected := connected w; participantVoices := v; routes := routes w; nulled := nulled w; activeS2S := activeS2S w; quotaExhausted := quotaExhausted w; lastSuccessfulCall := lastSuccessfulCall w; recentlyRecreated := recentlyRecreated w; timers := timers w; nextId := nextId w; trace := trace w |}.
Definition set_routes (v : gmap string Route) (w : Worker) : Worker :=
  {| connected := connected w; participantVoices := participantVoices w; routes := v; nulled := nulled w; activeS2S := activeS2S w; quotaExhausted := quotaExhausted w; lastSuccessfulCall := lastSuccessfulCall w; recentlyRecreated := recentlyRecreated w; timers := timers w; nextId := nextId w; trace := trace w |}.
Definition set_nulled (v : gset nat) (w : Worker) : Worker :=
  {| connected := connected w; participantVoices := participantVoices w; routes := routes w; nulled := v; activeS2S := activeS2S w; quotaExhausted := quotaExhausted w; lastSuccessfulCall := lastSuccessfulCall w; recentlyRecreated := recentlyRecreated w; timers := timers w; nextId := nextId w; trace := trace w |}.
Definition set_activeS2S (v : gset string) (w : Worker) : Worker :=
  {| connected := connected w; participantVoices := participantVoices w; routes := routes w; nulled := nulled w; activeS2S := v; quotaExhausted := quotaExhausted w; lastSuccessfulCall := lastSuccessfulCall w; recentlyRecreated := recentlyRecreated w; timers := timers w; nextId := nextId w; trace := trace w |}.
Definition set_quotaExhausted (v : option Z) (w : Worker) : Worker :=
  {| connected := connected w; participantVoices := participantVoices w; routes := routes w; nulled := nulled w; activeS2S := activeS2S w; quotaExhausted := v; lastSuccessfulCall := lastSuccessfulCall w; recentlyRecreated := recentlyRecreated w; timers := timers w; nextId := nextId w; trace := trace w |}.
Definition set_lastSuccessfulCall (v : Z) (w : Worker) : Worker :=
  {| connected := connected w; participantVoices := participantVoices w; routes := routes w; nulled := nulled w; activeS2S := activeS2S w; quotaExhausted := quotaExhausted w; lastSuccessfulCall := v; recentlyRecreated := recentlyRecreated w; timers := timers w; nextId := nextId w; trace := trace w |}.
Definition set_recentlyRecreated (v : gset string) (w : Worker) : Worker :=
  {| connected := connected w; participantVoices := participantVoices w; routes := routes w; nulled := nulled w; activeS2S := activeS2S w; quotaExhausted := quotaExhausted w; lastSuccessfulCall := lastSuccessfulCall w; recentlyRecreated := v; timers := timers w; nextId := nextId w; trace := trace w |}.
Definition set_timers (v : list (Z * Timer)) (w : Worker) : Worker :=
  {| connected := connected w; participantVoices := participantVoices w; routes := routes w; nulled := nulled w; activeS2S := activeS2S w; quotaExhausted := quotaExhausted w; lastSuccessfulCall := lastSuccessfulCall w; recentlyRecreated := recentlyRecreated w; timers := v; nextId := nextId w; trace := trace w |}.
Definition set_nextId (v : nat) (w : Worker) : Worker :=
  {| connected := connected w; participantVoices := participantVoices w; routes := routes w; nulled := nulled w; activeS2S := activeS2S w; quotaExhausted := quotaExhausted w; lastSuccessfulCall := lastSuccessfulCall w; recentlyRecreated := recentlyRecreated w; timers := timers w; nextId := v; trace := trace w |}.
Definition set_trace (v : list Event) (w : Worker) : Worker :=
  {| connected := connected w; participantVoices := participantVoices w; routes := routes w; nulled := nulled w; activeS2S := activeS2S w; quotaExhausted := quotaExhausted w; lastSuccessfulCall := lastSuccessfulCall w; recentlyRecreated := recentlyRecreated w; timers := timers w; nextId := nextId w; trace := v |}.

Definition emit (e : Event) (w : Worker) : Worker := set_trace (trace w ++ [e]) w.

(** [console.log], [console.warn] and [console.error]. *)
Definition log (l : LogLine) (w : Worker) : Worker := emit (EvLog l) w.

(** [route.source], read through a reference to the route object. *)
Definition route_source (w : Worker) (route : Route) : option nat :=
  if decide (ref route ∈ nulled w) then None else Some (source route).

(** [!route || !route.source || !route.voiceId] for a route that exists. *)
Definition route_usable (w : Worker) (route : Route) : bool :=
  bool_decide (is_Some (route_source w route)) && truthy_string (voiceId route).

(** [this.quotaExhausted && Date.now() - this.quotaExhausted < 60000]; the
    number 0 is falsy like [null]. *)
Definition quotaBlocks (w : Worker) (now : Z) : bool :=
  match quotaExhausted w with
  | Some t => negb (t =? 0) && (now - t <? 60000)
  | None => false
  end.

(* ===================================================================== *)
(** * 4. Asynchronous calls                                               *)
(* ===================================================================== *)

(** How a promise or a synchronous call to the outside settles. *)
Inductive Settled (X : Type) := Fulfilled (x : X) | Rejected (e : JsError).
Arguments Fulfilled {X} x.
Arguments Rejected {X} e.

(** A call of an async function, run up to its next [await]:
    - [Finished w c]: it ended in state [w];
    - [Suspended w req k]: it left the state [w] and waits for [req]; when
      the request settles with [r], the clock reads [now] and the shared
      state has become [w'], it goes on as [k r now w'];
    - [Spawned speaker child rest]: it started the relay loop [child] of
      [speaker] without awaiting it and goes on as [rest] from the state the
      loop's first segment left. *)
Inductive Step :=
| Finished (w : Worker) (c : Completion)
| Suspended (w : Worker) (X : Type) (req : Request X) (k : Settled X -> Z -> Worker -> Step)
| Spawned (speaker : string) (child : Step) (rest : Worker -> Step).

(** Issue [req], record it, and wait for it. *)
Definition await {X} (req : Request X) (w : Worker)
    (k : Settled X -> Z -> Worker -> Step) : Step :=
  Suspended (emit (EvAwait X req) w) X req k.

(** [await callee(...)] followed by [f]; [now] is the clock of the segment
    in which the callee ends. *)
Fixpoint bindStep (s : Step) (now : Z) (f : Z -> Worker -> Completion -> Step) : Step :=
  match s with
  | Finished w c => f now w c
  | Suspended w X req k => Suspended w X req (fun r now' w' => bindStep (k r now' w') now' f)
  | Spawned speaker child rest => Spawned speaker child (fun w' => bindStep (rest w') now f)
  end.

(* ===================================================================== *)
(** * 5. Routes                                                           *)
(* ===================================================================== *)

Definition routeKeyOf (participantIdentity : string) : string :=
  ("from-" ++ participantIdentity)%string.

(** [recreateRouteForParticipant], after the old route is cleaned up:
    [new AudioSource], [createAudioTrack], [await publishTrack],
    [this.routes.set]. A rejected publish lands in the function's [catch]. *)
Definition recreateRoute_create (participantIdentity : string) (voiceInfo : VoiceInfo)
    (w : Worker) : Step :=
  let routeKey := routeKeyOf participantIdentity in
  let source := nextId w in
  let track := S (nextId w) in
  let w := set_nextId (nextId w + 2) w in
  await (PublishTrack track routeKey) w (fun res _ w =>
    match res with
    | Fulfilled _ =>
        let route := {| ref := nextId w; key := routeKey; voiceId := vi_voiceId voiceInfo;
                        source := source; track := track |} in
        let w := set_nextId (S (nextId w)) w in
        let w := set_routes (<[participantIdentity := route]> (routes w)) w in
        Finished (log (LogRecreated participantIdentity (vi_voiceName voiceInfo)) w) Normal
    | Rejected error =>
        Finished (log (LogRecreateFailed participantIdentity (err_message error)) w) Normal
    end).

(** [recreateRouteForParticipant(participantIdentity)]. *)
Definition recreateRouteForParticipant (participantIdentity : string) (w : Worker) : Step :=
  let w := emit (EvRecreateRoute participantIdentity) w in
  let w := log (LogRecreating participantIdentity) w in
  match participantVoices w !! participantIdentity with
  | None => Finished (log (LogNoVoiceInfo participantIdentity) w) Normal
  | Some voiceInfo =>
      match routes w !! participantIdentity with
      | Some oldRoute =>
          await (UnpublishTrack (track oldRoute)) w (fun res _ w =>
            let w :=
              match res with
              | Fulfilled _ => w
              | Rejected error =>
                  log (LogUnpublishFailed participantIdentity (err_message error)) w
              end in
            let w := set_routes (delete participantIdentity (routes w)) w in
            recreateRoute_create participantIdentity voiceInfo w)
      | None => recreateRoute_create participantIdentity voiceInfo w
      end
  end.

(** [handleParticipantDisconnected(participant)]. *)
Definition handleParticipantDisconnected (participantIdentity : string) (w : Worker) : Step :=
  let w := set_activeS2S (activeS2S w ∖ {[participantIdentity]}) w in
  match routes w !! participantIdentity with
  | Some route =>
      let w := set_nulled ({[ref route]} ∪ nulled w) w in
      await (UnpublishTrack (track route)) w (fun res _ w =>
        let w :=
          match res with
          | Fulfilled _ =>
              log (LogCleanedUp participantIdentity)
                  (set_routes (delete participantIdentity (routes w)) w)
          | Rejected error =>
              log (LogCleanupFailed participantIdentity (err_message error)) w
          end in
        Finished (set_participantVoices (delete participantIdentity (participantVoices w)) w)
                 Normal)
  | None =>
      Finished (set_participantVoices (delete participantIdentity (participantVoices w)) w)
               Normal
  end.

(** [loadParticipantVoice(participantIdentity)]: a truthy selection is the
    participant's voice, no selection gives the default voice, and the
    [catch] around the lookup gives the fallback voice. *)
Definition loadParticipantVoice (participantIdentity : string) (w : Worker) : Step :=
  await (LookupVoice participantIdentity) w (fun res _ w =>
    match res with
    | Fulfilled selection =>
        let voiceInfo :=
          match selection with
          | Some v =>
              if truthy_string v then {| vi_voiceId := v; vi_voiceName := "Custom Voice" |}
              else {| vi_voiceId := "pNInz6obpgDQGcFmaJgB"; vi_voiceName := "Adam (Default)" |}
          | None => {| vi_voiceId := "pNInz6obpgDQGcFmaJgB"; vi_voiceName := "Adam (Default)" |}
          end in
        let w := set_participantVoices
                   (<[participantIdentity := voiceInfo]> (participantVoices w)) w in
        Finished (log (LogVoiceAssigned participantIdentity (vi_voiceName voiceInfo)) w) Normal
    | Rejected error =>
        let w := log (LogVoiceFailed participantIdentity (err_message error)) w in
        let voiceInfo :=
          {| vi_voiceId := "pNInz6obpgDQGcFmaJgB"; vi_voiceName := "Adam (Fallback)" |} in
        Finished (set_participantVoices
                    (<[participantIdentity := voiceInfo]> (participantVoices w)) w) Normal
    end).

(* ===================================================================== *)
(** * 6. sendS2SChunk                                                     *)
(* ===================================================================== *)

(** [new Int16Array(buf.buffer, buf.byteOffset, Math.floor(buf.length / 2))]:
    an odd last octet is left out. *)
Fixpoint Int16Array_view (b : Buffer) : list Z :=
  match b with
  | b0 :: b1 :: rest => signed16 (le16 [b0; b1]) :: Int16Array_view rest
  | _ => []
  end.

Definition samplesPer20ms : nat := 960.

(** The slices [pcmAll.subarray(i, i + 960)] of the publishing loop, for
    [i = 0, 960, ...] while [i + 960 <= pcmAll.length]. *)
Definition frameSlices (pcmAll : list Z) : list (list Z) :=
  map (fun j => take samplesPer20ms (drop (j * samplesPer20ms) pcmAll))
      (seq 0 (length pcmAll / samplesPer20ms)%nat).

(** The outer [catch (e)] of sendS2SChunk. *)
Definition sendS2SChunk_catch (speakerIdentity : string) (e : JsError) (w : Worker) : Step :=
  if String.eqb (err_name e) "TimeoutError" || String.eqb (err_code e) "ETIMEDOUT"
  then Finished (log LogTimeout w) Normal
  else Finished (log (LogSendFailed speakerIdentity (err_message e)) w) Normal.

(** After the publishing loop: "Mark successful call". *)
Definition sendS2SChunk_mark (speakerIdentity : string) (samples framesPublished : nat)
    (now : Z) (w : Worker) : Step :=
  let w := set_lastSuccessfulCall now w in
  let w :=
    match quotaExhausted w with
    | Some t => if t =? 0 then w else set_quotaExhausted None (log LogQuotaRestored w)
    | None => w
    end in
  Finished (log (LogComplete speakerIdentity samples framesPublished) w) Normal.

(** [catch (frameError)] of the publishing loop, then [break]. *)
Definition sendS2SChunk_frameError (speakerIdentity : string) (samples framesPublished : nat)
    (frameError : JsError) (now : Z) (w : Worker) : Step :=
  let w := log (LogFrameFailed (framesPublished + 1) (err_message frameError)) w in
  let w :=
    if includes (err_message frameError) "InvalidState"
    then set_activeS2S (activeS2S w ∖ {[speakerIdentity]})
                       (log (LogParticipantGone speakerIdentity) w)
    else w in
  sendS2SChunk_mark speakerIdentity samples framesPublished now w.

(** [catch (captureError)] around [captureFrame]. *)
Definition sendS2SChunk_captureError (speakerIdentity : string) (samples framesPublished : nat)
    (captureError : JsError) (now : Z) (w : Worker) : Step :=
  if includes (err_message captureError) "InvalidState" ||
     includes (err_message captureError) "failed to capture frame"
  then
    if decide (speakerIdentity ∈ recentlyRecreated w)
    then sendS2SChunk_frameError speakerIdentity samples framesPublished captureError now w
    else
      let w := log (LogRecovering speakerIdentity) w in
      let w := set_recentlyRecreated ({[speakerIdentity]} ∪ recentlyRecreated w) w in
      let w := set_timers (timers w ++ [(5000, TimerClearRecreated speakerIdentity)]) w in
      let w := emit (EvSetTimeout 5000 (TimerClearRecreated speakerIdentity)) w in
      bindStep (recreateRouteForParticipant speakerIdentity w) now (fun now w c =>
        match c with
        | Normal =>
            sendS2SChunk_frameError speakerIdentity samples framesPublished captureError now w
        | Throw e =>
            sendS2SChunk_frameError speakerIdentity samples framesPublished e now w
        end)
  else
    let w := log (LogCaptureFailed (err_message captureError)) w in
    sendS2SChunk_frameError speakerIdentity samples framesPublished captureError now w.

(** The publishing loop over the remaining slices; [route] is the reference
    sendS2SChunk took before the request. *)
Fixpoint publishFrames (speakerIdentity : string) (route : Route) (samples : nat)
    (slices : list (list Z)) (framesPublished : nat) (now : Z) (w : Worker) : Step :=
  match slices with
  | [] => sendS2SChunk_mark speakerIdentity samples framesPublished now w
  | slice :: rest =>
      if negb (bool_decide (is_Some (routes w !! speakerIdentity))) ||
         negb (bool_decide (is_Some (route_source w route)))
      then sendS2SChunk_mark speakerIdentity samples framesPublished now
             (log (LogRouteBecameInvalid speakerIdentity) w)
      else if negb (connected w)
      then sendS2SChunk_mark speakerIdentity samples framesPublished now
             (log (LogRoomDisconnected speakerIdentity) w)
      else if negb (bool_decide (is_Some (routes w !! speakerIdentity ≫= route_source w)))
      then sendS2SChunk_mark speakerIdentity samples framesPublished now
             (log (LogRouteInvalid speakerIdentity) w)
      else
        await (CaptureFrame (source route) slice) w (fun res now w =>
          match res with
          | Fulfilled _ =>
              publishFrames speakerIdentity route samples rest (S framesPublished) now w
          | Rejected captureError =>
              sendS2SChunk_captureError speakerIdentity samples framesPublished
                                        captureError now w
          end)
  end.

(** After [await res.arrayBuffer()]. *)
Definition sendS2SChunk_body (speakerIdentity : string) (route : Route)
    (res : Settled Buffer) (now : Z) (w : Worker) : Step :=
  match res with
  | Rejected e => sendS2SChunk_catch speakerIdentity e w
  | Fulfilled buf =>
      if (length buf =? 0)%nat then Finished (log LogEmptyResponse w) Normal
      else
        let pcmAll := Int16Array_view buf in
        if negb (bool_decide (is_Some (route_source w route)))
        then Finished (log (LogSourceGone speakerIdentity) w) Normal
        else publishFrames speakerIdentity route (length pcmAll) (frameSlices pcmAll) 0 now w
  end.

(** After [await res.text().catch(() => '')], for a response that is not ok. *)
Definition sendS2SChunk_errorText (status : Z) (res : Settled string) (now : Z)
    (w : Worker) : Step :=
  let text := match res with Fulfilled t => t | Rejected _ => ""%string end in
  if ((status =? 401) || (status =? 429)) &&
     (includes text "quota_exceeded" || includes text "quota")
  then Finished (set_quotaExhausted (Some now) (log LogQuotaExhausted w)) Normal
  else if status =? 429
  then Finished (set_quotaExhausted (Some now) (log LogRateLimited w)) Normal
  else Finished (log (LogServiceError status text) w) Normal.

(** [res.ok]. *)
Definition res_ok (status : Z) : bool := (200 <=? status) && (status <=? 299).

(** After [await fetch(...)]. *)
Definition sendS2SChunk_response (speakerIdentity : string) (route : Route)
    (res : Settled Z) (now : Z) (w : Worker) : Step :=
  match res with
  | Rejected e => sendS2SChunk_catch speakerIdentity e w
  | Fulfilled status =>
      if negb (res_ok status)
      then await ResText w (sendS2SChunk_errorText status)
      else await ResArrayBuffer w (sendS2SChunk_body speakerIdentity route)
  end.

(** [sendS2SChunk(speakerIdentity, int16)], called when the clock reads
    [now]. [rmsLevel < SILENCE_DB] and [rmsLevel < -55] are the two tests of
    the level of [int16]. The multipart framing around the WAV file (a
    random boundary) is left out of the recorded request. *)
Definition sendS2SChunk {gate : LevelGate} (speakerIdentity : string) (int16 : list Z)
    (now : Z) (w : Worker) : Step :=
  let w := emit (EvSendS2SChunk speakerIdentity int16 now) w in
  if negb (connected w)
  then Finished (log (LogRoomNotConnected speakerIdentity) w) Normal
  else
    match routes w !! speakerIdentity with
    | None => Finished (log (LogNoRoute speakerIdentity) w) Normal
    | Some route =>
        if negb (route_usable w route)
        then Finished (log (LogNoRoute speakerIdentity) w) Normal
        else if quotaBlocks w now then Finished w Normal
        else
          if levelBelow int16 SILENCE_DB then Finished w Normal
          else if levelBelow int16 (-55) then Finished w Normal
          else
            let w := log (LogProcessing speakerIdentity (voiceId route)) w in
            match pcmToWavBuffer int16 VOICE_SAMPLE_RATE with
            | None =>
                sendS2SChunk_catch speakerIdentity
                  {| err_name := "RangeError"; err_code := "ERR_OUT_OF_RANGE";
                     err_message := "The value is out of range" |} w
            | Some wav =>
                await (Fetch (voiceId route) wav) w
                      (sendS2SChunk_response speakerIdentity route)
            end
    end.

(* ===================================================================== *)
(** * 7. The per-speaker relay loop                                       *)
(* ===================================================================== *)

(** [typedArray.set(src, o)]: a RangeError ([None]) when [src] does not fit. *)
Definition Int16Array_set (arr src : list Z) (o : nat) : option (list Z) :=
  if (o + length src <=? length arr)%nat
  then Some (take o arr ++ src ++ drop (o + length src) arr)
  else None.

(** [for (const b of buffers) { merged.set(b, o); o += b.length; }]. *)
Fixpoint mergeInto (merged : list Z) (o : nat) (buffers : list (list Z)) : option (list Z) :=
  match buffers with
  | [] => Some merged
  | b :: rest => merged ← Int16Array_set merged b o; mergeInto merged (o + length b) rest
  end.

(** [const merged = new Int16Array(totalSamples)] and the loop above. *)
Definition mergeBuffers (totalSamples : nat) (buffers : list (list Z)) : option (list Z) :=
  mergeInto (replicate totalSamples 0) 0 buffers.

Definition minChunkInterval : Z := 200.

Section Config.

Context {gate : LevelGate}.

(** [parseInt(process.env.S2S_CHUNK_MS || '1000', 10)], an integer. *)
Variable S2S_CHUNK_MS : Z.

(** [Math.max(1, Math.floor((VOICE_SAMPLE_RATE * S2S_CHUNK_MS) / 1000))]. *)
Definition samplesPerChunk : Z := Z.max 1 (VOICE_SAMPLE_RATE * S2S_CHUNK_MS / 1000).

(** The [finally] of the loop's async function. *)
Definition stream_finally (speaker : string) (w : Worker) : Step :=
  Finished (set_activeS2S (activeS2S w ∖ {[speaker]}) w) Normal.

(** The loop's outer [catch (e)]. *)
Definition stream_catch (speaker : string) (e : JsError) (w : Worker) : Step :=
  stream_finally speaker (log (LogChunkingError speaker (err_message e)) w).

(** After the loop: "Flush remaining if there's enough audio content".
    [totalSamples > samplesPerChunk / 2] compares with the exact half: it is
    [samplesPerChunk < 2 * totalSamples]. *)
Definition stream_flush (speaker : string) (buffers : list (list Z)) (totalSamples : nat)
    (now : Z) (w : Worker) : Step :=
  if samplesPerChunk <? 2 * Z.of_nat totalSamples
  then
    match mergeBuffers totalSamples buffers with
    | None =>
        stream_catch speaker
          {| err_name := "RangeError"; err_code := ""; err_message := "offset is out of bounds" |} w
    | Some merged =>
        bindStep (sendS2SChunk speaker merged now w) now (fun _ w c =>
          let w :=
            match c with
            | Normal => w
            | Throw flushError =>
                let w := log (LogFlushFailed speaker (err_message flushError)) w in
                if includes (err_message flushError) "InvalidState"
                then set_activeS2S (activeS2S w ∖ {[speaker]}) (log (LogStopping speaker) w)
                else w
            end in
          stream_finally speaker (log (LogStreamEnded speaker) w))
    end
  else stream_finally speaker (log (LogStreamEnded speaker) w).

(** The async function started by [_startAudioStream]: [for await (const
    frame of stream)] over the frames the track still has to deliver, with
    the loop's variables [buffers], [totalSamples] and [lastChunkTime]. Each
    turn waits for the stream; the clock of the turn is [Date.now()]. *)
Fixpoint streamLoop (speaker : string) (stream : Track) (buffers : list (list Z))
    (totalSamples : nat) (lastChunkTime : Z) (w : Worker) : Step :=
  await (NextFrame speaker) w (fun res now w =>
    match res with
    | Rejected e => stream_catch speaker e w
    | Fulfilled _ =>
        match stream with
        | [] => stream_flush speaker buffers totalSamples now w
        | frame :: stream =>
            match frame with
            | None | Some [] => streamLoop speaker stream buffers totalSamples lastChunkTime w
            | Some src =>
                let buffers := buffers ++ [src] in
                let totalSamples := (totalSamples + length src)%nat in
                let timeSinceLastChunk := now - lastChunkTime in
                if (samplesPerChunk <=? Z.of_nat totalSamples) &&
                   (minChunkInterval <=? timeSinceLastChunk)
                then
                  match mergeBuffers totalSamples buffers with
                  | None =>
                      stream_catch speaker
                        {| err_name := "RangeError"; err_code := "";
                           err_message := "offset is out of bounds" |} w
                  | Some merged =>
                      bindStep (sendS2SChunk speaker merged now w) now (fun now' w c =>
                        match c with
                        | Normal => streamLoop speaker stream [] 0 now w
                        | Throw chunkError =>
                            let w := log (LogChunkFailed speaker (err_message chunkError)) w in
                            if includes (err_message chunkError) "InvalidState"
                            then
                              let w := log (LogStopping speaker) w in
                              let w := set_activeS2S (activeS2S w ∖ {[speaker]}) w in
                              stream_flush speaker [] 0 now' w
                            else streamLoop speaker stream [] 0 now w
                        end)
                  end
                else streamLoop speaker stream buffers totalSamples lastChunkTime w
            end
        end
    end).

(** [_startAudioStream(track, speaker)]; [track] is [None] for a missing
    track object. *)
Definition _startAudioStream (track : option Track) (speaker : string) (w : Worker) : Step :=
  match track with
  | None => Finished w Normal
  | Some stream =>
      if negb (truthy_string speaker) || startsWith speaker "audio-worker-"
      then Finished w Normal
      else if decide (speaker ∈ activeS2S w)
      then Finished (log (LogAlreadyActive speaker) w) Normal
      else
        match routes w !! speaker with
        | None => Finished (log (LogNoRouteForStream speaker) w) Normal
        | Some route =>
            if negb (route_usable w route)
            then Finished (log (LogNoRouteForStream speaker) w) Normal
            else
              let w := set_activeS2S ({[speaker]} ∪ activeS2S w) w in
              let w := log (LogStarting speaker (voiceId route)) w in
              Spawned speaker (streamLoop speaker stream [] 0 0 w)
                      (fun w => Finished w Normal)
        end
  end.

(** [startAudioStreamIfTrackExists(participantIdentity)]; [existing] is the
    track object of the participant's first audio publication that has
    one, when the participant is in the room. *)
Definition startAudioStreamIfTrackExists (existing : option Track)
    (participantIdentity : string) (w : Worker) : Step :=
  match existing with
  | Some trackObj =>
      if decide (participantIdentity ∈ activeS2S w) then Finished w Normal
      else _startAudioStream (Some trackObj) participantIdentity w
  | None => Finished w Normal
  end.

(** [setupRouteForParticipant(participantIdentity)]. *)
Definition setupRouteForParticipant (existing : option Track)
    (participantIdentity : string) (w : Worker) : Step :=
  match participantVoices w !! participantIdentity with
  | None => Finished (log (LogNoVoiceInfo participantIdentity) w) Normal
  | Some voiceInfo =>
      let routeKey := routeKeyOf participantIdentity in
      let source := nextId w in
      let track := S (nextId w) in
      let w := set_nextId (nextId w + 2) w in
      await (PublishTrack track routeKey) w (fun res _ w =>
        match res with
        | Fulfilled _ =>
            let route := {| ref := nextId w; key := routeKey;
                            voiceId := vi_voiceId voiceInfo;
                            source := source; track := track |} in
            let w := set_nextId (S (nextId w)) w in
            let w := set_routes (<[participantIdentity := route]> (routes w)) w in
            let w := log (LogRouteCreated participantIdentity (vi_voiceName voiceInfo)) w in
            startAudioStreamIfTrackExists existing participantIdentity w
        | Rejected error =>
            Finished (log (LogSetupFailed participantIdentity (err_message error)) w) Normal
        end)
  end.

(** [handleParticipantConnected(participant)]. *)
Definition handleParticipantConnected (existing : option Track)
    (participantIdentity : string) (now : Z) (w : Worker) : Step :=
  bindStep (loadParticipantVoice participantIdentity w) now (fun _ w c =>
    match c with
    | Normal => setupRouteForParticipant existing participantIdentity w
    | Throw e => Finished w (Throw e)
    end).

(** The handler of [RoomEvent.TrackSubscribed]. *)
Definition onTrackSubscribed (track : option Track) (isAudio : bool) (participantIdentity : string)
    (w : Worker) : Step :=
  match track with
  | None => Finished w Normal
  | Some _ =>
      if negb isAudio then Finished w Normal
      else if negb (truthy_string participantIdentity) || startsWith participantIdentity "audio-worker"
      then Finished w Normal
      else
        let w := log (LogSubscribed participantIdentity) w in
        match routes w !! participantIdentity with
        | None =>
            let w := log (LogRouteNotReady participantIdentity) w in
            let w := set_timers (timers w ++ [(1000, TimerRetryStart participantIdentity track)]) w in
            Finished (emit (EvSetTimeout 1000 (TimerRetryStart participantIdentity track)) w) Normal
        | Some _ => _startAudioStream track participantIdentity w
        end
  end.

(** The callback of a timer. *)
Definition fireTimer (t : Timer) (w : Worker) : Step :=
  match t with
  | TimerClearRecreated speaker =>
      Finished (set_recentlyRecreated (recentlyRecreated w ∖ {[speaker]}) w) Normal
  | TimerRetryStart participantIdentity track =>
      match routes w !! participantIdentity with
      | Some _ => _startAudioStream track participantIdentity (log (LogRouteReady participantIdentity) w)
      | None => Finished (log (LogRouteStillMissing participantIdentity) w) Normal
      end
  end.

End Config.

(** [new LiveKitAudioWorker()] when the clock reads [now]; the room is
    connected later. *)
Definition newWorker (now : Z) : Worker :=
  {| connected := false; participantVoices := ∅; routes := ∅; nulled := ∅;
     activeS2S := ∅; quotaExhausted := None; lastSuccessfulCall := now;
     recentlyRecreated := ∅; timers := []; nextId := 0; trace := [] |}.

(** The callback of [setupQuotaResetTimer]'s interval. *)
Definition quotaResetTick (now : Z) (w : Worker) : Worker :=
  match quotaExhausted w with
  | Some t =>
      if negb (t =? 0) && (60000 <? now - t)
      then set_quotaExhausted None (log LogQuotaReset w)
      else w
  | None => w
  end.

(** The handler of [RoomEvent.Disconnected], as far as the relay state goes;
    the room is no longer connected when it runs. *)
Definition onDisconnected (w : Worker) : Worker :=
  set_activeS2S ∅ (set_connected false w).

(** The handler of the process's [unhandledRejection] event (setupProcess):
    a rejection whose message names InvalidState is passed over in silence,
    another one is logged. The worker's state is not touched. This is where
    the rejection of a promise that nobody awaits ends, that of
    [captureFrame] among them. *)
Definition onUnhandledRejection (reason : JsError) (w : Worker) : Worker :=
  if includes (err_message reason) "InvalidState" then w
  else log (LogUnhandledRejection (err_message reason)) w.

(* ===================================================================== *)
(** * 8. Running calls                                                    *)
(* ===================================================================== *)

(** The outside world at one moment: how it settles whatever is asked. *)
Definition Env := forall X, Request X -> Settled X.

(** The state a call leaves when it first gives up control. *)
Fixpoint first_worker (s : Step) : Worker :=
  match s with
  | Finished w _ => w
  | Suspended w _ _ _ => w
  | Spawned _ child rest => first_worker (rest (first_worker child))
  end.

Record Result := {
  res_worker : Worker;
  res_completion : Completion;
  res_awaits : nat;      (* requests settled so far *)
  res_now : Z            (* clock of the last segment *)
}.

(** One call run to its end with nothing else in between: the [i]-th
    request is settled by [env i] when the clock reads [clock i]. A relay
    loop the call starts is left suspended. *)
Fixpoint exec (env : nat -> Env) (clock : nat -> Z) (i : nat) (now : Z) (s : Step) : Result :=
  match s with
  | Finished w c =>
      {| res_worker := w; res_completion := c; res_awaits := i; res_now := now |}
  | Suspended w X req k => exec env clock (S i) (clock i) (k (env i X req) (clock i) w)
  | Spawned _ child rest => exec env clock i now (rest (first_worker child))
  end.

(** Every way a call can end, whatever the other calls do to the shared
    state while it is suspended. *)
Inductive Outcomes (P : Worker -> Completion -> Prop) : Step -> Prop :=
| Outcomes_finished w c : P w c -> Outcomes P (Finished w c)
| Outcomes_suspended w X req k :
    (forall r now w', Outcomes P (k r now w')) -> Outcomes P (Suspended w X req k)
| Outcomes_spawned speaker child rest :
    (forall w', Outcomes P (rest w')) -> Outcomes P (Spawned speaker child rest).

(** ** Interleaved calls *)

Inductive Owner :=
| RelayLoop (speaker : string)      (* the async function of _startAudioStream *)
| Handler.                          (* an event handler's async call *)

#[global] Instance Owner_eq_dec : EqDecision Owner.
Proof. solve_decision. Defined.

(** A suspended call. *)
Record Task := { task_owner : Owner; task_step : Step }.

Record System := { sys_worker : Worker; sys_tasks : list Task }.

(** Runs a call's current segment: a finished call disappears, a suspended
    one joins the tasks, a started relay loop becomes a task of its own. *)
Fixpoint launch (owner : Owner) (s : Step) (tasks : list Task) : System :=
  match s with
  | Finished w _ => {| sys_worker := w; sys_tasks := tasks |}
  | Suspended w _ _ _ =>
      {| sys_worker := w; sys_tasks := tasks ++ [{| task_owner := owner; task_step := s |}] |}
  | Spawned speaker child rest =>
      let sys := launch (RelayLoop speaker) child tasks in
      launch owner (rest (sys_worker sys)) (sys_tasks sys)
  end.

Definition task_synchronous (t : Task) : bool :=
  match task_step t with
  | Suspended _ _ req _ => synchronous req
  | _ => false
  end.

(** The task that is inside a synchronous call, if there is one. *)
Fixpoint synchronous_task (tasks : list Task) : option nat :=
  match tasks with
  | [] => None
  | t :: rest => if task_synchronous t then Some 0%nat else S <$> synchronous_task rest
  end.

(** The request settles for task [i]. *)
Definition resume (i : nat) (env : Env) (now : Z) (sys : System) : option System :=
  match sys_tasks sys !! i with
  | Some {| task_owner := owner; task_step := Suspended _ X req k |} =>
      Some (launch owner (k (env X req) now (sys_worker sys)) (delete i (sys_tasks sys)))
  | _ => None
  end.

Inductive Action :=
| ActResume (i : nat) (env : Env) (now : Z)
| ActTrackSubscribed (track : option Track) (isAudio : bool) (participantIdentity : string)
| ActParticipantConnected (existing : option Track) (participantIdentity : string) (now : Z)
| ActParticipantDisconnected (participantIdentity : string)
| ActConnected
| ActDisconnected
| ActTimer (i : nat)
| ActQuotaResetTick (now : Z).

Section Scheduler.

Context {gate : LevelGate}.
Variable S2S_CHUNK_MS : Z.

(** One event of the event loop. A task inside a synchronous call
    ([captureFrame]) is the only one that can go on. *)
Definition step (a : Action) (sys : System) : option System :=
  let w := sys_worker sys in
  let tasks := sys_tasks sys in
  match synchronous_task tasks with
  | Some j =>
      match a with
      | ActResume i env now => if (i =? j)%nat then resume i env now sys else None
      | _ => None
      end
  | None =>
      match a with
      | ActResume i env now => resume i env now sys
      | ActTrackSubscribed track isAudio participantIdentity =>
          Some (launch Handler
                  (onTrackSubscribed S2S_CHUNK_MS track isAudio participantIdentity w) tasks)
      | ActParticipantConnected existing participantIdentity now =>
          Some (launch Handler
                  (handleParticipantConnected S2S_CHUNK_MS existing participantIdentity now w)
                  tasks)
      | ActParticipantDisconnected participantIdentity =>
          Some (launch Handler (handleParticipantDisconnected participantIdentity w) tasks)
      | ActConnected => Some {| sys_worker := set_connected true w; sys_tasks := tasks |}
      | ActDisconnected => Some {| sys_worker := onDisconnected w; sys_tasks := tasks |}
      | ActTimer i =>
          match timers w !! i with
          | Some (_, t) =>
              Some (launch Handler
                      (fireTimer S2S_CHUNK_MS t (set_timers (delete i (timers w)) w)) tasks)
          | None => None
          end
      | ActQuotaResetTick now =>
          Some {| sys_worker := quotaResetTick now w; sys_tasks := tasks |}
      end
  end.

Fixpoint steps (acts : list Action) (sys : System) : option System :=
  match acts with
  | [] => Some sys
  | a :: acts => sys ← step a sys; steps acts sys
  end.

End Scheduler.

(** The relay loops of [speaker] that are running. *)
Definition relayLoops (speaker : string) (sys : System) : nat :=
  length (filter (fun t => task_owner t = RelayLoop speaker) (sys_tasks sys)).

(* ===================================================================== *)
(** * 9. Reading the trace                                                *)
(* ===================================================================== *)

(** The events of [w] that came after those of [w0]. *)
Definition events_since (w0 w : Worker) : list Event :=
  drop (length (trace w0)) (trace w).

Definition is_fetch (e : Event) : bool :=
  match e with EvAwait _ (Fetch _ _) => true | _ => false end.

Definition is_capture (e : Event) : bool :=
  match e with EvAwait _ (CaptureFrame _ _) => true | _ => false end.

Definition is_nextFrame (e : Event) : bool :=
  match e with EvAwait _ (NextFrame _) => true | _ => false end.

Definition is_unpublish (t : nat) (e : Event) : bool :=
  match e with EvAwait _ (UnpublishTrack t') => (t' =? t)%nat | _ => false end.

Definition is_recreate (speaker : string) (e : Event) : bool :=
  match e with EvRecreateRoute s => String.eqb s speaker | _ => false end.

Definition is_send (e : Event) : bool :=
  match e with EvSendS2SChunk _ _ _ => true | _ => false end.

(** The lines of the two [catch] blocks around the loop's calls of
    sendS2SChunk. *)
Definition is_chunkCatch (e : Event) : bool :=
  match e with
  | EvLog (LogChunkFailed _ _) | EvLog (LogStopping _) | EvLog (LogFlushFailed _ _) => true
  | _ => false
  end.

Definition count (p : Event -> bool) (es : list Event) : nat := length (List.filter p es).

(** The chunks handed to sendS2SChunk, each with the clock of its call. *)
Definition sentChunks (es : list Event) : list (list Z * Z) :=
  omap (fun e => match e with EvSendS2SChunk _ int16 now => Some (int16, now) | _ => None end) es.

(** The samples of a track, in the order of arrival. *)
Definition samplesOf (stream : Track) : list Z := concat (omap (fun frame => frame) stream).

(** The firing rule of the accumulator, read off a list of chunks with
    their times: a chunk has at least [size] samples and comes at least
    [minChunkInterval] after the one before ([last] for the first). *)
Fixpoint firedWhenReady (size : Z) (last : Z) (chunks : list (list Z * Z)) : Prop :=
  match chunks with
  | [] => True
  | (chunk, t) :: rest =>
      size <= Z.of_nat (length chunk) /\ minChunkInterval <= t - last /\
      firedWhenReady size t rest
  end.

(** [w] has the events of [w0] and then only events that satisfy [Q]. *)
Definition appends (Q : Event -> Prop) (w0 w : Worker) : Prop :=
  exists es, trace w = trace w0 ++ es /\ Forall Q es.

(** Started in [w0], the call only ever records events that satisfy [Q],
    and ends in a state and completion that satisfy [P], whatever the other
    calls do to the shared state while it is suspended. *)
Inductive Emits (Q : Event -> Prop) (P : Worker -> Completion -> Prop) :
    Worker -> Step -> Prop :=
| Emits_finished w0 w c : appends Q w0 w -> P w c -> Emits Q P w0 (Finished w c)
| Emits_suspended w0 w X req k :
    appends Q w0 w -> (forall r now w', Emits Q P w' (k r now w')) ->
    Emits Q P w0 (Suspended w X req k)
| Emits_spawned w0 speaker child rest :
    Emits Q (fun _ _ => True) w0 child -> (forall w', Emits Q P w' (rest w')) ->
    Emits Q P w0 (Spawned speaker child rest).

Definition is_serviceError (e : Event) : bool :=
  match e with EvLog (LogServiceError _ _) => true | _ => false end.

(** The events from the last call of sendS2SChunk on. *)
Fixpoint lastAttempt (es : list Event) : list Event :=
  match es with
  | [] => []
  | e :: rest =>
      match lastAttempt rest with
      | [] => if is_send e then e :: rest else []
      | l => l
      end
  end.

(** The events recorded inside a call of sendS2SChunk, after the call
    itself: no other call of sendS2SChunk, no turn of a relay loop, no line
    of the loop's [catch] blocks. *)
Definition within_send (e : Event) : Prop :=
  is_send e = false /\ is_nextFrame e = false /\ is_chunkCatch e = false.

(** The events recorded by a relay loop: none from the [catch] blocks
    around its calls of sendS2SChunk. *)
Definition outside_catch (e : Event) : Prop := is_chunkCatch e = false.

(** The events recorded by recreateRouteForParticipant after the call
    itself, and by the end of a failed chunk. *)
Definition quiet (participantIdentity : string) (e : Event) : Prop :=
  is_capture e = false /\ is_recreate participantIdentity e = false /\ is_fetch e = false.

(** The call returned. *)
Definition returns : Worker -> Completion -> Prop := fun _ c => c = Normal.

(** The call returned and left no quota state that blocks a call. *)
Definition marked : Worker -> Completion -> Prop :=
  fun w c => c = Normal /\ forall t, quotaBlocks w t = false.

(** The relay loop of [speaker] ended and left the active set. *)
Definition ended (speaker : string) : Worker -> Completion -> Prop :=
  fun w c => c = Normal /\ speaker ∉ activeS2S w.

(** What a relay loop's run over the rest of its track adds to the trace:
    the chunks sent while frames arrive, then the flush of the [tail] if it
    is long enough; [size] is the chunk size in samples. *)
Definition loopRun (size : Z) (stream : Track) (buffers : list (list Z)) (lastChunkTime : Z)
    (w : Worker) (r : Result) : Prop :=
  exists (chunks : list (list Z * Z)) (tail : list Z) (t_end : Z) (es : list Event),
    trace (res_worker r) = trace w ++ es /\
    concat buffers ++ samplesOf stream = concat (map fst chunks) ++ tail /\
    firedWhenReady size lastChunkTime chunks /\
    sentChunks es =
      chunks ++ (if size <? 2 * Z.of_nat (length tail) then [(tail, t_end)] else []) /\
    count is_nextFrame es = S (length stream) /\
    res_completion r = Normal.

(* ===================================================================== *)
(** * 10. Concrete rooms                                                  *)
(* ===================================================================== *)

(** An outside world that answers the request with [status], then the body
    text [text] or the body [body], a voice lookup with [voice], and any
    other request as [done]. *)
Definition answer (status : Z) (text : string) (body : Buffer) (voice : option string)
    (done : Settled unit) : Env :=
  fun X req =>
    match req in Request X return Settled X with
    | Fetch _ _ => Fulfilled status
    | ResText => Fulfilled text
    | ResArrayBuffer => Fulfilled body
    | LookupVoice _ => Fulfilled voice
    | PublishTrack _ _ | UnpublishTrack _ | CaptureFrame _ _ | NextFrame _ => done
    end.

(** Every request succeeds; the service answers 200 with an empty body. *)
Definition fulfilled : Env := answer 200 "" [] None (Fulfilled tt).

(** The error of the native layer for [captureFrame] on a closed source. *)
Definition invalidState : JsError :=
  {| err_name := "Error"; err_code := "";
     err_message := "InvalidState - failed to capture frame" |}.

(** What [publishTrack] throws when the room refuses the track. *)
Definition publishFailed : JsError :=
  {| err_name := "Error"; err_code := ""; err_message := "engine not connected" |}.

(** A Math library for a chunk of zeros: the square root of the hardware,
    and a logarithm that answers -12, the logarithm of the one argument the
    level of such a chunk gives it, 1e-12. *)
Definition math_for_zeros : MathLibrary :=
  {| Math_sqrt := PrimFloat.sqrt; Math_log10 := fun _ => (-12)%float |}.

(** One millisecond of full-scale samples. *)
Definition loudFrame : list Z := replicate 48 (-32768).

(** [exact_level], with its answer on [loudFrame] written out. *)
Definition known_level : LevelGate :=
  fun int16 threshold =>
    if bool_decide (int16 = loudFrame) && (threshold <=? 0) then false
    else exact_level int16 threshold.

(** A worker in a connected room, with the voice [voice] assigned to
    [speaker] and the route setupRouteForParticipant made for it. *)
Definition worker_with_route (speaker voice : string) : Worker :=
  {| connected := true;
     participantVoices :=
       {[speaker := {| vi_voiceId := voice; vi_voiceName := "Custom Voice" |}]};
     routes := {[speaker := {| ref := 2; key := routeKeyOf speaker; voiceId := voice;
                               source := 0; track := 1 |}]};
     nulled := ∅; activeS2S := {[speaker]}; quotaExhausted := None; lastSuccessfulCall := 0;
     recentlyRecreated := ∅; timers := []; nextId := 3; trace := [] |}.

Definition sys_init : System := {| sys_worker := newWorker 0; sys_tasks := [] |}.

(** The request a suspended call waits for. *)
Definition pending (t : Task) : option Event :=
  match task_step t with
  | Suspended _ X req _ => Some (EvAwait X req)
  | _ => None
  end.

(** The room connects, the participants A and B join (their voices are
    looked up, their routes published), and their audio tracks are
    subscribed: A's has one frame, B's has two. *)
Definition acts_setup : list Action :=
  [ ActConnected;
    ActParticipantConnected None "A" 10;
    ActResume 0 (answer 200 "" [] (Some "v1"%string) (Fulfilled tt)) 11;
    ActResume 0 fulfilled 12;
    ActParticipantConnected None "B" 20;
    ActResume 0 (answer 200 "" [] (Some "v2"%string) (Fulfilled tt)) 21;
    ActResume 0 fulfilled 22;
    ActTrackSubscribed (Some [Some loudFrame]) true "A";
    ActTrackSubscribed (Some [Some loudFrame; Some loudFrame]) true "B" ].

(** Speaker B's chunk is refused with a quota failure at time 2000, while
    speaker A's call, sent at time 1000, is still waiting for its response. *)
Definition acts_quota_failure : list Action :=
  acts_setup ++
  [ ActResume 0 fulfilled 1000;        (* A's loop takes its frame and sends its chunk *)
    ActResume 0 fulfilled 1001;        (* B's loop takes a frame and sends its chunk *)
    ActResume 1 (answer 429 "" [] None (Fulfilled tt)) 2000;                   (* B: status 429 *)
    ActResume 1 (answer 429 "quota_exceeded" [] None (Fulfilled tt)) 2000 ].   (* B: the text *)

(** Then A's response arrives and B's loop takes its next frame. *)
Definition acts_in_flight_success : list Action :=
  acts_quota_failure ++
  [ ActResume 0 (answer 200 "" [1; 0] None (Fulfilled tt)) 2400;   (* A: status 200 *)
    ActResume 1 (answer 200 "" [1; 0] None (Fulfilled tt)) 2500;   (* A: the body *)
    ActResume 0 fulfilled 3000 ].                                  (* B's next frame *)

(** Speaker A's loop is running; the call of captureFrame for the first
    frame of its first response throws an InvalidState error (the
    synchronous throw that the handlers around the call need) and the
    route is recreated. *)
Definition acts_capture_failure : list Action :=
  [ ActConnected;
    ActParticipantConnected None "A" 10;
    ActResume 0 (answer 200 "" [] (Some "v1"%string) (Fulfilled tt)) 11;
    ActResume 0 fulfilled 12;
    ActTrackSubscribed (Some [Some loudFrame; Some loudFrame]) true "A";
    ActResume 0 fulfilled 1000;                                    (* a frame: the chunk is sent *)
    ActResume 0 fulfilled 1100;                                    (* status 200 *)
    ActResume 0 (answer 200 "" (replicate 1920 0) None (Fulfilled tt)) 1200;  (* 960 samples *)
    ActResume 0 (answer 200 "" [] None (Rejected invalidState)) 1200;  (* captureFrame throws *)
    ActResume 0 fulfilled 1300;                                    (* old track unpublished *)
    ActResume 0 fulfilled 1400 ].                                  (* new track published *)

(** Speaker A's loop is running and waits for a frame when A leaves the
    room: A is taken out of the active set and its route is unpublished. *)
Definition acts_leave : list Action :=
  [ ActConnected;
    ActParticipantConnected None "A" 10;
    ActResume 0 (answer 200 "" [] (Some "v1"%string) (Fulfilled tt)) 11;
    ActResume 0 fulfilled 12;
    ActTrackSubscribed (Some [Some loudFrame; Some loudFrame]) true "A";
    ActParticipantDisconnected "A";
    ActResume 1 fulfilled 20 ].                                    (* the track is unpublished *)

(** Then A joins again (voice looked up, route published) and its new
    audio track is subscribed. *)
Definition acts_leave_rejoin : list Action :=
  acts_leave ++
  [ ActParticipantConnected None "A" 30;
    ActResume 1 (answer 200 "" [] (Some "v1"%string) (Fulfilled tt)) 31;
    ActResume 1 fulfilled 32;
    ActTrackSubscribed (Some [Some loudFrame]) true "A" ].

(** Speaker A's loop is running and waits for a frame when the worker
    loses the room. *)
Definition acts_room_lost : list Action :=
  [ ActConnected;
    ActParticipantConnected None "A" 10;
    ActResume 0 (answer 200 "" [] (Some "v1"%string) (Fulfilled tt)) 11;
    ActResume 0 fulfilled 12;
    ActTrackSubscribed (Some [Some loudFrame; Some loudFrame]) true "A";
    ActDisconnected ].

(** Then the room is connected again and A's audio track is subscribed. *)
Definition acts_room_back : list Action :=
  acts_room_lost ++ [ ActConnected; ActTrackSubscribed (Some [Some loudFrame]) true "A" ].

(* ===================================================================== *)
(** * 11. The second WAV writer, published frames and the event loop      *)
(* ===================================================================== *)

(** [Buffer.concat(list)]. *)
Definition Buffer_concat (list : list Buffer) : Buffer := concat list.

(** [pcm16ToWav(pcmBuf, sampleRate, channels)]: the header is written into
    a buffer of its own and the PCM octets are appended. *)
Definition pcm16ToWav (pcmBuf : Buffer) (sampleRate channels : Z) : option Buffer :=
  let blockAlign := channels * 2 in
  let byteRate := sampleRate * blockAlign in
  let h := Buffer_alloc 44 in
  h ← Buffer_write h "RIFF" 0;
  h ← Buffer_writeUInt32LE h (36 + Z.of_nat (length pcmBuf)) 4;
  h ← Buffer_write h "WAVE" 8;
  h ← Buffer_write h "fmt " 12;
  h ← Buffer_writeUInt32LE h 16 16;
  h ← Buffer_writeUInt16LE h 1 20;
  h ← Buffer_writeUInt16LE h channels 22;
  h ← Buffer_writeUInt32LE h sampleRate 24;
  h ← Buffer_writeUInt32LE h byteRate 28;
  h ← Buffer_writeUInt16LE h blockAlign 32;
  h ← Buffer_writeUInt16LE h 16 34;
  h ← Buffer_write h "data" 36;
  h ← Buffer_writeUInt32LE h (Z.of_nat (length pcmBuf)) 40;
  Some (Buffer_concat [h; pcmBuf]).

(** The frames handed to [captureFrame], each with the source it was
    called on. *)
Definition capturedFrames (es : list Event) : list (nat * list Z) :=
  omap (fun e => match e with
                 | EvAwait _ (CaptureFrame source frame) => Some (source, frame)
                 | _ => None
                 end) es.

(** The events a call of sendS2SChunk records after its request to the
    service: no further request, and no other call of sendS2SChunk. *)
Definition no_request (e : Event) : Prop := is_fetch e = false /\ is_send e = false.

(** ** Calls under any interleaving *)

(** A call, seen from the shared state. Started in [w0], the call changes
    the state within [G] in every segment, whatever state it is resumed in;
    when it ends, [P] holds of the state it leaves. A relay loop it starts
    for [sp] takes the state within [Gs sp] in its first segment, which
    ends waiting for a frame, and goes on in the same way to an end where
    [Pl sp] holds. *)
Inductive Guards (G : Worker -> Worker -> Prop) (Gs : string -> Worker -> Worker -> Prop)
    (Pl : string -> Worker -> Prop) (P : Worker -> Prop) : Worker -> Step -> Prop :=
| Guards_finished w0 w c : G w0 w -> P w -> Guards G Gs Pl P w0 (Finished w c)
| Guards_suspended w0 w X req k :
    G w0 w -> (forall r now w', Guards G Gs Pl P w' (k r now w')) ->
    Guards G Gs Pl P w0 (Suspended w X req k)
| Guards_spawned w0 sp w X req k rest :
    Gs sp w0 w -> (forall r now w', Guards G Gs Pl (Pl sp) w' (k r now w')) ->
    (forall w', Guards G Gs Pl P w' (rest w')) ->
    Guards G Gs Pl P w0 (Spawned sp (Suspended w X req k) rest).

(** What holds when a task of [owner] ends. *)
Definition at_end (Pl : string -> Worker -> Prop) (owner : Owner) : Worker -> Prop :=
  match owner with RelayLoop sp => Pl sp | Handler => fun _ => True end.

(** Every suspended call of the system goes on within [G]. *)
Definition tasks_guarded (G : Worker -> Worker -> Prop) (Gs : string -> Worker -> Worker -> Prop)
    (Pl : string -> Worker -> Prop) (tasks : list Task) : Prop :=
  Forall (fun t => exists w X req k,
            task_step t = Suspended w X req k /\
            forall r now w', Guards G Gs Pl (at_end Pl (task_owner t)) w' (k r now w')) tasks.

(** The states the worker can be in: what the event loop makes of a new
    worker, for a chunk length [S2S_CHUNK_MS]. *)
Definition reachable (S2S_CHUNK_MS : Z) (sys : System) : Prop :=
  exists acts, steps S2S_CHUNK_MS acts sys_init = Some sys.

(** The active set only shrinks, except for the speaker of a loop that is
    being started. *)
Definition active_shrinks (w0 w : Worker) : Prop := activeS2S w ⊆ activeS2S w0.
Definition active_started (sp : string) (w0 w : Worker) : Prop :=
  activeS2S w ⊆ {[sp]} ∪ activeS2S w0.
Definition left_active (sp : string) (w : Worker) : Prop := sp ∉ activeS2S w.

(** A call that keeps the active set in this way. *)
Definition Tidy : (Worker -> Prop) -> Worker -> Step -> Prop :=
  Guards active_shrinks active_started left_active.

(** Nothing is asked of the state a call leaves. *)
Definition any : Worker -> Prop := fun _ => True.

(** Every speaker in the active set has a relay loop. *)
Definition active_have_loops (sys : System) : Prop :=
  forall sp, sp ∈ activeS2S (sys_worker sys) -> (0 < relayLoops sp sys)%nat.

(** A relay loop of [sp] is among the suspended calls. *)
Definition has_loop (sp : string) (tasks : list Task) : Prop :=
  exists t, t ∈ tasks /\ task_owner t = RelayLoop sp.

(** The two together, for a system: its suspended calls keep the active
    set tidy, and every active speaker has a loop among them. *)
Definition tidy_system (sys : System) : Prop :=
  tasks_guarded active_shrinks active_started left_active (sys_tasks sys) /\
  forall sp, sp ∈ activeS2S (sys_worker sys) -> has_loop sp (sys_tasks sys).

(** ** The debounce of route recreation *)

(** Whether a pending timeout is the one that takes [speaker] out of
    [recentlyRecreated]. *)
Definition clears (speaker : string) (t : Z * Timer) : bool :=
  match t.2 with
  | TimerClearRecreated sp => bool_decide (sp = speaker)
  | TimerRetryStart _ _ => false
  end.

(** Every flagged speaker has one pending timeout that clears the flag, and
    no other speaker has one. *)
Definition one_clearing_timer (pending : list (Z * Timer)) (flagged : gset string) : Prop :=
  forall speaker,
    length (List.filter (clears speaker) pending) =
      if decide (speaker ∈ flagged) then 1%nat else 0%nat.

Definition debounce_ok (w : Worker) : Prop :=
  one_clearing_timer (timers w) (recentlyRecreated w).

Definition keeps_debounce (w0 w : Worker) : Prop := debounce_ok w0 -> debounce_ok w.

Definition Debounced : (Worker -> Prop) -> Worker -> Step -> Prop :=
  Guards keeps_debounce (fun _ => keeps_debounce) (fun _ => any).

Definition debounced_system (sys : System) : Prop :=
  tasks_guarded keeps_debounce (fun _ => keeps_debounce) (fun _ => any) (sys_tasks sys) /\
  debounce_ok (sys_worker sys).

(* ===================================================================== *)
(** * Theorems                                                            *)
(* ===================================================================== *)

Example pcmToWavBuffer_two_samples :
  pcmToWavBuffer [1; -2] 48000 =
  Some [82; 73; 70; 70; 40; 0; 0; 0; 87; 65; 86; 69; 102; 109; 116; 32;
        16; 0; 0; 0; 1; 0; 1; 0; 128; 187; 0; 0; 0; 119; 1; 0; 2; 0; 16; 0;
        100; 97; 116; 97; 4; 0; 0; 0; 1; 0; 254; 255].
Proof. vm_compute. reflexivity. Qed.

Example parseWav_two_samples :
  (pcmToWavBuffer [1; -2] 48000 ≫= parseWav) = Some (pcm16_mono_header 48000 2, [1; -2]).
Proof. vm_compute. reflexivity. Qed.

(** ** Octets and little-endian fields *)

Lemma octet_div_mod v i : 0 <= i -> octet v i = (v / 2 ^ (8 * i)) mod 256.
Proof.
  intros Hi. unfold octet.
  rewrite Z.shiftr_div_pow2 by lia.
  change 255 with (Z.ones 8). rewrite Z.land_ones by lia. reflexivity.
Qed.

Lemma octet_range v i : 0 <= i -> 0 <= octet v i < 256.
Proof. intros Hi. rewrite octet_div_mod by done. apply Z.mod_pos_bound. lia. Qed.

Lemma le32_octets v :
  0 <= v <= 4294967295 -> le32 [octet v 0; octet v 1; octet v 2; octet v 3] = v.
Proof.
  intros Hv. unfold le32. rewrite !octet_div_mod by lia.
  change (2 ^ (8 * 0)) with 1. change (2 ^ (8 * 1)) with 256.
  change (2 ^ (8 * 2)) with 65536. change (2 ^ (8 * 3)) with 16777216.
  Z.div_mod_to_equations. lia.
Qed.

Lemma le16_octets v : 0 <= v <= 65535 -> le16 [octet v 0; octet v 1] = v.
Proof.
  intros Hv. unfold le16. rewrite !octet_div_mod by lia.
  change (2 ^ (8 * 0)) with 1. change (2 ^ (8 * 1)) with 256.
  Z.div_mod_to_equations. lia.
Qed.

Lemma signed16_octets s : is_int16 s -> signed16 (le16 (int16_octets s)) = s.
Proof.
  unfold is_int16, int16_octets, signed16, le16. intros Hs.
  rewrite !octet_div_mod by lia.
  change (2 ^ (8 * 0)) with 1. change (2 ^ (8 * 1)) with 256.
  destruct (Z.ltb_spec (s / 1 mod 256 + 256 * (s / 256 mod 256)) 32768);
    Z.div_mod_to_equations; lia.
Qed.

Lemma read_samples_octets int16 :
  Forall is_int16 int16 -> read_samples (Int16Array_octets int16) = Some int16.
Proof.
  induction 1 as [|s l Hs _ IH]; [reflexivity|].
  unfold Int16Array_octets in *. cbn [flat_map int16_octets app read_samples].
  rewrite IH. cbn [mbind option_bind].
  change [octet s 0; octet s 1] with (int16_octets s).
  by rewrite signed16_octets.
Qed.

Lemma Int16Array_octets_length int16 :
  length (Int16Array_octets int16) = (length int16 * 2)%nat.
Proof.
  unfold Int16Array_octets. induction int16 as [|s l IH]; [reflexivity|].
  cbn [flat_map int16_octets app length]. rewrite IH. lia.
Qed.

(** ** Writes into the header leave the rest of the buffer alone *)

Lemma Buffer_splice_app_l (h r bytes : list Z) (o : nat) :
  (o + length bytes <= length h)%nat ->
  Buffer_splice (h ++ r) bytes o = Buffer_splice h bytes o ++ r.
Proof.
  intros Hle. unfold Buffer_splice.
  rewrite length_app, take_app_le, drop_app_le by lia.
  rewrite !(take_ge bytes) by lia. by rewrite <- !app_assoc.
Qed.

Lemma Buffer_splice_tail (h r src : list Z) :
  length r = length src -> Buffer_splice (h ++ r) src (length h) = h ++ src.
Proof.
  intros Hlen. unfold Buffer_splice.
  rewrite length_app, take_app_length.
  rewrite take_ge by lia. rewrite drop_ge by (rewrite length_app; lia).
  by rewrite app_nil_r.
Qed.

Lemma Buffer_write_app (h r : list Z) s (o : nat) :
  (o + length (ascii_octets s) <= length h)%nat ->
  Buffer_write (h ++ r) s o = Some (Buffer_splice h (ascii_octets s) o ++ r).
Proof.
  intros Hle. unfold Buffer_write.
  destruct (Nat.leb_spec o (length (h ++ r))) as [_|Hlt].
  - by rewrite Buffer_splice_app_l.
  - rewrite length_app in Hlt. lia.
Qed.

Lemma Buffer_writeUInt32LE_app (h r : list Z) v (o : nat) :
  0 <= v <= 4294967295 -> (o + 4 <= length h)%nat ->
  Buffer_writeUInt32LE (h ++ r) v o =
  Some (Buffer_splice h [octet v 0; octet v 1; octet v 2; octet v 3] o ++ r).
Proof.
  intros Hv Hle. unfold Buffer_writeUInt32LE.
  destruct (Z.leb_spec 0 v); [|lia]. destruct (Z.leb_spec v 4294967295); [|lia].
  destruct (Nat.leb_spec (o + 4) (length (h ++ r))) as [_|Hlt].
  - cbn [andb]. by rewrite Buffer_splice_app_l.
  - rewrite length_app in Hlt. lia.
Qed.

Lemma Buffer_writeUInt16LE_app (h r : list Z) v (o : nat) :
  0 <= v <= 65535 -> (o + 2 <= length h)%nat ->
  Buffer_writeUInt16LE (h ++ r) v o =
  Some (Buffer_splice h [octet v 0; octet v 1] o ++ r).
Proof.
  intros Hv Hle. unfold Buffer_writeUInt16LE.
  destruct (Z.leb_spec 0 v); [|lia]. destruct (Z.leb_spec v 65535); [|lia].
  destruct (Nat.leb_spec (o + 2) (length (h ++ r))) as [_|Hlt].
  - cbn [andb]. by rewrite Buffer_splice_app_l.
  - rewrite length_app in Hlt. lia.
Qed.

Local Ltac ascii_literals :=
  try change (ascii_octets "RIFF") with [82; 73; 70; 70];
  try change (ascii_octets "WAVE") with [87; 65; 86; 69];
  try change (ascii_octets "fmt ") with [102; 109; 116; 32];
  try change (ascii_octets "data") with [100; 97; 116; 97].

Local Ltac wav_step :=
  first [ rewrite Buffer_write_app by (ascii_literals; cbn [length]; lia)
        | rewrite Buffer_writeUInt32LE_app by (cbn [length]; lia)
        | rewrite Buffer_writeUInt16LE_app by (cbn [length]; lia) ];
  cbn [mbind option_bind]; ascii_literals;
  match goal with
  | |- context [Buffer_splice ?h ?b ?o ++ ?r] =>
      let h' := eval cbv [Buffer_splice length take drop app Nat.sub Nat.add]
                in (Buffer_splice h b o) in
      change (Buffer_splice h b o) with h'
  end.

Lemma pcmToWavBuffer_octets int16 sampleRate :
  0 <= sampleRate -> sampleRate * 2 <= 4294967295 ->
  36 + Z.of_nat (length int16 * 2) <= 4294967295 ->
  pcmToWavBuffer int16 sampleRate =
  Some (wav_header_octets sampleRate (length int16) ++ Int16Array_octets int16).
Proof.
  intros Hsr Hbr Hsz. unfold pcmToWavBuffer, Buffer_alloc, Buffer_copy.
  replace (sampleRate * 1 * 16 / 8) with (sampleRate * 2)
    by (Z.div_mod_to_equations; lia).
  change (1 * 16 / 8) with 2.
  set (n2 := (length int16 * 2)%nat) in *.
  rewrite replicate_add.
  set (r := replicate n2 0).
  cbn [replicate].
  do 13 wav_step.
  match goal with
  | |- Some (Buffer_splice (?h ++ r) _ _) = _ =>
      change 44%nat with (length h); rewrite Buffer_splice_tail
  end.
  - reflexivity.
  - subst r. by rewrite length_replicate, Int16Array_octets_length.
Qed.

(** C9. For every Int16 PCM input and every sample rate whose header fields
    fit their unsigned 32-bit slots, [pcmToWavBuffer] returns a buffer that
    is byte-correct RIFF/WAVE: 44 header octets with the tags RIFF, WAVE,
    fmt and data, format code 1 (PCM), one channel, the declared sample
    rate, 16 bits per sample, the matching byte rate, block align and data
    size, followed by exactly the input samples, low octet first. A strict
    reader of the layout gets the header and the samples back. *)
Theorem pcmToWavBuffer_riff_layout (int16 : list Z) (sampleRate : Z) :
  Forall is_int16 int16 ->
  0 <= sampleRate -> sampleRate * 2 <= 4294967295 ->
  36 + 2 * Z.of_nat (length int16) <= 4294967295 ->
  exists wav,
    pcmToWavBuffer int16 sampleRate = Some wav /\
    length wav = (44 + 2 * length int16)%nat /\
    take 44 wav = wav_header_octets sampleRate (length int16) /\
    drop 44 wav = flat_map (fun s => [s mod 256; s / 256 mod 256]) int16 /\
    parseWav wav = Some (pcm16_mono_header sampleRate (length int16), int16).
Proof.
  intros Hint Hsr Hbr Hsz.
  exists (wav_header_octets sampleRate (length int16) ++ Int16Array_octets int16).
  assert (Hlen : length (wav_header_octets sampleRate (length int16)) = 44%nat)
    by reflexivity.
  split; [apply pcmToWavBuffer_octets; lia|].
  split; [rewrite length_app, Hlen, Int16Array_octets_length; lia|].
  split; [rewrite <- Hlen at 1; apply take_app_length|].
  split.
  { rewrite <- Hlen at 1. rewrite drop_app_length. unfold Int16Array_octets.
    clear. induction int16 as [|s l IH]; [reflexivity|].
    cbn [flat_map app]. rewrite <- IH. unfold int16_octets.
    rewrite !octet_div_mod by lia.
    change (2 ^ (8 * 0)) with 1. change (2 ^ (8 * 1)) with 256.
    by rewrite Z.div_1_r. }
  unfold parseWav. rewrite decide_True.
  - rewrite <- Hlen at 1. rewrite drop_app_length, read_samples_octets by done.
    cbn [mbind option_bind]. do 2 f_equal.
    unfold pcm16_mono_header, wav_header_octets, field.
    cbn [ascii_octets list_ascii_of_string map app take drop].
    rewrite take_0, !le32_octets, !le16_octets by lia.
    change (16 / 8) with 2. f_equal; lia.
  - repeat split; try reflexivity.
    rewrite length_app, Hlen. lia.
Qed.

Lemma pcmToWavBuffer_riff_layout_witness :
  Forall is_int16 [1; -2] /\
  exists wav, pcmToWavBuffer [1; -2] 48000 = Some wav /\ length wav = 48%nat.
Proof.
  assert (H : Forall is_int16 [1; -2]) by (repeat constructor; unfold is_int16; lia).
  split; [exact H|].
  destruct (pcmToWavBuffer_riff_layout [1; -2] 48000 H) as (wav & Hwav & Hlen & _);
    [lia|lia|cbn [length]; lia|].
  exists wav. split; [exact Hwav|exact Hlen].
Defined.

(** The bounds on the sample rate and on the size are exactly the inputs on
    which the function returns: outside them a header write throws. *)
Lemma pcmToWavBuffer_returns_iff (int16 : list Z) (sampleRate : Z) :
  is_Some (pcmToWavBuffer int16 sampleRate) <->
  0 <= sampleRate /\ sampleRate * 2 <= 4294967295 /\
  36 + 2 * Z.of_nat (length int16) <= 4294967295.
Proof.
  split.
  - intros [wav Hwav]. unfold pcmToWavBuffer in Hwav.
    repeat match type of Hwav with
    | (?m ≫= _) = Some _ =>
        let E := fresh "E" in
        destruct m eqn:E; cbn [mbind option_bind] in Hwav; [|discriminate]
    end.
    unfold Buffer_writeUInt32LE in *.
    repeat match goal with
    | H : (if ?c then _ else _) = Some _ |- _ =>
        let C := fresh "C" in destruct c eqn:C; [clear H|discriminate H]
    end.
    repeat match goal with
    | H : _ && _ = true |- _ => apply andb_prop in H; destruct H
    | H : (_ <=? _) = true |- _ => apply Z.leb_le in H
    end.
    repeat split; try lia.
    all: Z.div_mod_to_equations; lia.
  - intros (Hsr & Hbr & Hsz). rewrite pcmToWavBuffer_octets by lia. eauto.
Qed.

(** ** Traces only grow *)

Lemma appends_refl Q w : appends Q w w.
Proof. exists []. by rewrite app_nil_r. Qed.

Lemma appends_trans Q w0 w1 w2 : appends Q w0 w1 -> appends Q w1 w2 -> appends Q w0 w2.
Proof.
  intros (es1 & H1 & F1) (es2 & H2 & F2). exists (es1 ++ es2).
  rewrite H2, H1, <- app_assoc. split; [done|]. by apply Forall_app.
Qed.

Lemma appends_same_trace Q w0 w w' : trace w' = trace w -> appends Q w0 w -> appends Q w0 w'.
Proof. intros E (es & H & F). exists es. by rewrite E. Qed.

Lemma appends_emit (Q : Event -> Prop) w0 w e : Q e -> appends Q w0 w -> appends Q w0 (emit e w).
Proof.
  intros Hq (es & H & F). exists (es ++ [e]). cbn. rewrite H, <- app_assoc.
  split; [done|]. apply Forall_app. split; [done|]. by constructor.
Qed.

Lemma appends_impl (Q Q' : Event -> Prop) w0 w :
  (forall e, Q e -> Q' e) -> appends Q w0 w -> appends Q' w0 w.
Proof. intros HQ (es & H & F). exists es. split; [done|]. eapply Forall_impl; eauto. Qed.

Lemma appends_events_since Q w0 w : appends Q w0 w -> Forall Q (events_since w0 w).
Proof.
  intros (es & H & F). unfold events_since. by rewrite H, drop_app_length.
Qed.

Ltac appends_step :=
  lazymatch goal with
  | |- appends _ ?w ?w => apply appends_refl
  | |- appends _ _ (emit _ _) => apply appends_emit; [try done|]
  | |- appends _ _ (log _ _) => apply appends_emit; [try done|]
  | |- appends _ _ (set_connected _ ?w) => apply (appends_same_trace _ _ w); [reflexivity|]
  | |- appends _ _ (set_participantVoices _ ?w) => apply (appends_same_trace _ _ w); [reflexivity|]
  | |- appends _ _ (set_routes _ ?w) => apply (appends_same_trace _ _ w); [reflexivity|]
  | |- appends _ _ (set_nulled _ ?w) => apply (appends_same_trace _ _ w); [reflexivity|]
  | |- appends _ _ (set_activeS2S _ ?w) => apply (appends_same_trace _ _ w); [reflexivity|]
  | |- appends _ _ (set_quotaExhausted _ ?w) => apply (appends_same_trace _ _ w); [reflexivity|]
  | |- appends _ _ (set_lastSuccessfulCall _ ?w) => apply (appends_same_trace _ _ w); [reflexivity|]
  | |- appends _ _ (set_recentlyRecreated _ ?w) => apply (appends_same_trace _ _ w); [reflexivity|]
  | |- appends _ _ (set_timers _ ?w) => apply (appends_same_trace _ _ w); [reflexivity|]
  | |- appends _ _ (set_nextId _ ?w) => apply (appends_same_trace _ _ w); [reflexivity|]
  | |- appends _ _ (if _ then _ else _) => case_match
  | |- appends _ _ (match _ with _ => _ end) => case_match
  end.

Ltac solve_appends := repeat appends_step.

(** ** Composition *)

Lemma Emits_appends_l Q P w0 w1 s : appends Q w0 w1 -> Emits Q P w1 s -> Emits Q P w0 s.
Proof.
  intros H E. revert w0 H.
  induction E as [P w1 w c Ha Hp|P w1 w X req k Ha Hk IH|P w1 sp child rest Hc IHc Hr IHr];
    intros w0 H0.
  - constructor; [by eapply appends_trans|done].
  - constructor; [by eapply appends_trans|done].
  - constructor; [by apply IHc|done].
Qed.

Lemma Emits_impl (Q Q' : Event -> Prop) (P P' : Worker -> Completion -> Prop) w0 s :
  (forall e, Q e -> Q' e) -> (forall w c, P w c -> P' w c) ->
  Emits Q P w0 s -> Emits Q' P' w0 s.
Proof.
  intros HQ HP E. revert P' HP.
  induction E as [P w1 w c Ha Hp|P w1 w X req k Ha Hk IH|P w1 sp child rest Hc IHc Hr IHr];
    intros P' HP.
  - constructor; [by eapply appends_impl|by apply HP].
  - constructor; [by eapply appends_impl|]. intros. by apply IH.
  - constructor; [by apply IHc|]. intros. by apply IHr.
Qed.

Lemma Emits_bind Q (P1 P2 : Worker -> Completion -> Prop) w0 s now f :
  Emits Q P1 w0 s ->
  (forall now' w c, P1 w c -> Emits Q P2 w (f now' w c)) ->
  Emits Q P2 w0 (bindStep s now f).
Proof.
  intros E. revert now P2 f.
  induction E as [P w1 w c Ha Hp|P w1 w X req k Ha Hk IH|P w1 sp child rest Hc IHc Hr IHr];
    intros now0 P2 f Hf; cbn [bindStep].
  - eapply Emits_appends_l; [done|]. by apply Hf.
  - constructor; [done|]. intros. by apply IH.
  - constructor; [done|]. intros. by apply IHr.
Qed.

Lemma Emits_await Q (P : Worker -> Completion -> Prop) w0 w X (req : Request X) k :
  Q (EvAwait X req) -> appends Q w0 w ->
  (forall r now w', Emits Q P w' (k r now w')) ->
  Emits Q P w0 (await req w k).
Proof. intros Hq Ha Hk. constructor; [by apply appends_emit|done]. Qed.

Lemma Emits_Outcomes Q P w0 s : Emits Q P w0 s -> Outcomes P s.
Proof. induction 1; constructor; auto. Qed.

Lemma first_worker_appends Q P w0 s : Emits Q P w0 s -> appends Q w0 (first_worker s).
Proof.
  induction 1 as [P w1 w c Ha Hp|P w1 w X req k Ha Hk IH|P w1 sp child rest Hc IHc Hr IHr];
    cbn [first_worker]; try done.
  eapply appends_trans; [exact IHc|]. apply IHr.
Qed.

Lemma exec_Emits Q P w0 s env clock i now :
  Emits Q P w0 s ->
  let r := exec env clock i now s in
  appends Q w0 (res_worker r) /\ P (res_worker r) (res_completion r).
Proof.
  intros E. revert i now.
  induction E as [P w1 w c Ha Hp|P w1 w X req k Ha Hk IH|P w1 sp child rest Hc IHc Hr IHr];
    intros i now0; cbn [exec].
  - done.
  - destruct (IH (env i X req) (clock i) w (S i) (clock i)) as [Ha' Hp].
    split; [by eapply appends_trans|done].
  - destruct (IHr (first_worker child) i now0) as [Ha Hp].
    split; [|done]. eapply appends_trans; [|exact Ha].
    by eapply first_worker_appends.
Qed.

Lemma exec_bind env clock i now s f :
  exec env clock i now (bindStep s now f) =
  let r := exec env clock i now s in
  exec env clock (res_awaits r) (res_now r)
       (f (res_now r) (res_worker r) (res_completion r)).
Proof.
  revert i now. induction s as [w c|w X req k IH|sp child _ rest IH]; intros i now; cbn.
  - done.
  - apply IH.
  - apply IH.
Qed.

(** ** What sendS2SChunk and the functions it calls record, and how they end *)

Ltac emits_step :=
  lazymatch goal with
  | |- Emits _ _ _ (Finished _ _) => constructor; [solve_appends|try done]
  | |- Emits _ _ _ (await _ _ _) =>
      apply Emits_await; [try done|solve_appends|intros ? ? ?]
  | |- Emits _ _ _ (if _ then _ else _) => case_match
  | |- Emits _ _ _ (match _ with _ => _ end) => case_match
  | |- Emits _ _ _ (let _ := _ in _) => cbv zeta
  end.

Lemma recreateRoute_create_Emits participantIdentity voiceInfo w :
  Emits within_send returns w (recreateRoute_create participantIdentity voiceInfo w).
Proof. unfold recreateRoute_create. repeat emits_step. Qed.

Lemma recreateRouteForParticipant_Emits participantIdentity w :
  Emits within_send returns w (recreateRouteForParticipant participantIdentity w).
Proof.
  unfold recreateRouteForParticipant. cbv zeta.
  repeat emits_step; try apply recreateRoute_create_Emits.
  all: eapply Emits_appends_l; [|apply recreateRoute_create_Emits]; solve_appends.
Qed.

Lemma sendS2SChunk_catch_Emits speakerIdentity e w :
  Emits within_send returns w (sendS2SChunk_catch speakerIdentity e w).
Proof. unfold sendS2SChunk_catch. repeat emits_step. Qed.

Lemma sendS2SChunk_mark_Emits speakerIdentity samples framesPublished now w :
  Emits within_send returns w (sendS2SChunk_mark speakerIdentity samples framesPublished now w).
Proof. unfold sendS2SChunk_mark. repeat emits_step. Qed.

Lemma sendS2SChunk_frameError_Emits speakerIdentity samples framesPublished e now w :
  Emits within_send returns w
        (sendS2SChunk_frameError speakerIdentity samples framesPublished e now w).
Proof.
  unfold sendS2SChunk_frameError. cbv zeta.
  eapply Emits_appends_l; [|apply sendS2SChunk_mark_Emits]. solve_appends.
Qed.

Lemma sendS2SChunk_captureError_Emits speakerIdentity samples framesPublished e now w :
  Emits within_send returns w
        (sendS2SChunk_captureError speakerIdentity samples framesPublished e now w).
Proof.
  unfold sendS2SChunk_captureError. cbv zeta. repeat case_match.
  - apply sendS2SChunk_frameError_Emits.
  - eapply Emits_bind.
    + eapply Emits_appends_l; [|apply recreateRouteForParticipant_Emits]. solve_appends.
    + intros now' w' c _. destruct c; apply sendS2SChunk_frameError_Emits.
  - eapply Emits_appends_l; [|apply sendS2SChunk_frameError_Emits]. solve_appends.
Qed.

Lemma publishFrames_Emits speakerIdentity route samples slices framesPublished now w :
  Emits within_send returns w
        (publishFrames speakerIdentity route samples slices framesPublished now w).
Proof.
  revert framesPublished now w.
  induction slices as [|slice rest IH]; intros framesPublished now w; cbn [publishFrames].
  - apply sendS2SChunk_mark_Emits.
  - repeat case_match;
      try (eapply Emits_appends_l; [|apply sendS2SChunk_mark_Emits]; solve_appends).
    apply Emits_await; [done|solve_appends|]. intros [[]|e] now' w'.
    + apply IH.
    + apply sendS2SChunk_captureError_Emits.
Qed.

Lemma sendS2SChunk_body_Emits speakerIdentity route res now w :
  Emits within_send returns w (sendS2SChunk_body speakerIdentity route res now w).
Proof.
  unfold sendS2SChunk_body. repeat case_match; try (repeat emits_step; fail).
  - apply publishFrames_Emits.
  - apply sendS2SChunk_catch_Emits.
Qed.

Lemma sendS2SChunk_errorText_Emits status res now w :
  Emits within_send returns w (sendS2SChunk_errorText status res now w).
Proof. unfold sendS2SChunk_errorText. repeat emits_step. Qed.

Lemma sendS2SChunk_response_Emits speakerIdentity route res now w :
  Emits within_send returns w (sendS2SChunk_response speakerIdentity route res now w).
Proof.
  unfold sendS2SChunk_response. repeat case_match.
  - apply Emits_await; [done|solve_appends|]. intros. apply sendS2SChunk_errorText_Emits.
  - apply Emits_await; [done|solve_appends|]. intros. apply sendS2SChunk_body_Emits.
  - apply sendS2SChunk_catch_Emits.
Qed.

Lemma sendS2SChunk_Emits {gate : LevelGate} speakerIdentity int16 now w :
  Emits within_send returns (emit (EvSendS2SChunk speakerIdentity int16 now) w)
        (sendS2SChunk speakerIdentity int16 now w).
Proof.
  unfold sendS2SChunk. cbv zeta. repeat case_match; try (repeat emits_step; fail).
  - apply Emits_await; [done|solve_appends|]. intros. apply sendS2SChunk_response_Emits.
  - eapply Emits_appends_l; [|apply sendS2SChunk_catch_Emits]. solve_appends.
Qed.

(** ** Merging the buffered frames *)

Lemma mergeInto_concat (buffers : list (list Z)) (merged : list Z) (o : nat) :
  (o + length (concat buffers) <= length merged)%nat ->
  mergeInto merged o buffers =
  Some (take o merged ++ concat buffers ++ drop (o + length (concat buffers)) merged).
Proof.
  revert merged o. induction buffers as [|b rest IH]; intros merged o Hle; cbn [mergeInto concat].
  - cbn [length app]. rewrite Nat.add_0_r. by rewrite take_drop.
  - cbn [concat] in Hle. rewrite length_app in Hle.
    unfold Int16Array_set. destruct (Nat.leb_spec (o + length b) (length merged)); [|lia].
    cbn [mbind option_bind].
    assert (Hp : length (take o merged ++ b) = (o + length b)%nat)
      by (rewrite length_app, length_take; lia).
    rewrite IH by (rewrite !length_app, length_take, length_drop; lia).
    rewrite (app_assoc (take o merged) b).
    rewrite (take_app_length' _ _ _ (eq_sym Hp)).
    rewrite (drop_app_add' _ _ _ _ (eq_sym Hp)).
    rewrite drop_drop, length_app, <- !app_assoc.
    by rewrite Nat.add_assoc.
Qed.

Lemma mergeBuffers_concat (buffers : list (list Z)) (totalSamples : nat) :
  totalSamples = length (concat buffers) ->
  mergeBuffers totalSamples buffers = Some (concat buffers).
Proof.
  intros ->. unfold mergeBuffers. rewrite mergeInto_concat by (rewrite length_replicate; lia).
  rewrite take_0, drop_ge by (rewrite length_replicate; lia).
  by rewrite app_nil_r.
Qed.

(** ** Reading a trace piece by piece *)

Lemma sentChunks_app es1 es2 : sentChunks (es1 ++ es2) = sentChunks es1 ++ sentChunks es2.
Proof. unfold sentChunks. apply omap_app. Qed.

Lemma count_app p es1 es2 : count p (es1 ++ es2) = (count p es1 + count p es2)%nat.
Proof. unfold count. by rewrite List.filter_app, length_app. Qed.

Lemma sentChunks_within_send es : Forall within_send es -> sentChunks es = [].
Proof.
  induction 1 as [|e es [Hs _] _ IH]; [done|].
  unfold sentChunks in *. cbn [omap list_omap]. rewrite IH. by destruct e.
Qed.

Lemma count_nextFrame_within_send es : Forall within_send es -> count is_nextFrame es = 0%nat.
Proof.
  induction 1 as [|e es (_ & Hn & _) _ IH]; [done|].
  unfold count in *. cbn [List.filter]. by rewrite Hn.
Qed.

(** One call of sendS2SChunk, run to its end: it returns, and it records
    itself and then nothing the loop counts. *)
Lemma exec_sendS2SChunk {gate : LevelGate} env clock i now speaker int16 w :
  let r := exec env clock i now (sendS2SChunk speaker int16 now w) in
  res_completion r = Normal /\
  exists es, trace (res_worker r) = trace w ++ EvSendS2SChunk speaker int16 now :: es /\
             Forall within_send es.
Proof.
  destruct (exec_Emits _ _ _ _ env clock i now (sendS2SChunk_Emits speaker int16 now w))
    as [(es & Ht & Hes) Hc].
  split; [exact Hc|]. exists es. split; [|done].
  rewrite Ht. cbn. by rewrite <- app_assoc.
Qed.

(** ** The relay loop, run alone over a whole track *)

Section RelayLoop.

Context {gate : LevelGate}.
Variable S2S_CHUNK_MS : Z.
Variable speaker : string.
Variable env : nat -> Env.
Variable clock : nat -> Z.
Hypothesis stream_never_fails : forall j, env j unit (NextFrame speaker) = Fulfilled tt.

Lemma exec_stream_flush buffers totalSamples i now w :
  totalSamples = length (concat buffers) ->
  let r := exec env clock i now (stream_flush S2S_CHUNK_MS speaker buffers totalSamples now w) in
  exists es,
    trace (res_worker r) = trace w ++ es /\
    sentChunks es =
      (if samplesPerChunk S2S_CHUNK_MS <? 2 * Z.of_nat totalSamples then [(concat buffers, now)] else []) /\
    count is_nextFrame es = 0%nat /\
    res_completion r = Normal.
Proof.
  intros Htot. unfold stream_flush. destruct ((samplesPerChunk S2S_CHUNK_MS) <? 2 * Z.of_nat totalSamples).
  - rewrite mergeBuffers_concat by done. cbv zeta. rewrite exec_bind. cbv zeta.
    destruct (exec_sendS2SChunk env clock i now speaker (concat buffers) w)
      as (Hc & es & Ht & Hes).
    rewrite Hc. cbn.
    exists (EvSendS2SChunk speaker (concat buffers) now :: es ++ [EvLog (LogStreamEnded speaker)]).
    split; [by rewrite Ht, <- app_assoc|].
    split.
    { change (?a :: ?l ++ ?m) with ([a] ++ l ++ m).
      rewrite !sentChunks_app, (sentChunks_within_send es) by done. done. }
    split; [|done].
    change (?a :: ?l ++ ?m) with ([a] ++ l ++ m).
    by rewrite !count_app, (count_nextFrame_within_send es).
  - cbn. exists [EvLog (LogStreamEnded speaker)]. done.
Qed.

Lemma exec_streamLoop stream : forall buffers totalSamples lastChunkTime w i now,
  totalSamples = length (concat buffers) ->
  loopRun (samplesPerChunk S2S_CHUNK_MS) stream buffers lastChunkTime w
    (exec env clock i now
       (streamLoop S2S_CHUNK_MS speaker stream buffers totalSamples lastChunkTime w)).
Proof.
  induction stream as [|frame stream IH]; intros buffers totalSamples lastChunkTime w i now Htot.
  - cbn [streamLoop]. unfold await. cbn [exec]. rewrite stream_never_fails.
    destruct (exec_stream_flush buffers totalSamples (S i) (clock i)
                (emit (EvAwait unit (NextFrame speaker)) w) Htot)
      as (es & Ht & Hs & Hn & Hc).
    exists [], (concat buffers), (clock i), (EvAwait unit (NextFrame speaker) :: es).
    split; [rewrite Ht; cbn; by rewrite <- app_assoc|].
    split; [by rewrite app_nil_r|]. split; [done|].
    split; [|split; [|done]].
    + change (?a :: ?l) with ([a] ++ l). rewrite sentChunks_app, Hs.
      cbn [app]. by rewrite Htot.
    + change (?a :: ?l) with ([a] ++ l). by rewrite count_app, Hn.
  - cbn [streamLoop]. unfold await. cbn [exec]. rewrite stream_never_fails.
    set (w1 := emit (EvAwait unit (NextFrame speaker)) w).
    assert (Hskip : forall frame',
      concat (omap (fun f => f) [frame']) = [] ->
      loopRun (samplesPerChunk S2S_CHUNK_MS) (frame' :: stream) buffers lastChunkTime w
        (exec env clock (S i) (clock i)
           (streamLoop S2S_CHUNK_MS speaker stream buffers totalSamples lastChunkTime w1))).
    { intros frame' Hempty.
      destruct (IH buffers totalSamples lastChunkTime w1 (S i) (clock i) Htot)
        as (chunks & tail & t_end & es & Ht & Hsamples & Hfired & Hs & Hn & Hc).
      exists chunks, tail, t_end, (EvAwait unit (NextFrame speaker) :: es).
      split; [rewrite Ht; cbn; by rewrite <- app_assoc|].
      split.
      { rewrite <- Hsamples. f_equal. unfold samplesOf.
        change (frame' :: stream) with ([frame'] ++ stream).
        by rewrite omap_app, concat_app, Hempty. }
      split; [done|]. split; [|split; [|done]].
      + change (?a :: ?l) with ([a] ++ l). by rewrite sentChunks_app, Hs.
      + change (?a :: ?l) with ([a] ++ l). rewrite count_app, Hn. done. }
    destruct frame as [[|s src]|]; [by apply Hskip| |by apply Hskip].
    set (src' := s :: src) in *.
    cbv zeta.
    assert (Htot' : (totalSamples + length src')%nat = length (concat (buffers ++ [src']))).
    { rewrite concat_app, length_app. cbn [concat]. rewrite app_nil_r. lia. }
    assert (Hsamples' : forall rest : list Z,
      concat buffers ++ samplesOf (Some src' :: stream) =
      concat (buffers ++ [src']) ++ samplesOf stream).
    { intros _. unfold samplesOf. cbn [omap list_omap concat].
      rewrite concat_app. cbn [concat]. by rewrite app_nil_r, <- app_assoc. }
    destruct (((samplesPerChunk S2S_CHUNK_MS) <=? Z.of_nat (totalSamples + length src')) &&
              (minChunkInterval <=? clock i - lastChunkTime)) eqn:Hfire.
    + apply andb_prop in Hfire as [Hsize Hgap].
      apply Z.leb_le in Hsize, Hgap.
      rewrite mergeBuffers_concat by done. rewrite exec_bind. cbv zeta.
      destruct (exec_sendS2SChunk env clock (S i) (clock i) speaker
                  (concat (buffers ++ [src'])) w1) as (Hc1 & es1 & Ht1 & Hes1).
      rewrite Hc1.
      destruct (IH [] 0%nat (clock i)
                  (res_worker (exec env clock (S i) (clock i)
                     (sendS2SChunk speaker (concat (buffers ++ [src'])) (clock i) w1)))
                  (res_awaits (exec env clock (S i) (clock i)
                     (sendS2SChunk speaker (concat (buffers ++ [src'])) (clock i) w1)))
                  (res_now (exec env clock (S i) (clock i)
                     (sendS2SChunk speaker (concat (buffers ++ [src'])) (clock i) w1)))
                  eq_refl)
        as (chunks & tail & t_end & es & Ht & Hsamples & Hfired & Hs & Hn & Hc).
      exists ((concat (buffers ++ [src']), clock i) :: chunks), tail, t_end,
        (EvAwait unit (NextFrame speaker) ::
           EvSendS2SChunk speaker (concat (buffers ++ [src'])) (clock i) :: es1 ++ es).
      split.
      { rewrite Ht, Ht1. subst w1. cbn. rewrite <- !app_assoc. done. }
      split.
      { rewrite (Hsamples' []). cbn [map fst concat]. rewrite <- app_assoc.
        f_equal. exact Hsamples. }
      split.
      { cbn [firedWhenReady]. rewrite <- Htot'. done. }
      split; [|split; [|done]].
      * change (?a :: ?b :: ?l ++ ?m) with ([a] ++ [b] ++ l ++ m).
        rewrite !sentChunks_app, (sentChunks_within_send es1), Hs by done. done.
      * change (?a :: ?b :: ?l ++ ?m) with ([a] ++ [b] ++ l ++ m).
        rewrite !count_app, (count_nextFrame_within_send es1), Hn by done. done.
    + destruct (IH (buffers ++ [src']) (totalSamples + length src')%nat lastChunkTime w1
                  (S i) (clock i) Htot')
        as (chunks & tail & t_end & es & Ht & Hsamples & Hfired & Hs & Hn & Hc).
      exists chunks, tail, t_end, (EvAwait unit (NextFrame speaker) :: es).
      split; [rewrite Ht; cbn; by rewrite <- app_assoc|].
      split; [by rewrite (Hsamples' [])|].
      split; [done|]. split; [|split; [|done]].
      * change (?a :: ?l) with ([a] ++ l). by rewrite sentChunks_app, Hs.
      * change (?a :: ?l) with ([a] ++ l). rewrite count_app, Hn. done.
Qed.

End RelayLoop.

(** ** The silence gate on two kinds of chunk *)

Lemma Rltb_true (a b : R) : (a < b)%R -> Rltb a b = true.
Proof. intros H. unfold Rltb. by destruct (Rlt_dec a b). Qed.

Lemma Rltb_false (a b : R) : ~ (a < b)%R -> Rltb a b = false.
Proof. intros H. unfold Rltb. by destruct (Rlt_dec a b). Qed.

Lemma sum_squares_replicate (v : Z) (n : nat) (acc : R) :
  fold_left (fun (sum : R) (v : Z) => let s := (IZR v / 32768)%R in (sum + s * s)%R)
            (replicate n v) acc =
  (acc + INR n * ((IZR v / 32768) * (IZR v / 32768)))%R.
Proof.
  revert acc. induction n as [|n IH]; intros acc.
  - cbn. lra.
  - cbn [replicate fold_left]. rewrite IH, S_INR. cbv zeta. lra.
Qed.

Lemma ln10_pos : (0 < ln 10)%R.
Proof. rewrite <- ln_1. apply ln_increasing; lra. Qed.

(** A chunk of full-scale samples is at 0 dBFS or above: not silence. *)
Lemma rmsDbFS_full_scale (n : nat) : (0 <= rmsDbFS (replicate (S n) (-32768)%Z))%R.
Proof.
  unfold rmsDbFS. change (replicate (S n) (-32768)) with (-32768 :: replicate n (-32768)) at 1.
  cbv zeta. rewrite sum_squares_replicate, length_replicate.
  assert (Hn : (0 < INR (S n))%R) by (apply lt_0_INR; lia).
  replace ((0 + INR (S n) * (-32768 / 32768 * (-32768 / 32768))) / INR (S n))%R with 1%R
    by (field; lra).
  rewrite sqrt_1.
  eapply Rle_trans; [|apply Rmax_r].
  assert (0 < ln (1 + 1e-12))%R by (rewrite <- ln_1 at 1; apply ln_increasing; lra).
  pose proof ln10_pos.
  apply Rmult_le_pos; [lra|]. apply Rlt_le, Rdiv_lt_0_compat; lra.
Qed.

Lemma full_scale_not_below (n : nat) (threshold : Z) :
  threshold <= 0 -> levelBelow (replicate (S n) (-32768)) threshold = false.
Proof.
  intros Ht. apply Rltb_false. pose proof (rmsDbFS_full_scale n).
  apply IZR_le in Ht. lra.
Qed.

(** A chunk of zeros is below the threshold. *)
Lemma rmsDbFS_zeros (n : nat) : (rmsDbFS (replicate n 0%Z) < IZR SILENCE_DB)%R.
Proof.
  unfold SILENCE_DB. destruct n as [|n]; [cbn; lra|].
  unfold rmsDbFS. change (replicate (S n) 0) with (0 :: replicate n 0) at 1.
  cbv zeta. rewrite sum_squares_replicate, length_replicate.
  assert (Hn : (0 < INR (S n))%R) by (apply lt_0_INR; lia).
  replace ((0 + INR (S n) * (0 / 32768 * (0 / 32768))) / INR (S n))%R with 0%R
    by (field; lra).
  rewrite sqrt_0, Rplus_0_l.
  pose proof ln10_pos as H10.
  assert (Hln : (ln 1e-12 < - 3 * ln 10)%R).
  { replace (- 3 * ln 10)%R with (ln (/ 1000)).
    - apply ln_increasing; lra.
    - rewrite ln_Rinv by lra. replace 1000%R with (10 * (10 * 10))%R by lra.
      rewrite !ln_mult by lra. lra. }
  apply Rmax_lub_lt; [lra|].
  assert (ln 1e-12 / ln 10 < -3)%R.
  { apply (Rmult_lt_reg_r (ln 10)); [done|]. unfold Rdiv.
    rewrite Rmult_assoc, Rinv_l by lra. lra. }
  lra.
Qed.

(** ** The level gate on a full-scale frame *)

Lemma known_level_exact : known_level = exact_level.
Proof.
  apply functional_extensionality. intros int16.
  apply functional_extensionality. intros threshold.
  unfold known_level. case_bool_decide as Hl; [|done].
  destruct (Z.leb_spec threshold 0); [|done]. cbn [andb].
  subst int16. symmetry. by apply (full_scale_not_below 47).
Qed.

(** ** The relay loop under any interleaving *)

Lemma within_send_outside_catch e : within_send e -> outside_catch e.
Proof. by intros (_ & _ & H). Qed.

Section LoopEmits.

Context {gate : LevelGate}.
Variable S2S_CHUNK_MS : Z.
Variable speaker : string.

Lemma sendS2SChunk_in_loop int16 now w :
  Emits outside_catch returns w (sendS2SChunk speaker int16 now w).
Proof.
  eapply Emits_appends_l; [|eapply Emits_impl; [apply within_send_outside_catch| |
    apply sendS2SChunk_Emits]]; [|done].
  solve_appends.
Qed.

Lemma stream_finally_Emits w : Emits outside_catch (ended speaker) w (stream_finally speaker w).
Proof.
  unfold stream_finally. constructor; [solve_appends|]. split; [done|]. cbn [activeS2S set_activeS2S].
  apply not_elem_of_difference. right. by apply elem_of_singleton.
Qed.

Lemma stream_catch_Emits e w : Emits outside_catch (ended speaker) w (stream_catch speaker e w).
Proof.
  unfold stream_catch. eapply Emits_appends_l; [|apply stream_finally_Emits]. solve_appends.
Qed.

Lemma stream_flush_Emits buffers totalSamples now w :
  Emits outside_catch (ended speaker) w (stream_flush S2S_CHUNK_MS speaker buffers totalSamples now w).
Proof.
  unfold stream_flush. repeat case_match.
  - eapply Emits_bind; [apply sendS2SChunk_in_loop|].
    intros now' w' c ->. eapply Emits_appends_l; [|apply stream_finally_Emits]. solve_appends.
  - apply stream_catch_Emits.
  - eapply Emits_appends_l; [|apply stream_finally_Emits]. solve_appends.
Qed.

Lemma streamLoop_Emits stream : forall buffers totalSamples lastChunkTime w,
  Emits outside_catch (ended speaker) w
        (streamLoop S2S_CHUNK_MS speaker stream buffers totalSamples lastChunkTime w).
Proof.
  induction stream as [|frame stream IH]; intros buffers totalSamples lastChunkTime w;
    cbn [streamLoop]; (apply Emits_await; [done|solve_appends|]); intros [[]|e] now' w'.
  - apply stream_flush_Emits.
  - apply stream_catch_Emits.
  - destruct frame as [[|s src]|]; [apply IH| |apply IH].
    cbv zeta. repeat case_match.
    + eapply Emits_bind; [apply sendS2SChunk_in_loop|].
      intros now'' w'' c ->. apply IH.
    + apply stream_catch_Emits.
    + apply IH.
  - apply stream_catch_Emits.
Qed.

End LoopEmits.

Lemma count_zero_Forall (p : Event -> bool) es :
  Forall (fun e => p e = false) es -> count p es = 0%nat.
Proof.
  induction 1 as [|e es He _ IH]; [done|].
  unfold count in *. cbn [List.filter]. by rewrite He.
Qed.

(** C10. sendS2SChunk never hands an exception to its caller: whatever the
    service, the transport and the other calls do, every call ends by
    returning. So the relay loop never enters the [catch] block around its
    call (the block that would leave the loop on an InvalidState error never
    runs, in the loop or at the flush), and a loop whose stream does not
    fail takes every frame of the track and sees its end: it asks for the
    next frame once more than the track has frames. *)
Theorem sendS2SChunk_never_throws (S2S_CHUNK_MS : Z) (speaker : string) (stream : Track)
    (env : nat -> Env) (clock : nat -> Z) (i : nat) (now : Z) (w : Worker) :
  (forall j, env j unit (NextFrame speaker) = Fulfilled tt) ->
  (forall speakerIdentity int16 now' w',
     Outcomes (fun _ c => c = Normal) (sendS2SChunk speakerIdentity int16 now' w')) /\
  (forall buffers totalSamples lastChunkTime w',
     Emits (fun e => is_chunkCatch e = false) (fun _ c => c = Normal) w'
           (streamLoop S2S_CHUNK_MS speaker stream buffers totalSamples lastChunkTime w')) /\
  let r := exec env clock i now (streamLoop S2S_CHUNK_MS speaker stream [] 0 0 w) in
  res_completion r = Normal /\
  count is_chunkCatch (events_since w (res_worker r)) = 0%nat /\
  count is_nextFrame (events_since w (res_worker r)) = S (length stream).
Proof.
  intros Hstream. split; [|split].
  - intros. eapply Emits_Outcomes, sendS2SChunk_Emits.
  - intros. eapply Emits_impl; [| |apply streamLoop_Emits]; [done|]. by intros ?? [-> _].
  - cbv zeta.
    destruct (exec_streamLoop S2S_CHUNK_MS speaker env clock Hstream stream [] 0%nat 0 w i now
                eq_refl) as (chunks & tail & t_end & es & Ht & _ & _ & _ & Hn & Hc).
    split; [done|]. split.
    + apply count_zero_Forall.
      apply (appends_events_since (fun e => is_chunkCatch e = false)).
      eapply exec_Emits, streamLoop_Emits.
    + unfold events_since. by rewrite Ht, drop_app_length.
Qed.

Lemma sendS2SChunk_never_throws_witness :
  (forall j : nat, fulfilled unit (NextFrame "A") = Fulfilled tt) /\
  count is_nextFrame
    (events_since (worker_with_route "A" "v1")
       (res_worker (exec (fun _ => fulfilled) (fun j => 10 * Z.of_nat j) 0 0
          (streamLoop 1000 "A" (replicate 250 (Some (replicate 480 1000))) [] 0 0
                      (worker_with_route "A" "v1"))))) = 251%nat.
Proof.
  split; [reflexivity|].
  exact (proj2 (proj2 (proj2 (proj2
    (sendS2SChunk_never_throws 1000 "A" (replicate 250 (Some (replicate 480 1000)))
       (fun _ => fulfilled) (fun j => 10 * Z.of_nat j) 0%nat 0 (worker_with_route "A" "v1")
       (fun _ => eq_refl)))))).
Defined.

(** C3. The relay loop, run over a whole track with any timing of the
    frames: the chunks it hands to sendS2SChunk while frames arrive are sent
    only when the buffered samples have reached the configured chunk size
    and at least 200 ms have passed since the chunk before (since time 0 for
    the first); taken in order, the chunks are exactly the samples of the
    track in their order of arrival, nothing twice and nothing left out, up
    to the tail that is still buffered when the stream ends (which is sent
    as a last chunk, or dropped, at the flush). *)
Theorem streamLoop_sends_full_chunks_in_order (S2S_CHUNK_MS : Z) (speaker : string)
    (stream : Track) (env : nat -> Env) (clock : nat -> Z) (i : nat) (now : Z) (w : Worker) :
  (forall j, env j unit (NextFrame speaker) = Fulfilled tt) ->
  let r := exec env clock i now (streamLoop S2S_CHUNK_MS speaker stream [] 0 0 w) in
  exists (chunks : list (list Z * Z)) (tail : list Z) (t_end : Z),
    sentChunks (events_since w (res_worker r)) =
      chunks ++ (if samplesPerChunk S2S_CHUNK_MS <? 2 * Z.of_nat (length tail)
                 then [(tail, t_end)] else []) /\
    firedWhenReady (samplesPerChunk S2S_CHUNK_MS) 0 chunks /\
    concat (map fst chunks) ++ tail = samplesOf stream.
Proof.
  intros Hstream. cbv zeta.
  destruct (exec_streamLoop S2S_CHUNK_MS speaker env clock Hstream stream [] 0%nat 0 w i now
              eq_refl) as (chunks & tail & t_end & es & Ht & Hsamples & Hfired & Hs & _ & _).
  exists chunks, tail, t_end. split; [|split; [done|by rewrite <- Hsamples]].
  unfold events_since. by rewrite Ht, drop_app_length.
Qed.

Lemma streamLoop_sends_full_chunks_in_order_witness :
  (forall j : nat, fulfilled unit (NextFrame "A") = Fulfilled tt) /\
  exists (chunks : list (list Z * Z)) (tail : list Z) (t_end : Z),
    sentChunks (events_since (worker_with_route "A" "v1")
                  (res_worker (exec (fun _ => fulfilled) (fun j => 10 * Z.of_nat j) 0 0
                     (streamLoop 1000 "A" (replicate 250 (Some (replicate 480 1000))) [] 0 0
                                 (worker_with_route "A" "v1"))))) =
      chunks ++ (if samplesPerChunk 1000 <? 2 * Z.of_nat (length tail)
                 then [(tail, t_end)] else []) /\
    firedWhenReady (samplesPerChunk 1000) 0 chunks /\
    concat (map fst chunks) ++ tail = samplesOf (replicate 250 (Some (replicate 480 1000))).
Proof.
  split; [reflexivity|].
  exact (streamLoop_sends_full_chunks_in_order 1000 "A"
           (replicate 250 (Some (replicate 480 1000))) (fun _ => fulfilled)
           (fun j => 10 * Z.of_nat j) 0%nat 0 (worker_with_route "A" "v1")
           (fun _ => eq_refl)).
Defined.

(** ** Responses that are not ok *)

Lemma prefix_quota_exceeded s :
  String.prefix "quota_exceeded" s = true -> String.prefix "quota" s = true.
Proof.
  intros H.
  repeat (destruct s as [|? s]; [discriminate H|];
          cbn [String.prefix] in H |- *;
          destruct (Ascii.ascii_dec _ _); [|discriminate H]).
  reflexivity.
Qed.

Lemma includes_quota_exceeded text :
  includes text "quota_exceeded" = true -> includes text "quota" = true.
Proof.
  induction text as [|a text IH]; cbn [includes]; intros H.
  - discriminate H.
  - apply orb_true_iff in H as [H|H].
    + by rewrite (prefix_quota_exceeded _ H).
    + rewrite (IH H). apply orb_true_r.
Qed.

(** C8 (as amended). For every response that is not 2xx, sendS2SChunk reads
    the body text and classifies: a 429, whatever its body, and a 401 whose
    body contains the word quota set the quota-exhausted state to the
    current time (nothing is logged as a service error); every other status
    is logged as a service error with its status and body text, and the
    quota-exhausted state is left as it was. In both cases the call returns
    and the chunk is dropped. *)
Theorem non_ok_response_classified (speakerIdentity : string) (route : Route) (status : Z)
    (now : Z) (w : Worker) :
  res_ok status = false ->
  sendS2SChunk_response speakerIdentity route (Fulfilled status) now w =
    await ResText w (sendS2SChunk_errorText status) /\
  forall (res : Settled string) (now' : Z) (w' : Worker),
    let text := match res with Fulfilled t => t | Rejected _ => ""%string end in
    exists w'',
      sendS2SChunk_errorText status res now' w' = Finished w'' Normal /\
      (status = 429 \/ (status = 401 /\ includes text "quota" = true) ->
         quotaExhausted w'' = Some now' /\
         count is_serviceError (events_since w' w'') = 0%nat /\
         count is_fetch (events_since w' w'') = 0%nat) /\
      (~ (status = 429 \/ (status = 401 /\ includes text "quota" = true)) ->
         quotaExhausted w'' = quotaExhausted w' /\
         events_since w' w'' = [EvLog (LogServiceError status text)]).
Proof.
  intros Hok. split.
  - unfold sendS2SChunk_response. by rewrite Hok.
  - intros res now' w' text. unfold sendS2SChunk_errorText. fold text.
    assert (Hq : includes text "quota_exceeded" || includes text "quota" = includes text "quota").
    { destruct (includes text "quota_exceeded") eqn:E; [|done].
      by rewrite (includes_quota_exceeded _ E). }
    rewrite Hq.
    assert (Hlen : forall l (w0 : Worker),
               events_since w0 (log l w0) = [EvLog l]).
    { intros l w0. unfold events_since. cbn. by rewrite drop_app_length. }
    destruct (Z.eqb_spec status 429) as [->|H429].
    + destruct (includes text "quota"); cbn [Z.eqb Pos.eqb orb andb];
        (eexists; split; [reflexivity|split; [|intros []; by left]]);
        intros _; (split; [done|]);
        change (events_since w' (set_quotaExhausted ?v ?x)) with (events_since w' x);
        by rewrite Hlen.
    + destruct (Z.eqb_spec status 401) as [->|H401].
      * destruct (includes text "quota") eqn:E; cbn [Z.eqb Pos.eqb orb andb].
        -- eexists; split; [reflexivity|split; [|intros []; by right]].
           intros _. split; [done|].
           change (events_since w' (set_quotaExhausted ?v ?x)) with (events_since w' x).
           by rewrite Hlen.
        -- eexists; split; [reflexivity|split].
           ++ intros [?|[_ ?]]; done.
           ++ intros _. split; [done|]. apply Hlen.
      * cbn [orb andb]. eexists; split; [reflexivity|split].
        -- intros [?|[? _]]; done.
        -- intros _. split; [done|]. apply Hlen.
Qed.

Lemma non_ok_response_classified_witness :
  res_ok 500 = false /\
  sendS2SChunk_response "A" {| ref := 2; key := "from-A"; voiceId := "v1"; source := 0; track := 1 |}
      (Fulfilled 500) 0 (worker_with_route "A" "v1") =
    await ResText (worker_with_route "A" "v1") (sendS2SChunk_errorText 500) /\
  exists w'',
    sendS2SChunk_errorText 500 (Fulfilled "Internal Server Error"%string) 7
                           (worker_with_route "A" "v1") = Finished w'' Normal /\
    quotaExhausted w'' = None /\
    events_since (worker_with_route "A" "v1") w'' =
      [EvLog (LogServiceError 500 "Internal Server Error")].
Proof.
  destruct (non_ok_response_classified "A"
              {| ref := 2; key := "from-A"; voiceId := "v1"; source := 0; track := 1 |}
              500 0 (worker_with_route "A" "v1") eq_refl) as [Hresp Htext].
  split; [reflexivity|]. split; [exact Hresp|].
  destruct (Htext (Fulfilled "Internal Server Error"%string) 7 (worker_with_route "A" "v1"))
    as (w'' & Hrun & _ & Hother).
  exists w''. split; [exact Hrun|]. apply Hother. intros [H|[H _]]; discriminate H.
Defined.

(** C8, the claim as stated fails: a 429 whose body carries no quota or
    rate-limit indicator (here an empty body) is not treated as a generic
    service error: it sets the quota-exhausted state, which blocks the
    calls of the next minute, and no service error is logged. *)
Lemma rate_limit_status_alone_sets_quota_state :
  res_ok 429 = false /\
  includes "" "quota" = false /\ includes "" "rate" = false /\
  exists w',
    sendS2SChunk_errorText 429 (Fulfilled ""%string) 5000 (worker_with_route "B" "v2") =
      Finished w' Normal /\
    quotaExhausted w' = Some 5000 /\
    quotaBlocks w' 64999 = true /\
    events_since (worker_with_route "B" "v2") w' = [EvLog LogRateLimited].
Proof.
  split; [reflexivity|]. split; [reflexivity|]. split; [reflexivity|].
  eexists. split; [reflexivity|]. split; [reflexivity|]. split; reflexivity.
Qed.

(** ** Route recreation, run on its own *)

Lemma exec_recreateRoute env clock i now participantIdentity w :
  let r := exec env clock i now (recreateRouteForParticipant participantIdentity w) in
  res_completion r = Normal /\
  recentlyRecreated (res_worker r) = recentlyRecreated w /\
  timers (res_worker r) = timers w /\
  activeS2S (res_worker r) = activeS2S w /\
  quotaExhausted (res_worker r) = quotaExhausted w /\
  exists es, trace (res_worker r) = trace w ++ EvRecreateRoute participantIdentity :: es /\
             Forall (quiet participantIdentity) es.
Proof.
  unfold recreateRouteForParticipant, recreateRoute_create, await.
  cbn [participantVoices routes log emit set_trace].
  destruct (participantVoices w !! participantIdentity) as [voiceInfo|];
    [destruct (routes w !! participantIdentity) as [oldRoute|]|]; cbn [exec].
  - destruct (env i unit _) as [[]|e1]; destruct (env (S i) unit _) as [[]|e2];
      cbn -[lookup insert delete]; repeat split;
      (eexists; rewrite <- !app_assoc; split; [reflexivity|repeat constructor]).
  - destruct (env i unit _) as [[]|e2];
      cbn -[lookup insert delete]; repeat split;
      (eexists; rewrite <- !app_assoc; split; [reflexivity|repeat constructor]).
  - cbn -[lookup insert delete]. repeat split.
    eexists; rewrite <- !app_assoc; split; [reflexivity|repeat constructor].
Qed.

(** C5 (as amended). recreateRouteForParticipant, for a participant that has
    a route and a voice assignment: the call returns; it asks once for the
    old route's track to be unpublished and goes on whether or not that
    succeeds; the routes of the other participants are untouched, and the
    registry never holds two routes for one identity. If
    publishing the new track succeeds, the participant's entry in the
    registry is the newly created route (a new source, track and route
    object), with the voice of the assignment. If publishing fails, the
    participant is left with no route. *)
Theorem recreateRoute_replaces_route (participantIdentity : string) (w : Worker)
    (oldRoute : Route) (voiceInfo : VoiceInfo) (env : nat -> Env) (clock : nat -> Z)
    (i : nat) (now : Z) :
  routes w !! participantIdentity = Some oldRoute ->
  participantVoices w !! participantIdentity = Some voiceInfo ->
  let r := exec env clock i now (recreateRouteForParticipant participantIdentity w) in
  let w' := res_worker r in
  res_completion r = Normal /\
  count (is_unpublish (track oldRoute)) (events_since w w') = 1%nat /\
  (forall other, other <> participantIdentity -> routes w' !! other = routes w !! other) /\
  (forall other r1 r2,
     (other, r1) ∈ map_to_list (routes w') -> (other, r2) ∈ map_to_list (routes w') ->
     r1 = r2) /\
  match env (S i) unit (PublishTrack (S (nextId w)) (routeKeyOf participantIdentity)) with
  | Fulfilled _ =>
      routes w' !! participantIdentity =
        Some {| ref := nextId w + 2; key := routeKeyOf participantIdentity;
                voiceId := vi_voiceId voiceInfo;
                source := nextId w; track := S (nextId w) |}
  | Rejected _ => routes w' !! participantIdentity = None
  end.
Proof.
  intros Hroute Hvoice.
  unfold recreateRouteForParticipant, recreateRoute_create, await.
  cbn [participantVoices routes log emit set_trace].
  rewrite Hvoice, Hroute. cbn [exec].
  assert (Hu : (track oldRoute =? track oldRoute)%nat = true) by apply Nat.eqb_refl.
  destruct (env i unit _) as [[]|e1];
    cbn [nextId log emit set_trace set_routes set_nextId];
    destruct (env (S i) unit _) as [[]|e2];
    cbn -[lookup insert delete count events_since].
  all: split; [done|]; split;
    [unfold events_since; cbn [trace log emit set_trace set_routes set_nextId];
     rewrite <- !app_assoc, drop_app_length;
     unfold count; cbn [List.filter is_unpublish app]; by rewrite Hu|].
  all: split; [intros other Hother|split;
    [intros other r1 r2 H1%elem_of_map_to_list H2%elem_of_map_to_list; congruence|]].
  all: rewrite ?lookup_insert_eq, ?lookup_delete_eq; try done.
  all: by rewrite ?lookup_insert_ne, ?lookup_delete_ne by done.
Qed.

Lemma recreateRoute_replaces_route_witness :
  routes (worker_with_route "A" "v1") !! "A"%string =
    Some {| ref := 2; key := "from-A"; voiceId := "v1"; source := 0; track := 1 |} /\
  participantVoices (worker_with_route "A" "v1") !! "A"%string =
    Some {| vi_voiceId := "v1"; vi_voiceName := "Custom Voice" |} /\
  routes (res_worker (exec (fun _ => fulfilled) (fun _ => 0) 0 0
                        (recreateRouteForParticipant "A" (worker_with_route "A" "v1"))))
    !! "A"%string =
    Some {| ref := 5; key := "from-A"; voiceId := "v1"; source := 3; track := 4 |}.
Proof.
  split; [reflexivity|]. split; [reflexivity|].
  exact (proj2 (proj2 (proj2 (proj2
    (recreateRoute_replaces_route "A" (worker_with_route "A" "v1") _ _
       (fun _ => fulfilled) (fun _ => 0) 0%nat 0 eq_refl eq_refl))))).
Defined.

(** C5, the claim as stated fails: when the room refuses the new track,
    recreateRouteForParticipant has already discarded the old route and
    returns without a new one: a participant that had a route (and still has
    its voice assignment) is left with none. *)
Lemma recreateRoute_publish_failure_leaves_no_route :
  let w := worker_with_route "A" "v1" in
  let env := fun j : nat =>
    if (j =? 1)%nat then answer 200 "" [] None (Rejected publishFailed) else fulfilled in
  let r := exec env (fun _ => 0) 0 0 (recreateRouteForParticipant "A" w) in
  routes w !! "A"%string =
    Some {| ref := 2; key := "from-A"; voiceId := "v1"; source := 0; track := 1 |} /\
  participantVoices w !! "A"%string =
    Some {| vi_voiceId := "v1"; vi_voiceName := "Custom Voice" |} /\
  res_completion r = Normal /\
  routes (res_worker r) !! "A"%string = None /\
  events_since w (res_worker r) =
    [EvRecreateRoute "A"; EvLog (LogRecreating "A");
     EvAwait unit (UnpublishTrack 1); EvAwait unit (PublishTrack 4 "from-A");
     EvLog (LogRecreateFailed "A" "engine not connected")].
Proof. cbv zeta. repeat split; vm_compute; reflexivity. Qed.

(** ** A failed capture *)

Lemma events_since_app w w' es : trace w' = trace w ++ es -> events_since w w' = es.
Proof. intros H. unfold events_since. by rewrite H, drop_app_length. Qed.

Lemma quiet_counts participantIdentity es :
  Forall (quiet participantIdentity) es ->
  count is_capture es = 0%nat /\ count (is_recreate participantIdentity) es = 0%nat /\
  count is_fetch es = 0%nat.
Proof.
  intros H. repeat split; apply count_zero_Forall; eapply Forall_impl; try exact H;
    by intros e (? & ? & ?).
Qed.

(** The end of the failed chunk: [catch (frameError)] and what follows. *)
Lemma sendS2SChunk_frameError_InvalidState speakerIdentity samples framesPublished e now w
    env clock i :
  includes (err_message e) "InvalidState" = true ->
  let r := exec env clock i now
             (sendS2SChunk_frameError speakerIdentity samples framesPublished e now w) in
  res_completion r = Normal /\
  recentlyRecreated (res_worker r) = recentlyRecreated w /\
  timers (res_worker r) = timers w /\
  activeS2S (res_worker r) = activeS2S w ∖ {[speakerIdentity]} /\
  exists es, trace (res_worker r) = trace w ++ es /\
             Forall (quiet speakerIdentity) es.
Proof.
  intros Hincl. unfold sendS2SChunk_frameError, sendS2SChunk_mark. rewrite Hincl.
  cbn [quotaExhausted log emit set_trace set_activeS2S set_lastSuccessfulCall].
  destruct (quotaExhausted w) as [t|]; [destruct (t =? 0)|];
    cbn -[difference]; repeat split;
    (eexists; rewrite <- !app_assoc; split; [reflexivity|repeat constructor]).
Qed.

(** The handlers around the call of captureFrame, for a call that throws
    an InvalidState error: the call of sendS2SChunk returns and no further
    frame of the chunk is captured. If the speaker is not in the
    recently-recreated set, recreateRouteForParticipant is called exactly
    once for the speaker, the speaker is put in the set and a timer of
    5000 ms is set whose callback takes the speaker out of the set again.
    If the speaker is in the set (a failure within the 5 s of an earlier
    one), no recreation is made, and the set and the timers are left as
    they are. The handlers need a synchronous throw: a capture that fails
    inside the library's async method does not come to them
    (capture_rejection_recreates_nothing). *)
Lemma captureFrame_throw_recreates_once (speakerIdentity : string) (route : Route)
    (samples : nat) (slice : list Z) (rest : list (list Z)) (framesPublished : nat)
    (captureError : JsError) (env : nat -> Env) (clock : nat -> Z) (i : nat) (now : Z)
    (w : Worker) :
  connected w = true ->
  routes w !! speakerIdentity = Some route ->
  ref route ∉ nulled w ->
  env i unit (CaptureFrame (source route) slice) = Rejected captureError ->
  includes (err_message captureError) "InvalidState" = true ->
  let r := exec env clock i now
             (publishFrames speakerIdentity route samples (slice :: rest) framesPublished now w) in
  let w' := res_worker r in
  res_completion r = Normal /\
  count is_capture (events_since w w') = 1%nat /\
  (speakerIdentity ∉ recentlyRecreated w ->
     count (is_recreate speakerIdentity) (events_since w w') = 1%nat /\
     recentlyRecreated w' = {[speakerIdentity]} ∪ recentlyRecreated w /\
     timers w' = timers w ++ [(5000, TimerClearRecreated speakerIdentity)]) /\
  (speakerIdentity ∈ recentlyRecreated w ->
     count (is_recreate speakerIdentity) (events_since w w') = 0%nat /\
     recentlyRecreated w' = recentlyRecreated w /\
     timers w' = timers w) /\
  (forall S2S_CHUNK_MS w0,
     fireTimer S2S_CHUNK_MS (TimerClearRecreated speakerIdentity) w0 =
       Finished (set_recentlyRecreated (recentlyRecreated w0 ∖ {[speakerIdentity]}) w0) Normal).
Proof.
  intros Hconn Hroute Href Henv Hincl.
  assert (Hsrc : route_source w route = Some (source route)).
  { unfold route_source. by rewrite decide_False. }
  cbn [publishFrames]. rewrite Hroute, Hconn. cbn [mbind option_bind]. rewrite Hsrc.
  rewrite !bool_decide_eq_true_2 by eauto. cbn [negb orb].
  unfold await. cbn [exec]. rewrite Henv.
  unfold sendS2SChunk_captureError. rewrite Hincl. cbn [orb].
  cbn [recentlyRecreated emit set_trace].
  destruct (decide (speakerIdentity ∈ recentlyRecreated w)) as [Hin|Hout].
  - destruct (sendS2SChunk_frameError_InvalidState speakerIdentity samples framesPublished
                captureError (clock i)
                (emit (EvAwait unit (CaptureFrame (source route) slice)) w)
                env clock (S i) Hincl) as (Hc & Hrr & Htm & _ & es & Ht & Hes).
    destruct (quiet_counts _ _ Hes) as (Hcap & Hrec & _).
    cbn [trace emit set_trace] in Ht. rewrite <- app_assoc in Ht.
    split; [exact Hc|]. rewrite (events_since_app _ _ _ Ht).
    split; [|split; [done|split; [|done]]].
    + rewrite count_app, Hcap. reflexivity.
    + intros _. rewrite count_app, Hrec. done.
  - rewrite exec_bind. cbv zeta.
    set (w1 := emit (EvSetTimeout 5000 (TimerClearRecreated speakerIdentity)) _).
    destruct (exec_recreateRoute env clock (S i) (clock i) speakerIdentity w1)
      as (Hc1 & Hrr1 & Htm1 & _ & _ & es1 & Ht1 & Hes1).
    rewrite Hc1.
    set (r1 := exec env clock (S i) (clock i) (recreateRouteForParticipant speakerIdentity w1))
      in *.
    destruct (sendS2SChunk_frameError_InvalidState speakerIdentity samples framesPublished
                captureError (res_now r1) (res_worker r1)
                env clock (res_awaits r1) Hincl) as (Hc & Hrr & Htm & _ & es & Ht & Hes).
    destruct (quiet_counts _ _ Hes1) as (Hcap1 & Hrec1 & _).
    destruct (quiet_counts _ _ Hes) as (Hcap & Hrec & _).
    rewrite Ht1 in Ht. subst w1. cbn [trace log emit set_trace set_timers set_recentlyRecreated] in Ht.
    rewrite <- !app_assoc in Ht. cbn [app] in Ht.
    split; [exact Hc|]. rewrite (events_since_app _ _ _ Ht).
    split; [|split; [|split; [done|done]]].
    + change (?a :: ?b :: ?c :: ?d :: es1 ++ es) with ([a; b; c; d] ++ es1 ++ es).
      rewrite !count_app, Hcap1, Hcap. reflexivity.
    + intros _. split; [|split].
      * change (?a :: ?b :: ?c :: ?d :: es1 ++ es) with ([a; b; c; d] ++ es1 ++ es).
        rewrite !count_app, Hrec1, Hrec. unfold count. cbn [List.filter is_recreate].
        by rewrite String.eqb_refl.
      * by rewrite Hrr, Hrr1.
      * by rewrite Htm, Htm1.
Qed.

(** ** The quota state *)

Lemma sendS2SChunk_mark_marks speakerIdentity samples framesPublished now w :
  Emits within_send marked w (sendS2SChunk_mark speakerIdentity samples framesPublished now w).
Proof.
  unfold sendS2SChunk_mark. cbv zeta. constructor.
  - repeat case_match; solve_appends.
  - split; [done|]. intros t. unfold quotaBlocks.
    destruct (quotaExhausted (set_lastSuccessfulCall now w)) as [t0|] eqn:E0;
      [destruct (t0 =? 0) eqn:E|];
      cbn [quotaExhausted set_quotaExhausted log emit set_trace]; [|done|by rewrite E0].
    by rewrite E0, E.
Qed.

Lemma sendS2SChunk_frameError_marks speakerIdentity samples framesPublished e now w :
  Emits within_send marked w
        (sendS2SChunk_frameError speakerIdentity samples framesPublished e now w).
Proof.
  unfold sendS2SChunk_frameError. cbv zeta.
  eapply Emits_appends_l; [|apply sendS2SChunk_mark_marks]. solve_appends.
Qed.

Lemma sendS2SChunk_captureError_marks speakerIdentity samples framesPublished e now w :
  Emits within_send marked w
        (sendS2SChunk_captureError speakerIdentity samples framesPublished e now w).
Proof.
  unfold sendS2SChunk_captureError. cbv zeta. repeat case_match.
  - apply sendS2SChunk_frameError_marks.
  - eapply Emits_bind.
    + eapply Emits_appends_l; [|apply recreateRouteForParticipant_Emits]. solve_appends.
    + intros now' w' c _. destruct c; apply sendS2SChunk_frameError_marks.
  - eapply Emits_appends_l; [|apply sendS2SChunk_frameError_marks]. solve_appends.
Qed.

Lemma publishFrames_marks speakerIdentity route samples slices framesPublished now w :
  Emits within_send marked w
        (publishFrames speakerIdentity route samples slices framesPublished now w).
Proof.
  revert framesPublished now w.
  induction slices as [|slice rest IH]; intros framesPublished now w; cbn [publishFrames].
  - apply sendS2SChunk_mark_marks.
  - repeat case_match;
      try (eapply Emits_appends_l; [|apply sendS2SChunk_mark_marks]; solve_appends).
    apply Emits_await; [done|solve_appends|]. intros [[]|e] now' w'.
    + apply IH.
    + apply sendS2SChunk_captureError_marks.
Qed.

(** A call that gets a non-empty 2xx response while its route still has
    its source ends, whatever the other calls do meanwhile, with no quota
    state that blocks a call: whatever the time, and whichever call set the
    state and when. *)
Lemma response_clears_quota_state (speakerIdentity : string) (route : Route) (buf : Buffer)
    (now : Z) (w : Worker) :
  buf <> [] -> is_Some (route_source w route) ->
  Outcomes (fun w' c => c = Normal /\ forall t, quotaBlocks w' t = false)
           (sendS2SChunk_body speakerIdentity route (Fulfilled buf) now w).
Proof.
  intros Hbuf Hsrc. unfold sendS2SChunk_body.
  destruct buf as [|b buf]; [done|]. cbn [length Nat.eqb].
  rewrite bool_decide_eq_true_2 by done. cbn [negb].
  eapply Emits_Outcomes, publishFrames_marks.
Qed.

(** C2. A chunk whose level, as [rmsDbFS] computes it in double precision,
    is below the silence threshold of -55 dB ([rmsLevel < SILENCE_DB] is
    true): sendS2SChunk returns without any request to the transformation
    service, and leaves the quota state as it is. This holds whatever
    Math.sqrt and Math.log10 return. *)
Theorem sendS2SChunk_skips_silence {math : MathLibrary} (speakerIdentity : string)
    (int16 : list Z) (now : Z) (w : Worker) :
  PrimFloat.ltb (Double.rmsDbFS int16) (Double.of_Z SILENCE_DB) = true ->
  exists w', sendS2SChunk (gate := double_level) speakerIdentity int16 now w =
               Finished w' Normal /\
             count is_fetch (events_since w w') = 0%nat /\
             quotaExhausted w' = quotaExhausted w.
Proof.
  intros Hquiet. unfold sendS2SChunk. cbv zeta.
  assert (Hl : levelBelow (LevelGate := double_level) int16 SILENCE_DB = true) by exact Hquiet.
  rewrite Hl.
  assert (Hlog : forall l, count is_fetch
             (events_since w (log l (emit (EvSendS2SChunk speakerIdentity int16 now) w)))
             = 0%nat).
  { intros l. unfold events_since. cbn [trace log emit set_trace].
    rewrite <- app_assoc. by rewrite drop_app_length. }
  assert (Hemit : count is_fetch
             (events_since w (emit (EvSendS2SChunk speakerIdentity int16 now) w)) = 0%nat).
  { unfold events_since. cbn [trace emit set_trace]. by rewrite drop_app_length. }
  repeat case_match; eexists; (split; [reflexivity|]); by split.
Qed.

Lemma sendS2SChunk_skips_silence_witness :
  PrimFloat.ltb (Double.rmsDbFS (math := math_for_zeros) (replicate 480 0))
                (Double.of_Z SILENCE_DB) = true /\
  exists w', sendS2SChunk (gate := double_level (math := math_for_zeros))
               "A" (replicate 480 0) 1000 (worker_with_route "A" "v1") =
               Finished w' Normal /\
             count is_fetch (events_since (worker_with_route "A" "v1") w') = 0%nat /\
             quotaExhausted w' = None.
Proof.
  assert (H : PrimFloat.ltb (Double.rmsDbFS (math := math_for_zeros) (replicate 480 0))
                            (Double.of_Z SILENCE_DB) = true) by (vm_compute; reflexivity).
  split; [exact H|].
  exact (sendS2SChunk_skips_silence (math := math_for_zeros) "A" (replicate 480 0) 1000
           (worker_with_route "A" "v1") H).
Defined.

(** ** Starting and ending a relay loop *)

(** A start request for a speaker in the active set starts nothing. *)
Lemma _startAudioStream_already_active (S2S_CHUNK_MS : Z) (track : option Track)
    (speaker : string) (w : Worker) :
  speaker ∈ activeS2S w ->
  exists w', _startAudioStream S2S_CHUNK_MS track speaker w = Finished w' Normal /\
             activeS2S w' = activeS2S w.
Proof.
  intros Hin. unfold _startAudioStream. destruct track as [stream|]; [|by eexists].
  case_match; [by eexists|]. rewrite decide_True by done. by eexists.
Qed.

(** The three ways a loop is asked for (a track-subscribed event, the start
    for an existing track after the route is set up, the retry timer of a
    track that came before its route) start no loop for a speaker in the
    active set: the handler ends in its first segment, with no new task. *)
Lemma start_requests_already_active (S2S_CHUNK_MS : Z) (track : option Track) (isAudio : bool)
    (participantIdentity : string) (w : Worker) :
  participantIdentity ∈ activeS2S w ->
  (exists w', onTrackSubscribed S2S_CHUNK_MS track isAudio participantIdentity w
                = Finished w' Normal /\ activeS2S w' = activeS2S w) /\
  (exists w', startAudioStreamIfTrackExists S2S_CHUNK_MS track participantIdentity w
                = Finished w' Normal /\ activeS2S w' = activeS2S w) /\
  (exists w', fireTimer S2S_CHUNK_MS (TimerRetryStart participantIdentity track) w
                = Finished w' Normal /\ activeS2S w' = activeS2S w).
Proof.
  intros Hin. split; [|split].
  - unfold onTrackSubscribed. destruct track as [stream|]; [|by eexists].
    repeat case_match; try by eexists.
    apply (_startAudioStream_already_active S2S_CHUNK_MS (Some stream) participantIdentity
             (log (LogSubscribed participantIdentity) w)), Hin.
  - unfold startAudioStreamIfTrackExists. destruct track as [stream|]; [|by eexists].
    rewrite decide_True by done. by eexists.
  - cbn [fireTimer]. case_match; [|by eexists].
    apply (_startAudioStream_already_active S2S_CHUNK_MS track participantIdentity
             (log (LogRouteReady participantIdentity) w)), Hin.
Qed.

Lemma start_requests_already_active_witness :
  "A"%string ∈ activeS2S (worker_with_route "A" "v1") /\
  exists w', onTrackSubscribed 1000 (Some [Some loudFrame]) true "A" (worker_with_route "A" "v1")
               = Finished w' Normal /\
             activeS2S w' = activeS2S (worker_with_route "A" "v1").
Proof.
  assert (H : "A"%string ∈ activeS2S (worker_with_route "A" "v1"))
    by (unfold worker_with_route; cbn [activeS2S]; by apply elem_of_singleton).
  split; [exact H|].
  exact (proj1 (start_requests_already_active 1000 (Some [Some loudFrame]) true "A"
                  (worker_with_route "A" "v1") H)).
Defined.

(** However a relay loop ends, whatever happened while it was suspended,
    its speaker is not in the active set when it has ended. *)
Lemma streamLoop_ends_outside_active_set (S2S_CHUNK_MS : Z) (speaker : string)
    (stream : Track) (buffers : list (list Z)) (totalSamples : nat) (lastChunkTime : Z)
    (w : Worker) :
  Outcomes (fun w' c => c = Normal /\ speaker ∉ activeS2S w')
           (streamLoop S2S_CHUNK_MS speaker stream buffers totalSamples lastChunkTime w).
Proof. eapply Emits_Outcomes, streamLoop_Emits. Qed.

(** The flush, exactly: the tail is sent when it is longer than half a
    chunk, counted in samples, and dropped otherwise. *)
Lemma stream_flush_more_than_half (S2S_CHUNK_MS : Z) (speaker : string)
    (buffers : list (list Z)) (env : nat -> Env) (clock : nat -> Z) (i : nat) (now : Z)
    (w : Worker) :
  let r := exec env clock i now
             (stream_flush S2S_CHUNK_MS speaker buffers (length (concat buffers)) now w) in
  sentChunks (events_since w (res_worker r)) =
    if samplesPerChunk S2S_CHUNK_MS <? 2 * Z.of_nat (length (concat buffers))
    then [(concat buffers, now)] else [].
Proof.
  cbv zeta.
  destruct (exec_stream_flush S2S_CHUNK_MS speaker env clock buffers
              (length (concat buffers)) i now w eq_refl) as (es & Ht & Hs & _).
  by rewrite (events_since_app _ _ _ Ht).
Qed.

(** ** Runs of the event loop *)

(** C1, a run in which the pause after a quota failure is cut short.
    Speakers A and B are in the room, and a chunk is one frame long
    (S2S_CHUNK_MS is 1). A's chunk is sent at time 1000 and B's at 1001;
    B's is refused with status 429 and a body that says quota_exceeded at
    time 2000, which sets the quota-exhausted state (the worker logs that
    it pauses requests for 1 minute). A's response (status 200, a non-empty
    body) arrives at 2500 and clears the state. B's next chunk, at time
    3000, long before 2000 + 60000, is sent to the service. *)
Theorem quota_cooldown_cut_short_by_call_in_flight :
  (sys ← steps 1 acts_quota_failure sys_init;
   Some (quotaExhausted (sys_worker sys))) = Some (Some 2000) /\
  (sys ← steps 1 acts_in_flight_success sys_init;
   let attempt := lastAttempt (trace (sys_worker sys)) in
   Some (quotaExhausted (sys_worker sys), head attempt, count is_fetch attempt,
         omap pending (sys_tasks sys))) =
  Some (None, Some (EvSendS2SChunk "B" loudFrame 3000), 1%nat,
        [EvAwait unit (NextFrame "A");
         EvAwait Z (Fetch "v2" (default [] (pcmToWavBuffer loudFrame VOICE_SAMPLE_RATE)))]) /\
  3000 < 2000 + 60000.
Proof.
  rewrite <- known_level_exact. split; [|split]; [vm_compute; reflexivity..|lia].
Qed.

(** C6, two runs with two relay loops for one speaker; no call fails in
    either. In the first, A's loop is running and waits for its next frame
    when A leaves the room: handleParticipantDisconnected takes A out of
    the active set, and the loop goes on waiting. A joins again, its route
    is set up and its audio track is subscribed: the guard of
    _startAudioStream finds A outside the active set and a second loop
    starts. In the second run the worker loses the room, which empties the
    active set, and after the room is back a track-subscribed event for A
    starts a second loop in the same way. *)
Theorem second_relay_loop_after_rejoin :
  (sys ← steps 1 acts_leave sys_init;
   Some (relayLoops "A" sys, bool_decide ("A"%string ∈ activeS2S (sys_worker sys)),
         omap pending (sys_tasks sys))) =
  Some (1%nat, false, [EvAwait unit (NextFrame "A")]) /\
  (sys ← steps 1 acts_leave_rejoin sys_init;
   Some (relayLoops "A" sys, omap pending (sys_tasks sys))) =
  Some (2%nat, [EvAwait unit (NextFrame "A"); EvAwait unit (NextFrame "A")]) /\
  (sys ← steps 1 acts_room_lost sys_init;
   Some (relayLoops "A" sys, bool_decide ("A"%string ∈ activeS2S (sys_worker sys)),
         omap pending (sys_tasks sys))) =
  Some (1%nat, false, [EvAwait unit (NextFrame "A")]) /\
  (sys ← steps 1 acts_room_back sys_init;
   Some (relayLoops "A" sys, omap pending (sys_tasks sys))) =
  Some (2%nat, [EvAwait unit (NextFrame "A"); EvAwait unit (NextFrame "A")]).
Proof. repeat split; vm_compute; reflexivity. Qed.

(** C4, a track that ends with exactly half a chunk buffered. With the
    default chunk of 1000 ms (48000 samples), a track of 50 frames of 10 ms
    ends with 24000 samples buffered: sendS2SChunk is never called, and the
    samples are dropped. *)
Theorem flush_drops_tail_of_exactly_half_a_chunk :
  let w := worker_with_route "A" "v1" in
  let stream := replicate 50 (Some (replicate 480 1000)) in
  let r := exec (fun _ => fulfilled) (fun j => 10 * Z.of_nat j) 0 0
                (streamLoop 1000 "A" stream [] 0 0 w) in
  samplesPerChunk 1000 = 48000 /\
  2 * Z.of_nat (length (samplesOf stream)) = samplesPerChunk 1000 /\
  count is_nextFrame (events_since w (res_worker r)) = 51%nat /\
  sentChunks (events_since w (res_worker r)) = [] /\
  count is_fetch (events_since w (res_worker r)) = 0%nat.
Proof. cbv zeta. repeat split; vm_compute; reflexivity. Qed.

(** ** The second WAV writer *)

Lemma pcm16ToWav_octets (pcmBuf : Buffer) (sampleRate channels : Z) :
  0 <= sampleRate <= 4294967295 -> 0 <= channels -> channels * 2 <= 65535 ->
  sampleRate * (channels * 2) <= 4294967295 ->
  36 + Z.of_nat (length pcmBuf) <= 4294967295 ->
  pcm16ToWav pcmBuf sampleRate channels =
  Some (ascii_octets "RIFF" ++
        (let v := 36 + Z.of_nat (length pcmBuf) in [octet v 0; octet v 1; octet v 2; octet v 3]) ++
        ascii_octets "WAVE" ++ ascii_octets "fmt " ++
        [octet 16 0; octet 16 1; octet 16 2; octet 16 3] ++
        [octet 1 0; octet 1 1] ++ [octet channels 0; octet channels 1] ++
        [octet sampleRate 0; octet sampleRate 1; octet sampleRate 2; octet sampleRate 3] ++
        (let v := sampleRate * (channels * 2) in [octet v 0; octet v 1; octet v 2; octet v 3]) ++
        (let v := channels * 2 in [octet v 0; octet v 1]) ++ [octet 16 0; octet 16 1] ++
        ascii_octets "data" ++
        (let v := Z.of_nat (length pcmBuf) in [octet v 0; octet v 1; octet v 2; octet v 3]) ++
        pcmBuf).
Proof.
  intros Hsr Hch Hba Hbr Hsz. unfold pcm16ToWav, Buffer_alloc, Buffer_concat.
  cbv zeta.
  rewrite <- (app_nil_r (replicate 44 0)).
  cbn [replicate].
  do 13 wav_step.
  cbn [concat]. rewrite !app_nil_r. reflexivity.
Qed.

(** What [pcm16ToWav] returns when every header field fits its slot (the
    RIFF size and the rates their 32 bits, the channel count and the block
    align their 16 bits): 44 header octets, from which a reader gets the
    tags, format code 1, the channel count, the sample rate, the byte rate
    [sampleRate * channels * 2], the block align [channels * 2], 16 bits per
    sample and the data size back, followed by the PCM octets as given. *)
Theorem pcm16ToWav_layout (pcmBuf : Buffer) (sampleRate channels : Z) :
  0 <= sampleRate <= 4294967295 -> 0 <= channels <= 32767 ->
  sampleRate * (channels * 2) <= 4294967295 ->
  36 + Z.of_nat (length pcmBuf) <= 4294967295 ->
  exists wav,
    pcm16ToWav pcmBuf sampleRate channels = Some wav /\
    length wav = (44 + length pcmBuf)%nat /\
    drop 44 wav = pcmBuf /\
    field wav 0 4 = ascii_octets "RIFF" /\ field wav 8 4 = ascii_octets "WAVE" /\
    field wav 12 4 = ascii_octets "fmt " /\ field wav 36 4 = ascii_octets "data" /\
    le32 (field wav 4 4) = 36 + Z.of_nat (length pcmBuf) /\
    le32 (field wav 16 4) = 16 /\
    le16 (field wav 20 2) = 1 /\
    le16 (field wav 22 2) = channels /\
    le32 (field wav 24 4) = sampleRate /\
    le32 (field wav 28 4) = sampleRate * channels * 2 /\
    le16 (field wav 32 2) = channels * 2 /\
    le16 (field wav 34 2) = 16 /\
    le32 (field wav 40 4) = Z.of_nat (length pcmBuf).
Proof.
  intros Hsr Hch Hbr Hsz. eexists. split; [apply pcm16ToWav_octets; lia|].
  cbv zeta. unfold field.
  cbn [ascii_octets list_ascii_of_string map app take drop length].
  rewrite take_0, !le32_octets, !le16_octets by lia.
  repeat split; try reflexivity; lia.
Qed.

Lemma pcm16ToWav_layout_witness :
  exists wav,
    pcm16ToWav [1; 0; 254; 255; 3; 0; 4; 0] 16000 2 = Some wav /\
    length wav = 52%nat /\ drop 44 wav = [1; 0; 254; 255; 3; 0; 4; 0] /\
    le16 (field wav 22 2) = 2 /\ le32 (field wav 28 4) = 64000.
Proof.
  destruct (pcm16ToWav_layout [1; 0; 254; 255; 3; 0; 4; 0] 16000 2)
    as (wav & Hwav & Hlen & Hdata & _ & _ & _ & _ & _ & _ & _ & Hch & _ & Hbr & _);
    [lia|lia|lia|cbn [length]; lia|].
  exists wav. repeat split; assumption.
Defined.

Lemma pcm16ToWav_returns_iff (pcmBuf : Buffer) (sampleRate channels : Z) :
  is_Some (pcm16ToWav pcmBuf sampleRate channels) <->
  0 <= sampleRate <= 4294967295 /\ 0 <= channels <= 32767 /\
  sampleRate * (channels * 2) <= 4294967295 /\
  36 + Z.of_nat (length pcmBuf) <= 4294967295.
Proof.
  split.
  - intros [wav Hwav]. unfold pcm16ToWav in Hwav.
    repeat match type of Hwav with
    | (?m ≫= _) = Some _ =>
        let E := fresh "E" in
        destruct m eqn:E; cbn [mbind option_bind] in Hwav; [|discriminate]
    end.
    unfold Buffer_writeUInt32LE, Buffer_writeUInt16LE in *.
    repeat match goal with
    | H : (if ?c then _ else _) = Some _ |- _ =>
        let C := fresh "C" in destruct c eqn:C; [clear H|discriminate H]
    end.
    repeat match goal with
    | H : _ && _ = true |- _ => apply andb_prop in H; destruct H
    | H : (_ <=? _) = true |- _ => apply Z.leb_le in H
    end.
    repeat split; lia.
  - intros (Hsr & Hch & Hbr & Hsz). rewrite pcm16ToWav_octets by lia. eauto.
Qed.

(** The two WAV writers agree. For mono, [pcm16ToWav] on the octets of an
    Int16Array is [pcmToWavBuffer] on the array, at every sample rate: the
    same file when the fields fit, and an exception from both when they do
    not. *)
Theorem pcm16ToWav_mono_is_pcmToWavBuffer (int16 : list Z) (sampleRate : Z) :
  pcm16ToWav (Int16Array_octets int16) sampleRate 1 = pcmToWavBuffer int16 sampleRate.
Proof.
  destruct (decide (0 <= sampleRate /\ sampleRate * 2 <= 4294967295 /\
                    36 + 2 * Z.of_nat (length int16) <= 4294967295)) as [(Hsr & Hbr & Hsz)|Hno].
  - rewrite pcm16ToWav_octets, pcmToWavBuffer_octets
      by (rewrite ?Int16Array_octets_length; lia).
    unfold wav_header_octets. rewrite Int16Array_octets_length.
    replace (2 * length int16)%nat with (length int16 * 2)%nat by lia.
    change (1 * 2) with 2. rewrite <- !app_assoc. reflexivity.
  - transitivity (@None Buffer); [|symmetry]; apply eq_None_not_Some.
    + rewrite pcm16ToWav_returns_iff, Int16Array_octets_length. intros H. apply Hno. lia.
    + by rewrite pcmToWavBuffer_returns_iff.
Qed.

(** When [pcm16ToWav] throws: exactly when a header field does not fit its
    slot, that is for a negative sample rate or channel count, for a sample
    rate or a byte rate beyond 32 bits, for more than 32767 channels (the
    block align has 16 bits), or for PCM data of more than 4294967259
    octets (the RIFF size is 36 more). *)
Theorem pcm16ToWav_throws_iff_out_of_range (pcmBuf : Buffer) (sampleRate channels : Z) :
  pcm16ToWav pcmBuf sampleRate channels = None <->
  sampleRate < 0 \/ channels < 0 \/ 4294967295 < sampleRate \/ 32767 < channels \/
  4294967295 < sampleRate * (channels * 2) \/ 4294967259 < Z.of_nat (length pcmBuf).
Proof.
  rewrite eq_None_not_Some, pcm16ToWav_returns_iff. split.
  - intros Hno.
    destruct (decide (sampleRate < 0)); [by left|].
    destruct (decide (channels < 0)); [by right; left|].
    destruct (decide (4294967295 < sampleRate)); [by right; right; left|].
    destruct (decide (32767 < channels)); [by right; right; right; left|].
    destruct (decide (4294967295 < sampleRate * (channels * 2)));
      [by right; right; right; right; left|].
    destruct (decide (4294967259 < Z.of_nat (length pcmBuf)));
      [by right; right; right; right; right|].
    exfalso. apply Hno. repeat split; lia.
  - intros H (Hsr & Hch & Hbr & Hsz). lia.
Qed.

(** ** The level of a chunk, in sample units *)

Lemma square_le_square (v a : Z) :
  - a <= v <= a -> (IZR v / 32768 * (IZR v / 32768) <= IZR a / 32768 * (IZR a / 32768))%R.
Proof.
  intros [Hl Hu]. apply IZR_le in Hl, Hu. rewrite opp_IZR in Hl. nra.
Qed.

Lemma square_ge_square (v a : Z) :
  0 <= a -> v <= - a \/ a <= v ->
  (IZR a / 32768 * (IZR a / 32768) <= IZR v / 32768 * (IZR v / 32768))%R.
Proof.
  intros Ha%IZR_le [H|H]; apply IZR_le in H; rewrite ?opp_IZR in H; nra.
Qed.

Lemma sum_squares_le (a : Z) (int16 : list Z) (acc : R) :
  Forall (fun v => - a <= v <= a) int16 ->
  (fold_left (fun (sum : R) (v : Z) => let s := (IZR v / 32768)%R in (sum + s * s)%R) int16 acc
   <= acc + INR (length int16) * (IZR a / 32768 * (IZR a / 32768)))%R.
Proof.
  intros H. revert acc. induction H as [|v l Hv _ IH]; intros acc.
  - cbn. lra.
  - cbn [fold_left length]. rewrite S_INR. cbv zeta.
    etrans; [apply IH|]. pose proof (square_le_square v a Hv). lra.
Qed.

Lemma sum_squares_ge (a : Z) (int16 : list Z) (acc : R) :
  0 <= a -> Forall (fun v => v <= - a \/ a <= v) int16 ->
  (acc + INR (length int16) * (IZR a / 32768 * (IZR a / 32768)) <=
   fold_left (fun (sum : R) (v : Z) => let s := (IZR v / 32768)%R in (sum + s * s)%R) int16 acc)%R.
Proof.
  intros Ha H. revert acc. induction H as [|v l Hv _ IH]; intros acc.
  - cbn. lra.
  - cbn [fold_left length]. rewrite S_INR. cbv zeta.
    etrans; [|apply IH]. pose proof (square_ge_square v a Ha Hv). lra.
Qed.

(** The root mean square of a non-empty chunk, as [rmsDbFS] computes it. *)
Lemma rms_le (a : Z) (int16 : list Z) :
  0 <= a -> int16 <> [] -> Forall (fun v => - a <= v <= a) int16 ->
  (sqrt (fold_left (fun (sum : R) (v : Z) => let s := (IZR v / 32768)%R in (sum + s * s)%R)
                   int16 0 / INR (length int16)) <= IZR a / 32768)%R.
Proof.
  intros Ha Hne H.
  assert (Hn : (0 < INR (length int16))%R) by (apply lt_0_INR; destruct int16; [done|cbn; lia]).
  assert (Hc : (0 <= IZR a / 32768)%R) by (apply IZR_le in Ha; lra).
  rewrite <- (sqrt_square (IZR a / 32768)) by done.
  apply sqrt_le_1_alt.
  pose proof (sum_squares_le a int16 0 H) as Hs.
  set (sum := fold_left _ int16 0%R) in *.
  apply (Rmult_le_reg_r (INR (length int16))); [done|].
  replace (sum / INR (length int16) * INR (length int16))%R with sum by (field; lra).
  lra.
Qed.

Lemma rms_ge (a : Z) (int16 : list Z) :
  0 <= a -> int16 <> [] -> Forall (fun v => v <= - a \/ a <= v) int16 ->
  (IZR a / 32768 <=
   sqrt (fold_left (fun (sum : R) (v : Z) => let s := (IZR v / 32768)%R in (sum + s * s)%R)
                   int16 0 / INR (length int16)))%R.
Proof.
  intros Ha Hne H.
  assert (Hn : (0 < INR (length int16))%R) by (apply lt_0_INR; destruct int16; [done|cbn; lia]).
  assert (Hc : (0 <= IZR a / 32768)%R) by (apply IZR_le in Ha; lra).
  rewrite <- (sqrt_square (IZR a / 32768)) at 1 by done.
  apply sqrt_le_1_alt.
  pose proof (sum_squares_ge a int16 0 Ha H) as Hs.
  set (sum := fold_left _ int16 0%R) in *.
  apply (Rmult_le_reg_r (INR (length int16))); [done|].
  replace (sum / INR (length int16) * INR (length int16))%R with sum by (field; lra).
  lra.
Qed.

(** -55 dB is the fourth root of 10^-11: [20 * log10 x < -55] says
    [x^4 < 10^-11]. *)
Lemma db_below_threshold (x : R) :
  (0 < x)%R -> (x ^ 4 < / 10 ^ 11)%R -> (20 * (ln x / ln 10) < -55)%R.
Proof.
  intros Hx H. pose proof ln10_pos as H10.
  assert (Hln : (ln (x ^ 4) < ln (/ 10 ^ 11))%R)
    by (apply ln_increasing; [apply pow_lt; lra|done]).
  rewrite ln_pow, ln_Rinv, ln_pow in Hln by (try apply pow_lt; lra).
  replace (INR 4) with 4%R in Hln by (cbn; lra).
  replace (INR 11) with 11%R in Hln by (cbn; lra).
  assert (ln x / ln 10 < - (11 / 4))%R; [|lra].
  apply (Rmult_lt_reg_r (ln 10)); [done|].
  replace (ln x / ln 10 * ln 10)%R with (ln x) by (field; lra). lra.
Qed.

Lemma db_above_threshold (x : R) :
  (0 < x)%R -> (/ 10 ^ 11 < x ^ 4)%R -> (-55 < 20 * (ln x / ln 10))%R.
Proof.
  intros Hx H. pose proof ln10_pos as H10.
  assert (Hln : (ln (/ 10 ^ 11) < ln (x ^ 4))%R)
    by (apply ln_increasing; [apply Rinv_0_lt_compat, pow_lt; lra|done]).
  rewrite ln_pow, ln_Rinv, ln_pow in Hln by (try apply pow_lt; lra).
  replace (INR 4) with 4%R in Hln by (cbn; lra).
  replace (INR 11) with 11%R in Hln by (cbn; lra).
  assert (- (11 / 4) < ln x / ln 10)%R; [|lra].
  apply (Rmult_lt_reg_r (ln 10)); [done|].
  replace (ln x / ln 10 * ln 10)%R with (ln x) by (field; lra). lra.
Qed.

Lemma rmsDbFS_nonempty (int16 : list Z) :
  int16 <> [] ->
  rmsDbFS int16 =
  Rmax (-120)
    (20 * (ln (sqrt (fold_left (fun (sum : R) (v : Z) =>
                                  let s := (IZR v / 32768)%R in (sum + s * s)%R) int16 0
                     / INR (length int16)) + 1e-12) / ln 10))%R.
Proof. by destruct int16. Qed.

(** The silence gate in sample units. -55 dBFS is a root mean square of
    about 58.3 on the scale of an Int16 sample: a chunk whose samples all
    lie within 58 of zero is below the threshold, the empty chunk too; a
    non-empty chunk whose samples are all 59 or more away from zero is not
    below it. The level is the real number that rmsDbFS approximates in
    double precision; the two bounds are 0.04 dB and 0.1 dB away from the
    threshold. *)
Theorem silence_gate_in_sample_units (int16 : list Z) :
  (Forall (fun v => -58 <= v <= 58) int16 -> (rmsDbFS int16 < IZR SILENCE_DB)%R) /\
  (int16 <> [] -> Forall (fun v => v <= -59 \/ 59 <= v) int16 ->
   ~ (rmsDbFS int16 < IZR SILENCE_DB)%R).
Proof.
  unfold SILENCE_DB. split.
  - intros H. destruct (decide (int16 = [])) as [->|Hne]; [cbn; lra|].
    pose proof (rms_le 58 int16 ltac:(lia) Hne H) as Hrms.
    rewrite rmsDbFS_nonempty by done.
    set (rms := sqrt _) in *.
    assert (Hpos : (0 <= rms)%R) by apply sqrt_pos.
    apply Rmax_lub_lt; [lra|].
    apply db_below_threshold; [lra|].
    eapply Rle_lt_trans; [apply (pow_incr _ (58 / 32768 + 1e-12)); lra|].
    lra.
  - intros Hne H Hlt.
    pose proof (rms_ge 59 int16 ltac:(lia) Hne H) as Hrms.
    rewrite rmsDbFS_nonempty in Hlt by done.
    set (rms := sqrt _) in *.
    assert (Hdb : (-55 < 20 * (ln (rms + 1e-12) / ln 10))%R).
    { apply db_above_threshold; [lra|].
      eapply Rlt_le_trans; [|apply (pow_incr (59 / 32768)); lra].
      lra. }
    pose proof (Rmax_r (-120) (20 * (ln (rms + 1e-12) / ln 10))). lra.
Qed.

Lemma silence_gate_in_sample_units_witness :
  (rmsDbFS [58; -58; 0; 12]%Z < IZR SILENCE_DB)%R /\
  ~ (rmsDbFS [59; -59; 200; -32768]%Z < IZR SILENCE_DB)%R.
Proof.
  split.
  - apply (proj1 (silence_gate_in_sample_units [58; -58; 0; 12])).
    repeat constructor; lia.
  - apply (proj2 (silence_gate_in_sample_units [59; -59; 200; -32768])); [done|].
    repeat constructor; lia.
Defined.

Lemma ln_1_plus (x : R) : (0 < x)%R -> (ln (1 + x) < x)%R.
Proof.
  intros Hx. rewrite <- (ln_exp x) at 2. apply ln_increasing; [lra|].
  apply exp_ineq1. lra.
Qed.

Lemma ln10_gt_1 : (1 < ln 10)%R.
Proof.
  rewrite <- (ln_exp 1) at 1. apply ln_increasing; [apply exp_pos|].
  pose proof exp_le_3. lra.
Qed.

(** The range of [rmsDbFS]: the level of a chunk of Int16 samples is never
    below -120 dB, which is also the level of the empty chunk, and never
    above 0 dB by more than 10^-10 (full scale, with the 10^-12 the
    function adds before the logarithm). *)
Theorem rmsDbFS_range (int16 : list Z) :
  Forall is_int16 int16 ->
  (-120 <= rmsDbFS int16 <= / 10 ^ 10)%R /\ rmsDbFS [] = (-120)%R.
Proof.
  intros H. split; [|reflexivity].
  destruct (decide (int16 = [])) as [->|Hne]; [cbn; lra|].
  assert (H' : Forall (fun v => - 32768 <= v <= 32768) int16).
  { eapply Forall_impl; [exact H|]. unfold is_int16. intros; lia. }
  pose proof (rms_le 32768 int16 ltac:(lia) Hne H') as Hrms.
  rewrite rmsDbFS_nonempty by done.
  set (rms := sqrt _) in *.
  assert (Hpos : (0 <= rms)%R) by apply sqrt_pos.
  split; [apply Rmax_l|]. apply Rmax_lub; [lra|].
  pose proof ln10_gt_1 as H10. pose proof (ln_1_plus 1e-12 ltac:(lra)) as H1.
  assert (Hln : (ln (rms + 1e-12) <= ln (1 + 1e-12))%R).
  { destruct (Rle_lt_or_eq_dec (rms + 1e-12) (1 + 1e-12)) as [Hlt|Heq]; [lra| |].
    - left. apply ln_increasing; lra.
    - right. by rewrite Heq. }
  assert (Hq : (ln (rms + 1e-12) / ln 10 <= 1e-12)%R).
  { apply (Rmult_le_reg_r (ln 10)); [lra|].
    replace (ln (rms + 1e-12) / ln 10 * ln 10)%R with (ln (rms + 1e-12)) by (field; lra).
    nra. }
  lra.
Qed.

Lemma rmsDbFS_range_witness :
  Forall is_int16 [32767; -32768; 0] /\
  (-120 <= rmsDbFS [32767; -32768; 0]%Z <= / 10 ^ 10)%R.
Proof.
  assert (H : Forall is_int16 [32767; -32768; 0%Z])
    by (repeat constructor; unfold is_int16; lia).
  split; [exact H|]. exact (proj1 (rmsDbFS_range [32767; -32768; 0%Z] H)).
Defined.

(** ** Reading the service's PCM *)

Lemma int16_octets_signed16 (b0 b1 : Z) :
  0 <= b0 < 256 -> 0 <= b1 < 256 ->
  is_int16 (signed16 (le16 [b0; b1])) /\
  int16_octets (signed16 (le16 [b0; b1])) = [b0; b1].
Proof.
  intros H0 H1. unfold is_int16, int16_octets, signed16, le16.
  rewrite !octet_div_mod by lia.
  change (2 ^ (8 * 0)) with 1. change (2 ^ (8 * 1)) with 256.
  destruct (Z.ltb_spec (b0 + 256 * b1) 32768); (split; [lia|]);
    f_equal; [|f_equal| |f_equal]; Z.div_mod_to_equations; lia.
Qed.

Lemma Int16Array_view_spec (n : nat) : forall buf : Buffer,
  (length buf <= n)%nat ->
  Forall (fun b => 0 <= b < 256) buf ->
  Forall is_int16 (Int16Array_view buf) /\
  length (Int16Array_view buf) = (length buf / 2)%nat /\
  Int16Array_octets (Int16Array_view buf) = take (2 * (length buf / 2)) buf.
Proof.
  induction n as [|n IH]; intros buf Hlen Hoct.
  - destruct buf; [|cbn in Hlen; lia]. cbn. by repeat split.
  - destruct buf as [|b0 [|b1 rest]]; [by repeat split|by repeat split|].
    inversion Hoct as [|? ? H0 Hoct']; subst. inversion Hoct' as [|? ? H1 Hrest]; subst.
    destruct (IH rest) as (Hint & Hl & Hre); [cbn in Hlen; lia|done|].
    destruct (int16_octets_signed16 b0 b1 H0 H1) as [Hs Ho].
    cbn [Int16Array_view]. split; [by constructor|]. split.
    + cbn [length]. rewrite Hl.
      change (S (S (length rest))) with (1 * 2 + length rest)%nat.
      rewrite Nat.div_add_l by lia. lia.
    + unfold Int16Array_octets in *. cbn [flat_map]. rewrite Ho, Hre.
      cbn [length].
      change (S (S (length rest))) with (1 * 2 + length rest)%nat.
      rewrite Nat.div_add_l by lia.
      replace (2 * (1 + length rest / 2))%nat with (S (S (2 * (length rest / 2)))) by lia.
      reflexivity.
Qed.

(** The response body is read as 16-bit samples, low octet first: the
    samples re-encode to the body's octets, in order, except for an odd
    last octet, which is left out. *)
Theorem Int16Array_view_reads_body (buf : Buffer) :
  Forall (fun b => 0 <= b < 256) buf ->
  Forall is_int16 (Int16Array_view buf) /\
  length (Int16Array_view buf) = (length buf / 2)%nat /\
  Int16Array_octets (Int16Array_view buf) = take (2 * (length buf / 2)) buf.
Proof. by apply (Int16Array_view_spec (length buf)). Qed.

Lemma Int16Array_view_reads_body_witness :
  Forall (fun b => 0 <= b < 256) [1; 0; 254; 255; 7] /\
  Int16Array_view [1; 0; 254; 255; 7] = [1; -2] /\
  Int16Array_octets (Int16Array_view [1; 0; 254; 255; 7]) = [1; 0; 254; 255].
Proof.
  assert (H : Forall (fun b => 0 <= b < 256) [1; 0; 254; 255; 7])
    by (repeat constructor; lia).
  split; [exact H|]. split; [reflexivity|].
  exact (proj2 (proj2 (Int16Array_view_reads_body [1; 0; 254; 255; 7] H))).
Defined.

(** What the worker sends is what a reader of the response format gets
    back: decoding the octets of an Int16Array gives the array. *)
Lemma Int16Array_view_octets (int16 : list Z) :
  Forall is_int16 int16 -> Int16Array_view (Int16Array_octets int16) = int16.
Proof.
  induction 1 as [|s l Hs _ IH]; [reflexivity|].
  unfold Int16Array_octets in *. cbn [flat_map int16_octets app Int16Array_view].
  rewrite IH. change [octet s 0; octet s 1] with (int16_octets s).
  by rewrite signed16_octets.
Qed.

(** ** The 20 ms frames *)

Lemma frameSlices_prefix (pcmAll : list Z) (k : nat) :
  (k * samplesPer20ms <= length pcmAll)%nat ->
  concat (map (fun j => take samplesPer20ms (drop (j * samplesPer20ms) pcmAll)) (seq 0 k)) =
  take (k * samplesPer20ms) pcmAll.
Proof.
  induction k as [|k IH]; intros Hk; [by rewrite take_0|].
  rewrite seq_S, map_app, concat_app, IH by lia. cbn [map concat Nat.add].
  rewrite app_nil_r.
  replace (S k * samplesPer20ms)%nat with (k * samplesPer20ms + samplesPer20ms)%nat by lia.
  rewrite <- (take_drop (k * samplesPer20ms) (take (k * samplesPer20ms + samplesPer20ms) pcmAll)).
  rewrite take_take, Nat.min_l by lia. f_equal.
  rewrite <- take_drop_commute. reflexivity.
Qed.

Lemma frameSlices_spec (pcmAll : list Z) :
  length (frameSlices pcmAll) = (length pcmAll / samplesPer20ms)%nat /\
  Forall (fun frame => length frame = samplesPer20ms) (frameSlices pcmAll) /\
  concat (frameSlices pcmAll) =
    take (length pcmAll / samplesPer20ms * samplesPer20ms) pcmAll.
Proof.
  assert (Hdiv : (length pcmAll / samplesPer20ms * samplesPer20ms <= length pcmAll)%nat).
  { rewrite Nat.mul_comm. apply Nat.Div0.mul_div_le. }
  unfold frameSlices. split; [by rewrite length_map, length_seq|]. split.
  - apply Forall_map, Forall_forall. intros j Hj%elem_of_seq. cbn beta.
    rewrite length_take, length_drop.
    assert ((j + 1) * samplesPer20ms <= length pcmAll)%nat; [|lia].
    etrans; [|exact Hdiv]. apply Nat.mul_le_mono_r. lia.
  - by apply frameSlices_prefix.
Qed.

(** ** Publishing a response whose captures all succeed *)

Lemma capturedFrames_app es1 es2 :
  capturedFrames (es1 ++ es2) = capturedFrames es1 ++ capturedFrames es2.
Proof. unfold capturedFrames. apply omap_app. Qed.

Lemma capturedFrames_captures source (slices : list (list Z)) :
  capturedFrames (map (fun slice => EvAwait unit (CaptureFrame source slice)) slices) =
  map (fun slice => (source, slice)) slices.
Proof. induction slices as [|s l IH]; [done|]. unfold capturedFrames in *. cbn. by rewrite IH. Qed.

Lemma exec_publishFrames_fulfilled (speakerIdentity : string) (route registered : Route)
    (samples : nat) (env : nat -> Env) (clock : nat -> Z) (slices : list (list Z)) :
  (forall j frame, env j unit (CaptureFrame (source route) frame) = Fulfilled tt) ->
  forall framesPublished i now w,
  connected w = true -> routes w !! speakerIdentity = Some registered ->
  ref registered ∉ nulled w -> ref route ∉ nulled w ->
  let r := exec env clock i now
             (publishFrames speakerIdentity route samples slices framesPublished now w) in
  res_completion r = Normal /\
  (forall t, quotaBlocks (res_worker r) t = false) /\
  lastSuccessfulCall (res_worker r) = res_now r /\
  exists es,
    trace (res_worker r) =
      trace w ++ map (fun slice => EvAwait unit (CaptureFrame (source route) slice)) slices ++
      es ++ [EvLog (LogComplete speakerIdentity samples (framesPublished + length slices))] /\
    capturedFrames es = [].
Proof.
  intros Henv. induction slices as [|slice rest IH]; intros framesPublished i now w
    Hconn Hreg Hr Hroute.
  - cbn [publishFrames]. unfold sendS2SChunk_mark. cbv zeta.
    rewrite Nat.add_0_r.
    change (quotaExhausted (set_lastSuccessfulCall now w)) with (quotaExhausted w).
    destruct (quotaExhausted w) as [t0|] eqn:E0;
      [destruct (t0 =? 0) eqn:E|];
      cbn [exec map app length res_completion res_worker res_now quotaExhausted lastSuccessfulCall
           set_quotaExhausted set_lastSuccessfulCall log emit set_trace trace];
      (split; [done|]); (split; [|split; [done|]]).
    + intros t. unfold quotaBlocks.
      cbn [quotaExhausted log emit set_trace set_lastSuccessfulCall]. by rewrite E0, E.
    + exists []. by rewrite app_nil_l.
    + done.
    + exists [EvLog LogQuotaRestored]. by rewrite <- app_assoc.
    + intros t. unfold quotaBlocks.
      cbn [quotaExhausted log emit set_trace set_lastSuccessfulCall]. by rewrite E0.
    + exists []. by rewrite app_nil_l.
  - assert (Hsrc : forall x, ref x ∉ nulled w -> route_source w x = Some (source x)).
    { intros x Hx. unfold route_source. by rewrite decide_False. }
    cbn [publishFrames]. rewrite Hreg, Hconn. cbn [mbind option_bind].
    rewrite !Hsrc by done. rewrite !bool_decide_eq_true_2 by eauto. cbn [negb orb].
    unfold await. cbn [exec]. rewrite Henv.
    destruct (IH (S framesPublished) (S i) (clock i)
                (emit (EvAwait unit (CaptureFrame (source route) slice)) w))
      as (Hc & Hq & Hl & es & Ht & Hes); [done..|].
    split; [exact Hc|]. split; [exact Hq|]. split; [exact Hl|].
    exists es. split; [|exact Hes].
    rewrite Ht. cbn [trace emit set_trace map length]. rewrite <- !app_assoc. cbn [app].
    by rewrite Nat.add_succ_r.
Qed.

(** A response whose frames are all captured. The body is cut into frames
    of 960 samples (20 ms) that are handed to the route's source in order;
    together they are the first whole frames of the decoded body, and what
    is left over, fewer than 960 samples, is never published. The call
    returns, reports the number of frames, and leaves no quota state that
    blocks a call. *)
Theorem response_published_in_20ms_frames (speakerIdentity : string)
    (route registered : Route) (buf : Buffer) (env : nat -> Env) (clock : nat -> Z)
    (i : nat) (now : Z) (w : Worker) :
  buf <> [] ->
  connected w = true -> routes w !! speakerIdentity = Some registered ->
  ref registered ∉ nulled w -> ref route ∉ nulled w ->
  (forall j frame, env j unit (CaptureFrame (source route) frame) = Fulfilled tt) ->
  let r := exec env clock i now
             (sendS2SChunk_body speakerIdentity route (Fulfilled buf) now w) in
  let pcmAll := Int16Array_view buf in
  let frames := capturedFrames (events_since w (res_worker r)) in
  res_completion r = Normal /\
  map fst frames = replicate (length pcmAll / 960) (source route) /\
  Forall (fun frame => length frame = 960%nat) (map snd frames) /\
  concat (map snd frames) = take (length pcmAll / 960 * 960) pcmAll /\
  last (events_since w (res_worker r)) =
    Some (EvLog (LogComplete speakerIdentity (length pcmAll) (length pcmAll / 960))) /\
  (forall t, quotaBlocks (res_worker r) t = false).
Proof.
  intros Hbuf Hconn Hreg Hr Hroute Henv. cbv zeta.
  unfold sendS2SChunk_body.
  destruct buf as [|b buf]; [done|]. cbn [length Nat.eqb].
  assert (Hsrc : route_source w route = Some (source route)).
  { unfold route_source. by rewrite decide_False. }
  rewrite Hsrc, bool_decide_eq_true_2 by eauto. cbn [negb].
  set (pcmAll := Int16Array_view (b :: buf)).
  destruct (exec_publishFrames_fulfilled speakerIdentity route registered (length pcmAll)
              env clock (frameSlices pcmAll) Henv 0%nat i now w Hconn Hreg Hr Hroute)
    as (Hc & Hq & _ & es & Ht & Hes).
  destruct (frameSlices_spec pcmAll) as (Hn & Hlen & Hcat).
  change samplesPer20ms with 960%nat in Hn, Hlen, Hcat.
  rewrite (events_since_app _ _ _ Ht).
  rewrite !capturedFrames_app, capturedFrames_captures, Hes. cbn [capturedFrames omap list_omap app].
  rewrite app_nil_r, !map_map. cbn [fst snd].
  split; [exact Hc|]. split; [|split; [|split; [|split; [|exact Hq]]]].
  - rewrite <- Hn. clear. induction (frameSlices pcmAll) as [|f l IH]; [done|].
    cbn [map length replicate]. by rewrite IH.
  - by rewrite map_id.
  - by rewrite map_id.
  - rewrite !app_assoc, last_snoc. by rewrite Hn.
Qed.

Lemma response_published_in_20ms_frames_witness :
  let route := {| ref := 2; key := routeKeyOf "A"; voiceId := "v1"; source := 0; track := 1 |} in
  let w := worker_with_route "A" "v1" in
  let buf := replicate 1922 7 in
  let r := exec (fun _ => fulfilled) (fun _ => 0) 0 0
             (sendS2SChunk_body "A" route (Fulfilled buf) 0 w) in
  let pcmAll := Int16Array_view buf in
  let frames := capturedFrames (events_since w (res_worker r)) in
  res_completion r = Normal /\
  map fst frames = replicate (length pcmAll / 960) (source route) /\
  Forall (fun frame => length frame = 960%nat) (map snd frames) /\
  concat (map snd frames) = take (length pcmAll / 960 * 960) pcmAll /\
  last (events_since w (res_worker r)) =
    Some (EvLog (LogComplete "A" (length pcmAll) (length pcmAll / 960))) /\
  (forall t, quotaBlocks (res_worker r) t = false).
Proof.
  intros route w buf.
  apply (response_published_in_20ms_frames "A" route route buf (fun _ => fulfilled)
           (fun _ => 0) 0%nat 0 w).
  - discriminate.
  - reflexivity.
  - apply lookup_singleton_eq.
  - apply not_elem_of_empty.
  - apply not_elem_of_empty.
  - intros j frame. reflexivity.
Defined.

(** ** A capture that fails *)

(** The publishing loop when every call of captureFrame returns: but for
    the quota state, the time of the last success and the trace, the
    worker's state is left as it was, and the trace gets the captures, the
    line on the restored quota if there is one, and the line on the
    completed chunk. *)
Lemma exec_publishFrames_returning (speakerIdentity : string) (route registered : Route)
    (samples : nat) (env : nat -> Env) (clock : nat -> Z) (slices : list (list Z)) :
  (forall j frame, env j unit (CaptureFrame (source route) frame) = Fulfilled tt) ->
  forall framesPublished i now w,
  connected w = true -> routes w !! speakerIdentity = Some registered ->
  ref registered ∉ nulled w -> ref route ∉ nulled w ->
  let r := exec env clock i now
             (publishFrames speakerIdentity route samples slices framesPublished now w) in
  recentlyRecreated (res_worker r) = recentlyRecreated w /\
  timers (res_worker r) = timers w /\
  routes (res_worker r) = routes w /\
  activeS2S (res_worker r) = activeS2S w /\
  exists es,
    trace (res_worker r) =
      trace w ++ map (fun slice => EvAwait unit (CaptureFrame (source route) slice)) slices ++
      es ++ [EvLog (LogComplete speakerIdentity samples (framesPublished + length slices))] /\
    (es = [] \/ es = [EvLog LogQuotaRestored]).
Proof.
  intros Henv. induction slices as [|slice rest IH]; intros framesPublished i now w
    Hconn Hreg Hr Hroute.
  - cbn [publishFrames]. unfold sendS2SChunk_mark. cbv zeta.
    rewrite Nat.add_0_r.
    change (quotaExhausted (set_lastSuccessfulCall now w)) with (quotaExhausted w).
    destruct (quotaExhausted w) as [t0|] eqn:E0;
      [destruct (t0 =? 0) eqn:E|];
      cbn [exec map app length res_completion res_worker res_now quotaExhausted lastSuccessfulCall
           recentlyRecreated timers routes activeS2S
           set_quotaExhausted set_lastSuccessfulCall log emit set_trace trace];
      repeat (split; [done|]).
    + exists []. split; [by rewrite app_nil_l|by left].
    + exists [EvLog LogQuotaRestored]. split; [by rewrite <- app_assoc|by right].
    + exists []. split; [by rewrite app_nil_l|by left].
  - assert (Hsrc : forall x, ref x ∉ nulled w -> route_source w x = Some (source x)).
    { intros x Hx. unfold route_source. by rewrite decide_False. }
    cbn [publishFrames]. rewrite Hreg, Hconn. cbn [mbind option_bind].
    rewrite !Hsrc by done. rewrite !bool_decide_eq_true_2 by eauto. cbn [negb orb].
    unfold await. cbn [exec]. rewrite Henv.
    destruct (IH (S framesPublished) (S i) (clock i)
                (emit (EvAwait unit (CaptureFrame (source route) slice)) w))
      as (Hrr & Htm & Hro & Hac & es & Ht & Hes); [done..|].
    repeat (split; [done|]).
    exists es. split; [|exact Hes].
    rewrite Ht. cbn [trace emit set_trace map length]. rewrite <- !app_assoc. cbn [app].
    by rewrite Nat.add_succ_r.
Qed.

Lemma count_captures (p : Event -> bool) source (slices : list (list Z)) :
  (forall slice, p (EvAwait unit (CaptureFrame source slice)) = true) ->
  count p (map (fun slice => EvAwait unit (CaptureFrame source slice)) slices) = length slices.
Proof.
  intros Hp. induction slices as [|s l IH]; [done|].
  unfold count in *. cbn [map List.filter]. rewrite Hp. cbn [length]. by rewrite IH.
Qed.

(** C7. A frame capture that fails, as the library's async captureFrame
    fails: every call returns and drops its promise, and one of the promises
    is rejected with an InvalidState error. The rejection comes to the
    process's unhandledRejection handler, which passes it over, and never
    to the handlers around the call: every frame of the chunk is handed to
    captureFrame and counted as published, recreateRouteForParticipant is
    not called, the speaker is not marked as recently recreated, no timer
    is set, and the registry and the active set are as they were. *)
Theorem capture_rejection_recreates_nothing (speakerIdentity : string)
    (route registered : Route) (buf : Buffer) (reason : JsError) (env : nat -> Env)
    (clock : nat -> Z) (i : nat) (now : Z) (w : Worker) :
  buf <> [] ->
  connected w = true -> routes w !! speakerIdentity = Some registered ->
  ref registered ∉ nulled w -> ref route ∉ nulled w ->
  (forall j frame, env j unit (CaptureFrame (source route) frame) = Fulfilled tt) ->
  includes (err_message reason) "InvalidState" = true ->
  let r := exec env clock i now
             (sendS2SChunk_body speakerIdentity route (Fulfilled buf) now w) in
  let w' := onUnhandledRejection reason (res_worker r) in
  let frames := (length (Int16Array_view buf) / 960)%nat in
  res_completion r = Normal /\
  count is_capture (events_since w w') = frames /\
  count (is_recreate speakerIdentity) (events_since w w') = 0%nat /\
  last (events_since w w') =
    Some (EvLog (LogComplete speakerIdentity (length (Int16Array_view buf)) frames)) /\
  recentlyRecreated w' = recentlyRecreated w /\
  timers w' = timers w /\
  routes w' = routes w /\
  activeS2S w' = activeS2S w.
Proof.
  intros Hbuf Hconn Hreg Hr Hroute Henv Hreason. cbv zeta.
  unfold onUnhandledRejection. rewrite Hreason.
  unfold sendS2SChunk_body.
  destruct buf as [|b buf]; [done|]. cbn [length Nat.eqb].
  assert (Hsrc : route_source w route = Some (source route)).
  { unfold route_source. by rewrite decide_False. }
  rewrite Hsrc, bool_decide_eq_true_2 by eauto. cbn [negb].
  set (pcmAll := Int16Array_view (b :: buf)).
  destruct (exec_publishFrames_fulfilled speakerIdentity route registered (length pcmAll)
              env clock (frameSlices pcmAll) Henv 0%nat i now w Hconn Hreg Hr Hroute)
    as (Hc & _).
  destruct (exec_publishFrames_returning speakerIdentity route registered (length pcmAll)
              env clock (frameSlices pcmAll) Henv 0%nat i now w Hconn Hreg Hr Hroute)
    as (Hrr & Htm & Hro & Hac & es & Ht & Hes).
  destruct (frameSlices_spec pcmAll) as (Hn & _).
  change samplesPer20ms with 960%nat in Hn.
  rewrite (events_since_app _ _ _ Ht), !count_app.
  rewrite (count_captures is_capture) by done.
  assert (Hnone : count (is_recreate speakerIdentity)
            (map (fun slice => EvAwait unit (CaptureFrame (source route) slice))
                 (frameSlices pcmAll)) = 0%nat).
  { apply count_zero_Forall, Forall_forall. intros e [slice [-> _]]%list_elem_of_fmap. done. }
  rewrite Hnone, Hn.
  split; [exact Hc|]. repeat split; try done.
  - destruct Hes as [->| ->]; cbn; lia.
  - by destruct Hes as [->| ->].
  - by rewrite !app_assoc, last_snoc.
Qed.

Lemma capture_rejection_recreates_nothing_witness :
  let route := {| ref := 2; key := routeKeyOf "A"; voiceId := "v1"; source := 0; track := 1 |} in
  let w := worker_with_route "A" "v1" in
  let r := exec (fun _ => fulfilled) (fun _ => 0) 0 0
             (sendS2SChunk_body "A" route (Fulfilled (replicate 3840 0)) 0 w) in
  let w' := onUnhandledRejection invalidState (res_worker r) in
  count is_capture (events_since w w') = 2%nat /\
  count (is_recreate "A") (events_since w w') = 0%nat /\
  last (events_since w w') = Some (EvLog (LogComplete "A" 1920 2)) /\
  recentlyRecreated w' = ∅ /\
  timers w' = [] /\
  routes w' = routes w /\
  activeS2S w' = {["A"%string]}.
Proof.
  intros route w.
  destruct (capture_rejection_recreates_nothing "A" route route (replicate 3840 0) invalidState
              (fun _ => fulfilled) (fun _ => 0) 0%nat 0 w)
    as (_ & Hcap & Hrec & Hlast & Hrr & Htm & Hro & Hac).
  - discriminate.
  - reflexivity.
  - apply lookup_singleton_eq.
  - apply not_elem_of_empty.
  - apply not_elem_of_empty.
  - intros j frame. reflexivity.
  - reflexivity.
  - cbv zeta. repeat split; assumption.
Defined.

(** ** The quota reset timer *)

(** The quota reset timer changes no decision of the quota gate. When its
    callback runs at time [now], every call of sendS2SChunk made then or
    later is let through or skipped exactly as it would have been without
    the callback: the gate stops blocking 60 s after the failure by itself,
    and the callback clears the state only later than that. *)
Theorem quotaResetTick_changes_no_gate (now t : Z) (w : Worker) :
  now <= t -> quotaBlocks (quotaResetTick now w) t = quotaBlocks w t.
Proof.
  intros Ht. unfold quotaResetTick, quotaBlocks.
  destruct (quotaExhausted w) as [T|] eqn:E; [|by rewrite E].
  destruct (Z.eqb_spec T 0) as [->|Hne]; cbn [negb andb]; [by rewrite E|].
  destruct (Z.ltb_spec 60000 (now - T)).
  - cbn [quotaExhausted set_quotaExhausted]. symmetry.
    destruct (Z.ltb_spec (t - T) 60000); [lia|done].
  - rewrite E. by destruct (Z.eqb_spec T 0).
Qed.

Lemma quotaResetTick_changes_no_gate_witness :
  quotaBlocks (quotaResetTick 70000
                 (set_quotaExhausted (Some 5000) (worker_with_route "A" "v1"))) 70001 =
  quotaBlocks (set_quotaExhausted (Some 5000) (worker_with_route "A" "v1")) 70001.
Proof.
  apply (quotaResetTick_changes_no_gate 70000 70001). lia.
Defined.

(** When the callback clears the state: only when more than 60 s have
    passed since the failure. At exactly 60 s the state stays, although the
    gate no longer blocks. *)
Lemma quotaResetTick_clears_iff (now T : Z) (w : Worker) :
  quotaExhausted w = Some T -> T <> 0 ->
  (quotaExhausted (quotaResetTick now w) = None <-> 60000 < now - T) /\
  (quotaExhausted (quotaResetTick now w) = None \/
   quotaExhausted (quotaResetTick now w) = Some T).
Proof.
  intros E Hne. unfold quotaResetTick. rewrite E.
  destruct (Z.eqb_spec T 0); [done|]. cbn [negb andb].
  destruct (Z.ltb_spec 60000 (now - T)); cbn [quotaExhausted set_quotaExhausted].
  - split; [done|by left].
  - rewrite E. split; [|by right]. split; [done|lia].
Qed.

(** ** A participant leaves *)

(** handleParticipantDisconnected, run to its end: the participant's voice
    assignment is gone and the participant is out of the active set; its
    route object has lost its source; the route is taken out of the
    registry when the track was unpublished, and stays registered, without
    a source, when unpublishing failed. The routes and voices of the other
    participants are untouched. *)
Theorem handleParticipantDisconnected_outcome (participantIdentity : string)
    (env : nat -> Env) (clock : nat -> Z) (i : nat) (now : Z) (w : Worker) :
  let r := exec env clock i now (handleParticipantDisconnected participantIdentity w) in
  let w' := res_worker r in
  res_completion r = Normal /\
  participantVoices w' = delete participantIdentity (participantVoices w) /\
  activeS2S w' = activeS2S w ∖ {[participantIdentity]} /\
  match routes w !! participantIdentity with
  | None => routes w' = routes w /\ nulled w' = nulled w
  | Some route =>
      nulled w' = {[ref route]} ∪ nulled w /\
      route_source w' route = None /\
      match env i unit (UnpublishTrack (track route)) with
      | Fulfilled _ => routes w' = delete participantIdentity (routes w)
      | Rejected _ => routes w' = routes w
      end
  end.
Proof.
  cbv zeta. unfold handleParticipantDisconnected. cbv zeta.
  cbn [routes set_activeS2S].
  destruct (routes w !! participantIdentity) as [route|]; [|done].
  unfold await. cbn [exec].
  assert (Hn : forall x : Worker, nulled x = {[ref route]} ∪ nulled w ->
                                 route_source x route = None).
  { intros x Hx. unfold route_source. rewrite decide_True; [done|]. rewrite Hx.
    apply elem_of_union_l. by apply elem_of_singleton. }
  destruct (env i unit (UnpublishTrack (track route))) as [[]|e];
    cbn -[difference union lookup delete route_source]; repeat split; by apply Hn.
Qed.

(** Once handleParticipantDisconnected has run its first segment, nothing
    more is relayed for the participant, for as long as the registry holds
    the old route or none for it: a new chunk of the participant is not
    sent to the service, and the response to a chunk sent earlier is not
    published (its call holds the old route object, whose source is gone).
    This holds while the unpublish is still pending, and if it fails. *)
Theorem disconnect_stops_relay (participantIdentity : string) (w w' : Worker) :
  nulled (first_worker (handleParticipantDisconnected participantIdentity w)) ⊆ nulled w' ->
  routes w' !! participantIdentity = routes w !! participantIdentity \/
  routes w' !! participantIdentity = None ->
  (participantIdentity ∉
     activeS2S (first_worker (handleParticipantDisconnected participantIdentity w))) /\
  (forall int16 now,
     exists w'', sendS2SChunk participantIdentity int16 now w' = Finished w'' Normal /\
                 count is_fetch (events_since w' w'') = 0%nat) /\
  (forall route res now,
     routes w !! participantIdentity = Some route ->
     exists w'', sendS2SChunk_body participantIdentity route res now w' = Finished w'' Normal /\
                 count is_capture (events_since w' w'') = 0%nat).
Proof.
  intros Hnulled Hroutes.
  assert (Hfirst : (participantIdentity ∉
            activeS2S (first_worker (handleParticipantDisconnected participantIdentity w))) /\
          forall route, routes w !! participantIdentity = Some route ->
            ref route ∈ nulled (first_worker (handleParticipantDisconnected participantIdentity w))).
  { assert (Hd : participantIdentity ∉ activeS2S w ∖ {[participantIdentity]}).
    { apply not_elem_of_difference. right. by apply elem_of_singleton. }
    unfold handleParticipantDisconnected. cbv zeta. cbn [routes set_activeS2S].
    destruct (routes w !! participantIdentity) as [route|];
      cbn -[difference union]; (split; [exact Hd|]); [|done].
    intros ? [= <-]. apply elem_of_union_l. by apply elem_of_singleton. }
  destruct Hfirst as [Hactive Href]. split; [exact Hactive|].
  assert (Hgone : forall route, routes w !! participantIdentity = Some route ->
                                forall x, nulled x = nulled w' -> route_source x route = None).
  { intros route Hr x Hx. unfold route_source. rewrite decide_True; [done|].
    rewrite Hx. apply Hnulled, Href, Hr. }
  assert (Hlog : forall l e (x : Worker), count is_fetch (events_since x (log l (emit e x))) =
                   (if is_fetch e then 1 else 0)%nat).
  { intros l e x. unfold events_since. cbn [trace log emit set_trace].
    rewrite <- app_assoc, drop_app_length. unfold count. cbn. by destruct (is_fetch e). }
  split.
  - intros int16 now. unfold sendS2SChunk. cbv zeta.
    destruct (negb (connected _)); [eexists; split; [reflexivity|apply Hlog]|].
    cbn [routes emit set_trace].
    destruct (routes w' !! participantIdentity) as [route|] eqn:E;
      [|eexists; split; [reflexivity|apply Hlog]].
    destruct Hroutes as [Hsame|?]; [|congruence].
    unfold route_usable. rewrite (Hgone route ltac:(congruence)) by reflexivity.
    rewrite bool_decide_eq_false_2 by (by intros [? ?]). cbn [andb negb].
    eexists; split; [reflexivity|apply Hlog].
  - intros route res now Hr. unfold sendS2SChunk_body, sendS2SChunk_catch.
    assert (Hcap : forall l (x : Worker), count is_capture (events_since x (log l x)) = 0%nat).
    { intros l x. unfold events_since. cbn [trace log emit set_trace].
      by rewrite drop_app_length. }
    destruct res as [buf|e].
    + destruct (length buf =? 0)%nat; [eexists; split; [reflexivity|apply Hcap]|].
      rewrite (Hgone route Hr) by reflexivity.
      rewrite bool_decide_eq_false_2 by (by intros [? ?]). cbn [negb].
      eexists; split; [reflexivity|apply Hcap].
    + case_match; eexists; (split; [reflexivity|apply Hcap]).
Qed.

Lemma disconnect_stops_relay_witness :
  exists w'',
    sendS2SChunk "A" loudFrame 1000
      (first_worker (handleParticipantDisconnected "A" (worker_with_route "A" "v1"))) =
      Finished w'' Normal /\
    count is_fetch
      (events_since
         (first_worker (handleParticipantDisconnected "A" (worker_with_route "A" "v1"))) w'') =
      0%nat.
Proof.
  apply (disconnect_stops_relay "A" (worker_with_route "A" "v1")
           (first_worker (handleParticipantDisconnected "A" (worker_with_route "A" "v1")))).
  - done.
  - left. reflexivity.
Defined.

(** ** One request per chunk *)

Lemma recreateRoute_create_no_request participantIdentity voiceInfo w :
  Emits no_request returns w (recreateRoute_create participantIdentity voiceInfo w).
Proof. unfold recreateRoute_create. repeat emits_step. Qed.

Lemma recreateRouteForParticipant_no_request participantIdentity w :
  Emits no_request returns w (recreateRouteForParticipant participantIdentity w).
Proof.
  unfold recreateRouteForParticipant. cbv zeta.
  repeat emits_step; try apply recreateRoute_create_no_request.
  all: eapply Emits_appends_l; [|apply recreateRoute_create_no_request]; solve_appends.
Qed.

Lemma sendS2SChunk_catch_no_request speakerIdentity e w :
  Emits no_request returns w (sendS2SChunk_catch speakerIdentity e w).
Proof. unfold sendS2SChunk_catch. repeat emits_step. Qed.

Lemma sendS2SChunk_mark_no_request speakerIdentity samples framesPublished now w :
  Emits no_request returns w (sendS2SChunk_mark speakerIdentity samples framesPublished now w).
Proof. unfold sendS2SChunk_mark. repeat emits_step. Qed.

Lemma sendS2SChunk_frameError_no_request speakerIdentity samples framesPublished e now w :
  Emits no_request returns w
        (sendS2SChunk_frameError speakerIdentity samples framesPublished e now w).
Proof.
  unfold sendS2SChunk_frameError. cbv zeta.
  eapply Emits_appends_l; [|apply sendS2SChunk_mark_no_request]. solve_appends.
Qed.

Lemma sendS2SChunk_captureError_no_request speakerIdentity samples framesPublished e now w :
  Emits no_request returns w
        (sendS2SChunk_captureError speakerIdentity samples framesPublished e now w).
Proof.
  unfold sendS2SChunk_captureError. cbv zeta. repeat case_match.
  - apply sendS2SChunk_frameError_no_request.
  - eapply Emits_bind.
    + eapply Emits_appends_l; [|apply recreateRouteForParticipant_no_request]. solve_appends.
    + intros now' w' c _. destruct c; apply sendS2SChunk_frameError_no_request.
  - eapply Emits_appends_l; [|apply sendS2SChunk_frameError_no_request]. solve_appends.
Qed.

Lemma publishFrames_no_request speakerIdentity route samples slices framesPublished now w :
  Emits no_request returns w
        (publishFrames speakerIdentity route samples slices framesPublished now w).
Proof.
  revert framesPublished now w.
  induction slices as [|slice rest IH]; intros framesPublished now w; cbn [publishFrames].
  - apply sendS2SChunk_mark_no_request.
  - repeat case_match;
      try (eapply Emits_appends_l; [|apply sendS2SChunk_mark_no_request]; solve_appends).
    apply Emits_await; [done|solve_appends|]. intros [[]|e] now' w'.
    + apply IH.
    + apply sendS2SChunk_captureError_no_request.
Qed.

Lemma sendS2SChunk_response_no_request speakerIdentity route res now w :
  Emits no_request returns w (sendS2SChunk_response speakerIdentity route res now w).
Proof.
  unfold sendS2SChunk_response. repeat case_match.
  - apply Emits_await; [done|solve_appends|]. intros.
    unfold sendS2SChunk_errorText. repeat emits_step.
  - apply Emits_await; [done|solve_appends|]. intros.
    unfold sendS2SChunk_body. repeat case_match; try (repeat emits_step; fail).
    + apply publishFrames_no_request.
    + apply sendS2SChunk_catch_no_request.
  - apply sendS2SChunk_catch_no_request.
Qed.

(** One call of sendS2SChunk makes at most one request to the service and
    never repeats it. The call either returns at once without a request,
    or it sends one request, for the voice of the speaker's registered
    route and with the WAV file of this chunk; whatever the service answers
    and whatever the other calls do meanwhile, the rest of the call makes no
    further request and returns. *)
Theorem sendS2SChunk_one_request (speakerIdentity : string) (int16 : list Z) (now : Z)
    (w : Worker) :
  (exists w', sendS2SChunk speakerIdentity int16 now w = Finished w' Normal /\
              count is_fetch (events_since w w') = 0%nat) \/
  (exists w' route wav,
     routes w !! speakerIdentity = Some route /\
     pcmToWavBuffer int16 VOICE_SAMPLE_RATE = Some wav /\
     sendS2SChunk speakerIdentity int16 now w =
       Suspended w' Z (Fetch (voiceId route) wav) (sendS2SChunk_response speakerIdentity route) /\
     count is_fetch (events_since w w') = 1%nat /\
     forall res now' w'',
       Emits no_request returns w'' (sendS2SChunk_response speakerIdentity route res now' w'')).
Proof.
  assert (Hlog : forall l, count is_fetch
             (events_since w (log l (emit (EvSendS2SChunk speakerIdentity int16 now) w)))
             = 0%nat).
  { intros l. unfold events_since. cbn [trace log emit set_trace].
    rewrite <- app_assoc. by rewrite drop_app_length. }
  assert (Hemit : count is_fetch
             (events_since w (emit (EvSendS2SChunk speakerIdentity int16 now) w)) = 0%nat).
  { unfold events_since. cbn [trace emit set_trace]. by rewrite drop_app_length. }
  unfold sendS2SChunk, sendS2SChunk_catch. cbv zeta. cbn [routes emit set_trace].
  repeat case_match; try (left; eexists; split; [reflexivity|done]).
  all: try (left; eexists; split; [reflexivity|];
            unfold events_since; cbn [trace log emit set_trace];
            rewrite <- !app_assoc; by rewrite drop_app_length).
  right. eexists _, _, _. split; [reflexivity|]. split; [reflexivity|].
  split; [reflexivity|]. split.
  - unfold events_since. cbn [trace log emit set_trace].
    rewrite <- !app_assoc. by rewrite drop_app_length.
  - intros. apply sendS2SChunk_response_no_request.
Qed.

(** ** A participant joins *)

(** handleParticipantConnected, run to its end. The call returns, and
    the participant has a voice whatever the lookup does: the server's
    selection when the lookup answers a truthy one, the default voice when
    it answers none, and the same voice under the fallback name when the
    lookup throws. When the route's track is published, the participant's
    route is a new one with that voice, under the name from-<identity>;
    when publishing fails, the participant's entry in the registry is left
    as it was. The voices and routes of the others are not touched. *)
Theorem handleParticipantConnected_outcome (S2S_CHUNK_MS : Z) (existing : option Track)
    (participantIdentity : string) (env : nat -> Env) (clock : nat -> Z) (i : nat) (now : Z)
    (w : Worker) :
  let r := exec env clock i now
             (handleParticipantConnected S2S_CHUNK_MS existing participantIdentity now w) in
  let w' := res_worker r in
  let assigned :=
    match env i (option string) (LookupVoice participantIdentity) with
    | Fulfilled (Some v) =>
        if truthy_string v then {| vi_voiceId := v; vi_voiceName := "Custom Voice" |}
        else {| vi_voiceId := "pNInz6obpgDQGcFmaJgB"; vi_voiceName := "Adam (Default)" |}
    | Fulfilled None =>
        {| vi_voiceId := "pNInz6obpgDQGcFmaJgB"; vi_voiceName := "Adam (Default)" |}
    | Rejected _ =>
        {| vi_voiceId := "pNInz6obpgDQGcFmaJgB"; vi_voiceName := "Adam (Fallback)" |}
    end in
  res_completion r = Normal /\
  participantVoices w' !! participantIdentity = Some assigned /\
  (forall other, other <> participantIdentity ->
     participantVoices w' !! other = participantVoices w !! other /\
     routes w' !! other = routes w !! other) /\
  match env (S i) unit (PublishTrack (S (nextId w)) (routeKeyOf participantIdentity)) with
  | Fulfilled _ =>
      routes w' !! participantIdentity =
        Some {| ref := nextId w + 2; key := routeKeyOf participantIdentity;
                voiceId := vi_voiceId assigned; source := nextId w; track := S (nextId w) |}
  | Rejected _ => routes w' !! participantIdentity = routes w !! participantIdentity
  end.
Proof.
  cbv zeta. unfold handleParticipantConnected, loadParticipantVoice, await.
  cbn [bindStep exec].
  assert (Hstart : forall w0 : Worker,
    let r := exec env clock (S (S i)) (clock (S i))
               (startAudioStreamIfTrackExists S2S_CHUNK_MS existing participantIdentity w0) in
    res_completion r = Normal /\ participantVoices (res_worker r) = participantVoices w0 /\
    routes (res_worker r) = routes w0).
  { intros w0. unfold startAudioStreamIfTrackExists, _startAudioStream.
    destruct existing as [[|frame stream]|]; repeat case_match; by cbn. }
  destruct (env i (option string) (LookupVoice participantIdentity)) as [[v|]|e0];
    [destruct (truthy_string v)| |];
    cbn [bindStep exec]; unfold setupRouteForParticipant;
    cbn [participantVoices log emit set_trace set_participantVoices];
    rewrite lookup_insert_eq; unfold await; cbn [exec];
    cbn [nextId set_nextId log emit set_trace set_participantVoices];
    (destruct (env (S i) unit _) as [[]|e];
     [ match goal with
       | |- context [exec _ _ _ _ (startAudioStreamIfTrackExists _ _ _ ?w0)] =>
           destruct (Hstart w0) as (Hc & Hpv & Hr); rewrite Hc, Hpv, Hr
       end;
       cbn [participantVoices routes log emit set_trace set_routes set_nextId
            set_participantVoices vi_voiceId];
       rewrite !lookup_insert_eq
     | cbn [exec res_completion res_worker participantVoices routes log emit set_trace
            set_nextId set_participantVoices];
       rewrite lookup_insert_eq ];
     repeat split; try done; by rewrite lookup_insert_ne).
Qed.

(** ** Calls seen from the shared state *)

Section Guards.

Variable G : Worker -> Worker -> Prop.
Variable Gs : string -> Worker -> Worker -> Prop.
Variable Pl : string -> Worker -> Prop.
Hypothesis G_trans : forall w0 w1 w2, G w0 w1 -> G w1 w2 -> G w0 w2.
Hypothesis Gs_trans : forall sp w0 w1 w2, G w0 w1 -> Gs sp w1 w2 -> Gs sp w0 w2.

Lemma Guards_shift P w0 w1 s : G w0 w1 -> Guards G Gs Pl P w1 s -> Guards G Gs Pl P w0 s.
Proof.
  intros H E. revert w0 H.
  induction E as [P w1 w c Hg Hp|P w1 w X req k Hg Hk IH|P w1 sp w X req k rest Hg Hk IHk Hr IHr];
    intros w0 H0.
  - constructor; [by eapply G_trans|done].
  - constructor; [by eapply G_trans|done].
  - constructor; [by eapply Gs_trans|done|done].
Qed.

Lemma Guards_impl (P P' : Worker -> Prop) w0 s :
  (forall w, P w -> P' w) -> Guards G Gs Pl P w0 s -> Guards G Gs Pl P' w0 s.
Proof.
  intros HP E. revert P' HP.
  induction E as [P w1 w c Hg Hp|P w1 w X req k Hg Hk IH|P w1 sp w X req k rest Hg Hk IHk Hr IHr];
    intros P' HP.
  - constructor; [done|by apply HP].
  - constructor; [done|]. intros. by apply IH.
  - constructor; [done|done|]. intros. by apply IHr.
Qed.

Lemma Guards_bind (P1 P2 : Worker -> Prop) w0 s now f :
  Guards G Gs Pl P1 w0 s ->
  (forall now' w c, P1 w -> Guards G Gs Pl P2 w (f now' w c)) ->
  Guards G Gs Pl P2 w0 (bindStep s now f).
Proof.
  intros E. revert now P2 f.
  induction E as [P w1 w c Hg Hp|P w1 w X req k Hg Hk IH|P w1 sp w X req k rest Hg Hk IHk Hr IHr];
    intros now0 P2 f Hf; cbn [bindStep].
  - eapply Guards_shift; [done|]. by apply Hf.
  - constructor; [done|]. intros. by apply IH.
  - constructor; [done|done|]. intros. by apply IHr.
Qed.

End Guards.

(** ** The active set and the running loops *)

Lemma active_shrinks_trans w0 w1 w2 :
  active_shrinks w0 w1 -> active_shrinks w1 w2 -> active_shrinks w0 w2.
Proof. unfold active_shrinks. intros H1 H2. by etrans. Qed.

Lemma active_started_trans sp w0 w1 w2 :
  active_shrinks w0 w1 -> active_started sp w1 w2 -> active_started sp w0 w2.
Proof.
  unfold active_shrinks, active_started. intros H1 H2. etrans; [exact H2|].
  by apply union_mono_l.
Qed.

Lemma Tidy_shift P w0 w1 s : active_shrinks w0 w1 -> Tidy P w1 s -> Tidy P w0 s.
Proof. apply Guards_shift; [apply active_shrinks_trans|apply active_started_trans]. Qed.

Lemma Tidy_bind (P1 P2 : Worker -> Prop) w0 s now f :
  Tidy P1 w0 s -> (forall now' w c, P1 w -> Tidy P2 w (f now' w c)) ->
  Tidy P2 w0 (bindStep s now f).
Proof. apply Guards_bind; [apply active_shrinks_trans|apply active_started_trans]. Qed.

Ltac active_goal :=
  unfold active_shrinks;
  repeat case_match;
  cbn [activeS2S set_connected set_participantVoices set_routes set_nulled set_activeS2S
       set_quotaExhausted set_lastSuccessfulCall set_recentlyRecreated set_timers set_nextId
       set_trace emit log];
  repeat first [reflexivity | apply subseteq_difference_l].

Ltac tidy_step :=
  try change (Guards active_shrinks active_started left_active) with Tidy;
  lazymatch goal with
  | |- Tidy _ _ (Finished _ _) => apply Guards_finished; [active_goal|try first [exact I|done]]
  | |- Tidy _ _ (await _ _ _) => apply Guards_suspended; [active_goal|intros ? ? ?]
  | |- Tidy _ _ (if _ then _ else _) => case_match
  | |- Tidy _ _ (match _ with _ => _ end) => case_match
  | |- Tidy _ _ (let _ := _ in _) => cbv zeta
  end.

Lemma recreateRoute_create_Tidy participantIdentity voiceInfo w :
  Tidy any w (recreateRoute_create participantIdentity voiceInfo w).
Proof. unfold recreateRoute_create. repeat tidy_step. Qed.

Lemma recreateRouteForParticipant_Tidy participantIdentity w :
  Tidy any w (recreateRouteForParticipant participantIdentity w).
Proof.
  unfold recreateRouteForParticipant. cbv zeta.
  repeat tidy_step; try apply recreateRoute_create_Tidy.
  all: eapply Tidy_shift; [|apply recreateRoute_create_Tidy]; active_goal.
Qed.

Lemma sendS2SChunk_mark_Tidy speakerIdentity samples framesPublished now w :
  Tidy any w (sendS2SChunk_mark speakerIdentity samples framesPublished now w).
Proof. unfold sendS2SChunk_mark. repeat tidy_step. Qed.

Lemma sendS2SChunk_frameError_Tidy speakerIdentity samples framesPublished e now w :
  Tidy any w (sendS2SChunk_frameError speakerIdentity samples framesPublished e now w).
Proof.
  unfold sendS2SChunk_frameError. cbv zeta.
  eapply Tidy_shift; [|apply sendS2SChunk_mark_Tidy]. active_goal.
Qed.

Lemma sendS2SChunk_captureError_Tidy speakerIdentity samples framesPublished e now w :
  Tidy any w (sendS2SChunk_captureError speakerIdentity samples framesPublished e now w).
Proof.
  unfold sendS2SChunk_captureError. cbv zeta. repeat case_match.
  - apply sendS2SChunk_frameError_Tidy.
  - apply (Tidy_bind any).
    + eapply Tidy_shift; [|apply recreateRouteForParticipant_Tidy]. active_goal.
    + intros now' w' c _. destruct c; apply sendS2SChunk_frameError_Tidy.
  - eapply Tidy_shift; [|apply sendS2SChunk_frameError_Tidy]. active_goal.
Qed.

Lemma publishFrames_Tidy speakerIdentity route samples slices framesPublished now w :
  Tidy any w (publishFrames speakerIdentity route samples slices framesPublished now w).
Proof.
  revert framesPublished now w.
  induction slices as [|slice rest IH]; intros framesPublished now w; cbn [publishFrames].
  - apply sendS2SChunk_mark_Tidy.
  - repeat case_match;
      try (eapply Tidy_shift; [|apply sendS2SChunk_mark_Tidy]; active_goal).
    apply Guards_suspended; [active_goal|]. intros [[]|e] now' w'.
    + apply IH.
    + apply sendS2SChunk_captureError_Tidy.
Qed.

Lemma sendS2SChunk_response_Tidy speakerIdentity route res now w :
  Tidy any w (sendS2SChunk_response speakerIdentity route res now w).
Proof.
  unfold sendS2SChunk_response, sendS2SChunk_catch. repeat case_match; try (repeat tidy_step; fail).
  - apply Guards_suspended; [active_goal|]. intros.
    unfold sendS2SChunk_errorText. repeat tidy_step.
  - apply Guards_suspended; [active_goal|]. intros.
    unfold sendS2SChunk_body, sendS2SChunk_catch.
    repeat case_match; try (repeat tidy_step; fail).
    apply publishFrames_Tidy.
Qed.

Lemma sendS2SChunk_Tidy {gate : LevelGate} speakerIdentity int16 now w :
  Tidy any w (sendS2SChunk speakerIdentity int16 now w).
Proof.
  unfold sendS2SChunk, sendS2SChunk_catch. cbv zeta.
  repeat case_match; try (repeat tidy_step; fail).
  apply Guards_suspended; [active_goal|]. intros. apply sendS2SChunk_response_Tidy.
Qed.

Section TidyLoop.

Context {gate : LevelGate}.
Variable S2S_CHUNK_MS : Z.

Lemma stream_finally_Tidy speaker w :
  Tidy (left_active speaker) w (stream_finally speaker w).
Proof.
  unfold stream_finally. apply Guards_finished; [active_goal|].
  unfold left_active. cbn [activeS2S set_activeS2S].
  apply not_elem_of_difference. right. by apply elem_of_singleton.
Qed.

Lemma stream_catch_Tidy speaker e w :
  Tidy (left_active speaker) w (stream_catch speaker e w).
Proof.
  unfold stream_catch. eapply Tidy_shift; [|apply stream_finally_Tidy]. active_goal.
Qed.

Lemma stream_flush_Tidy speaker buffers totalSamples now w :
  Tidy (left_active speaker) w (stream_flush S2S_CHUNK_MS speaker buffers totalSamples now w).
Proof.
  unfold stream_flush. repeat case_match.
  - apply (Tidy_bind any); [apply sendS2SChunk_Tidy|].
    intros now' w' c _. eapply Tidy_shift; [|apply stream_finally_Tidy]. active_goal.
  - apply stream_catch_Tidy.
  - eapply Tidy_shift; [|apply stream_finally_Tidy]. active_goal.
Qed.

(** The first segment of a loop ends waiting for a frame. *)
Lemma streamLoop_first speaker stream : forall buffers totalSamples lastChunkTime w,
  exists k,
    streamLoop S2S_CHUNK_MS speaker stream buffers totalSamples lastChunkTime w =
      Suspended (emit (EvAwait unit (NextFrame speaker)) w) unit (NextFrame speaker) k /\
    forall r now w', Tidy (left_active speaker) w' (k r now w').
Proof.
  induction stream as [|frame stream IH]; intros buffers totalSamples lastChunkTime w;
    cbn [streamLoop]; unfold await; (eexists; split; [reflexivity|]); intros [[]|e] now' w'.
  - apply stream_flush_Tidy.
  - apply stream_catch_Tidy.
  - assert (IH' : forall b t l w0,
              Tidy (left_active speaker) w0 (streamLoop S2S_CHUNK_MS speaker stream b t l w0)).
    { intros b t l w0. destruct (IH b t l w0) as (k & -> & Hk).
      apply Guards_suspended; [active_goal|exact Hk]. }
    destruct frame as [[|s src]|]; [apply IH'| |apply IH'].
    cbv zeta. repeat case_match.
    + apply (Tidy_bind any); [apply sendS2SChunk_Tidy|].
      intros now'' w'' c _. destruct c.
      * apply IH'.
      * cbv zeta. repeat case_match.
        -- eapply Tidy_shift; [|apply stream_flush_Tidy]. active_goal.
        -- eapply Tidy_shift; [|apply IH']. active_goal.
    + apply stream_catch_Tidy.
    + apply IH'.
  - apply stream_catch_Tidy.
Qed.

Lemma _startAudioStream_Tidy track speaker w :
  Tidy any w (_startAudioStream S2S_CHUNK_MS track speaker w).
Proof.
  unfold _startAudioStream. repeat case_match; try (repeat tidy_step; fail).
  cbv zeta.
  match goal with
  | |- context [streamLoop _ _ ?stream ?b ?t ?l ?w1] =>
      destruct (streamLoop_first speaker stream b t l w1) as (k & -> & Hk)
  end.
  apply Guards_spawned; [|exact Hk|].
  - unfold active_started. cbn [activeS2S set_activeS2S log emit set_trace]. reflexivity.
  - intros w'. apply Guards_finished; [active_goal|exact I].
Qed.

Lemma startAudioStreamIfTrackExists_Tidy existing participantIdentity w :
  Tidy any w (startAudioStreamIfTrackExists S2S_CHUNK_MS existing participantIdentity w).
Proof.
  unfold startAudioStreamIfTrackExists. repeat case_match; try (repeat tidy_step; fail).
  apply _startAudioStream_Tidy.
Qed.

Lemma setupRouteForParticipant_Tidy existing participantIdentity w :
  Tidy any w (setupRouteForParticipant S2S_CHUNK_MS existing participantIdentity w).
Proof.
  unfold setupRouteForParticipant. repeat case_match; try (repeat tidy_step; fail).
  cbv zeta. apply Guards_suspended; [active_goal|]. intros [[]|e] now' w'.
  - cbv zeta. eapply Tidy_shift; [|apply startAudioStreamIfTrackExists_Tidy]. active_goal.
  - repeat tidy_step.
Qed.

Lemma handleParticipantConnected_Tidy existing participantIdentity now w :
  Tidy any w (handleParticipantConnected S2S_CHUNK_MS existing participantIdentity now w).
Proof.
  unfold handleParticipantConnected. apply (Tidy_bind any).
  - unfold loadParticipantVoice. repeat tidy_step.
  - intros now' w' c _. destruct c; [apply setupRouteForParticipant_Tidy|repeat tidy_step].
Qed.

Lemma handleParticipantDisconnected_Tidy participantIdentity w :
  Tidy any w (handleParticipantDisconnected participantIdentity w).
Proof. unfold handleParticipantDisconnected. repeat tidy_step. Qed.

Lemma onTrackSubscribed_Tidy track isAudio participantIdentity w :
  Tidy any w (onTrackSubscribed S2S_CHUNK_MS track isAudio participantIdentity w).
Proof.
  unfold onTrackSubscribed. repeat case_match; try (repeat tidy_step; fail).
  eapply Tidy_shift; [|apply _startAudioStream_Tidy]. active_goal.
Qed.

Lemma fireTimer_Tidy t w : Tidy any w (fireTimer S2S_CHUNK_MS t w).
Proof.
  unfold fireTimer. repeat case_match; try (repeat tidy_step; fail).
  eapply Tidy_shift; [|apply _startAudioStream_Tidy]. active_goal.
Qed.

End TidyLoop.

(** ** The event loop keeps every active speaker a loop *)

Lemma has_loop_relayLoops sp sys : has_loop sp (sys_tasks sys) <-> (0 < relayLoops sp sys)%nat.
Proof.
  unfold has_loop, relayLoops. split.
  - intros (t & Ht & Ho).
    assert (Hin : t ∈ filter (fun t => task_owner t = RelayLoop sp) (sys_tasks sys))
      by (by apply list_elem_of_filter).
    destruct (filter _ _); [by apply elem_of_nil in Hin|cbn; lia].
  - intros Hlen.
    destruct (filter (fun t => task_owner t = RelayLoop sp) (sys_tasks sys)) as [|t l] eqn:E;
      [cbn in Hlen; lia|].
    assert (Hin : t ∈ filter (fun t => task_owner t = RelayLoop sp) (sys_tasks sys))
      by (rewrite E; apply list_elem_of_here).
    apply list_elem_of_filter in Hin as [Ho Ht]. by exists t.
Qed.

Lemma has_loop_app_l sp tasks more : has_loop sp tasks -> has_loop sp (tasks ++ more).
Proof. intros (t & Ht & Ho). exists t. split; [|done]. apply elem_of_app. by left. Qed.

Lemma has_loop_snoc sp tasks s : has_loop sp (tasks ++ [{| task_owner := RelayLoop sp; task_step := s |}]).
Proof. eexists. split; [apply elem_of_app; right; apply list_elem_of_here|done]. Qed.

Lemma launch_Tidy (P : Worker -> Prop) (w0 : Worker) (s : Step) :
  Tidy P w0 s ->
  forall owner tasks,
  (forall w, P w -> at_end left_active owner w) ->
  tasks_guarded active_shrinks active_started left_active tasks ->
  (forall sp, sp ∈ activeS2S w0 -> owner = RelayLoop sp \/ has_loop sp tasks) ->
  tasks_guarded active_shrinks active_started left_active (sys_tasks (launch owner s tasks)) /\
  forall sp, sp ∈ activeS2S (sys_worker (launch owner s tasks)) ->
             has_loop sp (sys_tasks (launch owner s tasks)).
Proof.
  intros E.
  induction E as [P w1 w c Hg Hp|P w1 w X req k Hg Hk IH|P w1 sp w X req k rest Hg Hk IHk Hr IHr];
    intros owner tasks HP Htasks Hloops; cbn [launch sys_worker sys_tasks].
  - split; [done|]. intros sp Hsp. destruct (Hloops sp (Hg sp Hsp)) as [->|H]; [|done].
    by destruct (HP w Hp).
  - split.
    + apply Forall_app. split; [done|]. constructor; [|done]. cbn [task_step task_owner].
      eexists _, _, _, _. split; [reflexivity|]. intros.
      eapply Guards_impl; [exact HP|apply Hk].
    + intros sp Hsp. destruct (Hloops sp (Hg sp Hsp)) as [->|H].
      * apply has_loop_snoc.
      * by apply has_loop_app_l.
  - apply (IHr w owner); [done| |].
    + apply Forall_app. split; [done|]. constructor; [|done]. cbn [task_step task_owner].
      eexists _, _, _, _. split; [reflexivity|done].
    + intros sp' Hsp'. apply Hg in Hsp'. apply elem_of_union in Hsp' as [->%elem_of_singleton|H].
      * right. apply has_loop_snoc.
      * destruct (Hloops sp' H) as [->|H']; [by left|]. right. by apply has_loop_app_l.
Qed.

Lemma launch_handler_tidy s sys :
  tidy_system sys -> Tidy any (sys_worker sys) s ->
  tidy_system (launch Handler s (sys_tasks sys)).
Proof.
  intros [Ht Hl] Hs. apply (launch_Tidy any (sys_worker sys)); try done.
  intros sp Hsp. right. by apply Hl.
Qed.

Lemma step_tidy (S2S_CHUNK_MS : Z) (a : Action) (sys sys' : System) :
  step S2S_CHUNK_MS a sys = Some sys' -> tidy_system sys -> tidy_system sys'.
Proof.
  intros Hstep Hsys.
  assert (Hresume : forall i env now, resume i env now sys = Some sys' -> tidy_system sys').
  { intros i env now Hr. destruct Hsys as [Ht Hl]. unfold resume in Hr.
    destruct (sys_tasks sys !! i) as [[owner st]|] eqn:Ei; [|discriminate].
    pose proof (proj1 (Forall_forall _ _) Ht _ (list_elem_of_lookup_2 _ _ _ Ei))
      as (w1 & X1 & req1 & k1 & Heq & Hk).
    cbn [task_step task_owner] in Heq, Hk. subst st.
    injection Hr as <-.
    apply (launch_Tidy (at_end left_active owner) (sys_worker sys)).
    - apply Hk.
    - done.
    - apply Forall_forall. intros t Hin. apply (proj1 (Forall_forall _ _) Ht).
      apply list_elem_of_lookup in Hin as [j Hj].
      rewrite list_lookup_delete in Hj.
      destruct (decide (j < i)%nat); eapply list_elem_of_lookup_2; exact Hj.
    - intros sp Hsp. destruct (Hl sp Hsp) as (t & Hin & Ho).
      apply list_elem_of_lookup in Hin as [j Hj].
      destruct (decide (j = i)) as [->|Hne].
      + left. rewrite Ei in Hj. injection Hj as <-. exact (eq_sym Ho) || by rewrite <- Ho.
      + right. exists t. split; [|done].
        destruct (decide (j < i)%nat).
        * eapply list_elem_of_lookup_2. rewrite list_lookup_delete_lt; [exact Hj|done].
        * eapply (list_elem_of_lookup_2 _ (pred j)).
          rewrite list_lookup_delete_ge by lia.
          replace (S (pred j)) with j by lia. exact Hj. }
  assert (Hsome : forall x : System, Some x = Some sys' -> x = sys') by (by intros x [= ->]).
  unfold step in Hstep.
  destruct (synchronous_task (sys_tasks sys)) as [j|].
  - destruct a; try discriminate. destruct (i =? j)%nat; [|discriminate]. by eapply Hresume.
  - destruct a; try (apply Hsome in Hstep; rewrite <- Hstep; clear Hstep Hsome Hresume).
    + by eapply Hresume.
    + apply launch_handler_tidy; [done|apply onTrackSubscribed_Tidy].
    + apply launch_handler_tidy; [done|apply handleParticipantConnected_Tidy].
    + apply launch_handler_tidy; [done|apply handleParticipantDisconnected_Tidy].
    + destruct Hsys. by split.
    + destruct Hsys as [Ht _]. split; [done|]. cbn. intros sp Hsp. by apply elem_of_empty in Hsp.
    + destruct (timers (sys_worker sys) !! i) as [[delay t]|]; [|discriminate].
      apply Hsome in Hstep. rewrite <- Hstep. destruct Hsys as [Ht Hl].
      apply (launch_Tidy any (set_timers (delete i (timers (sys_worker sys))) (sys_worker sys)));
        [apply fireTimer_Tidy|done|done|].
      intros sp Hsp. right. by apply Hl.
    + destruct Hsys as [Ht Hl]. split; [done|]. cbn [sys_worker sys_tasks].
      intros sp Hsp. apply Hl. unfold quotaResetTick in Hsp. by repeat case_match.
Qed.

Lemma steps_tidy (S2S_CHUNK_MS : Z) (acts : list Action) : forall sys sys',
  steps S2S_CHUNK_MS acts sys = Some sys' -> tidy_system sys -> tidy_system sys'.
Proof.
  induction acts as [|a acts IH]; intros sys sys' Hsteps Hsys; cbn [steps] in Hsteps.
  - by injection Hsteps as <-.
  - destruct (step S2S_CHUNK_MS a sys) as [sys1|] eqn:E; [|discriminate].
    cbn [mbind option_bind] in Hsteps. eapply IH; [exact Hsteps|]. by eapply step_tidy.
Qed.

(** Whatever happens in the room, every speaker in the active set has a
    relay loop running: the set never names a speaker whose loop has ended
    or was never started. (The converse fails: a loop can run for a
    speaker that was taken out of the set.) Voice selections are strings
    here: _startAudioStream puts the speaker in the set and then writes the
    voice into a log line before it starts the loop, which a selection
    that cannot be rendered (an object without a usable toString) would
    make throw. *)
Theorem active_speakers_have_loops (S2S_CHUNK_MS : Z) (sys : System) (speaker : string) :
  reachable S2S_CHUNK_MS sys ->
  speaker ∈ activeS2S (sys_worker sys) -> (0 < relayLoops speaker sys)%nat.
Proof.
  intros [acts Hacts] Hin. apply has_loop_relayLoops.
  assert (Hinit : tidy_system sys_init).
  { split; [by constructor|]. intros sp Hsp. by apply elem_of_empty in Hsp. }
  by apply (steps_tidy _ _ _ _ Hacts Hinit).
Qed.

Lemma active_speakers_have_loops_witness :
  exists sys, steps 1 acts_setup sys_init = Some sys /\
              "B"%string ∈ activeS2S (sys_worker sys) /\ (0 < relayLoops "B" sys)%nat.
Proof.
  assert (F : (sys ← steps 1 acts_setup sys_init;
               Some (bool_decide ("B"%string ∈ activeS2S (sys_worker sys)))) = Some true)
    by (vm_compute; reflexivity).
  destruct (steps 1 acts_setup sys_init) as [sys|] eqn:E; [|discriminate F].
  cbn [mbind option_bind] in F. injection F as F. apply bool_decide_eq_true_1 in F.
  exists sys. split; [reflexivity|]. split; [exact F|].
  apply (active_speakers_have_loops 1 sys "B"); [|exact F].
  exists acts_setup. exact E.
Defined.

(** ** The debounce flag and its timeout *)

Lemma keeps_debounce_trans w0 w1 w2 :
  keeps_debounce w0 w1 -> keeps_debounce w1 w2 -> keeps_debounce w0 w2.
Proof. unfold keeps_debounce. auto. Qed.

Lemma Debounced_shift P w0 w1 s : keeps_debounce w0 w1 -> Debounced P w1 s -> Debounced P w0 s.
Proof. apply Guards_shift; [apply keeps_debounce_trans|intros ?; apply keeps_debounce_trans]. Qed.

Lemma Debounced_bind (P1 P2 : Worker -> Prop) w0 s now f :
  Debounced P1 w0 s -> (forall now' w c, P1 w -> Debounced P2 w (f now' w c)) ->
  Debounced P2 w0 (bindStep s now f).
Proof. apply Guards_bind; [apply keeps_debounce_trans|intros ?; apply keeps_debounce_trans]. Qed.

Lemma clearing_app speaker (l1 l2 : list (Z * Timer)) :
  length (List.filter (clears speaker) (l1 ++ l2)) =
    (length (List.filter (clears speaker) l1) + length (List.filter (clears speaker) l2))%nat.
Proof. by rewrite List.filter_app, length_app. Qed.

(** Flagging a speaker and setting its timeout. *)
Lemma one_clearing_timer_flag speaker pending flagged :
  speaker ∉ flagged -> one_clearing_timer pending flagged ->
  one_clearing_timer (pending ++ [(5000, TimerClearRecreated speaker)]) ({[speaker]} ∪ flagged).
Proof.
  intros Hnew H sp. rewrite clearing_app, H. cbn [List.filter clears snd].
  destruct (decide (speaker = sp)) as [->|Hne].
  - rewrite bool_decide_eq_true_2 by done. rewrite decide_False by done.
    rewrite decide_True; [done|]. apply elem_of_union. left. by apply elem_of_singleton.
  - rewrite bool_decide_eq_false_2 by done. cbn [length]. rewrite Nat.add_0_r.
    destruct (decide (sp ∈ flagged)) as [Hin|Hout].
    + rewrite decide_True; [done|]. apply elem_of_union. by right.
    + rewrite decide_False; [done|]. intros [Hs%elem_of_singleton|Hf]%elem_of_union; by subst.
Qed.

(** A timeout that retries a start does not count. *)
Lemma one_clearing_timer_retry delay participantIdentity track pending flagged :
  one_clearing_timer pending flagged ->
  one_clearing_timer (pending ++ [(delay, TimerRetryStart participantIdentity track)]) flagged.
Proof. intros H sp. rewrite clearing_app, H. cbn. lia. Qed.

Lemma one_clearing_timer_fire i delay t pending flagged :
  pending !! i = Some (delay, t) -> one_clearing_timer pending flagged ->
  one_clearing_timer (delete i pending)
    (match t with TimerClearRecreated speaker => flagged ∖ {[speaker]} | _ => flagged end).
Proof.
  intros Hi H sp. specialize (H sp).
  rewrite <- (take_drop_middle _ _ _ Hi), clearing_app in H.
  rewrite delete_take_drop, clearing_app.
  destruct t as [speaker|id track]; cbn [List.filter clears snd] in H.
  - destruct (decide (speaker = sp)) as [->|Hne].
    + rewrite bool_decide_eq_true_2 in H by done. cbn [length] in H.
      rewrite decide_False by (apply not_elem_of_difference; right; by apply elem_of_singleton).
      destruct (decide (sp ∈ flagged)); lia.
    + rewrite bool_decide_eq_false_2 in H by done. rewrite H.
      destruct (decide (sp ∈ flagged)) as [Hin|Hout].
      * rewrite decide_True; [done|]. apply elem_of_difference. split; [done|].
        intros Hs%elem_of_singleton. by subst.
      * rewrite decide_False; [done|]. by intros [? _]%elem_of_difference.
  - exact H.
Qed.

Ltac debounce_goal :=
  unfold keeps_debounce, debounce_ok;
  repeat case_match;
  cbn [timers recentlyRecreated set_connected set_participantVoices set_routes set_nulled
       set_activeS2S set_quotaExhausted set_lastSuccessfulCall set_recentlyRecreated set_timers
       set_nextId set_trace emit log];
  try first [exact (fun H => H) | apply one_clearing_timer_retry | by apply one_clearing_timer_flag].

Ltac debounce_step :=
  try change (Guards keeps_debounce (fun _ => keeps_debounce) (fun _ => any)) with Debounced;
  lazymatch goal with
  | |- Debounced _ _ (Finished _ _) => apply Guards_finished; [debounce_goal|try first [exact I|done]]
  | |- Debounced _ _ (await _ _ _) => apply Guards_suspended; [debounce_goal|intros ? ? ?]
  | |- Debounced _ _ (if _ then _ else _) => case_match
  | |- Debounced _ _ (match _ with _ => _ end) => case_match
  | |- Debounced _ _ (let _ := _ in _) => cbv zeta
  end.

Lemma recreateRoute_create_Debounced participantIdentity voiceInfo w :
  Debounced any w (recreateRoute_create participantIdentity voiceInfo w).
Proof. unfold recreateRoute_create. repeat debounce_step. Qed.

Lemma recreateRouteForParticipant_Debounced participantIdentity w :
  Debounced any w (recreateRouteForParticipant participantIdentity w).
Proof.
  unfold recreateRouteForParticipant. cbv zeta.
  repeat debounce_step; try apply recreateRoute_create_Debounced.
  all: eapply Debounced_shift; [|apply recreateRoute_create_Debounced]; debounce_goal.
Qed.

Lemma sendS2SChunk_mark_Debounced speakerIdentity samples framesPublished now w :
  Debounced any w (sendS2SChunk_mark speakerIdentity samples framesPublished now w).
Proof. unfold sendS2SChunk_mark. repeat debounce_step. Qed.

Lemma sendS2SChunk_frameError_Debounced speakerIdentity samples framesPublished e now w :
  Debounced any w (sendS2SChunk_frameError speakerIdentity samples framesPublished e now w).
Proof.
  unfold sendS2SChunk_frameError. cbv zeta.
  eapply Debounced_shift; [|apply sendS2SChunk_mark_Debounced]. debounce_goal.
Qed.

Lemma sendS2SChunk_captureError_Debounced speakerIdentity samples framesPublished e now w :
  Debounced any w (sendS2SChunk_captureError speakerIdentity samples framesPublished e now w).
Proof.
  unfold sendS2SChunk_captureError. cbv zeta. repeat case_match.
  - apply sendS2SChunk_frameError_Debounced.
  - apply (Debounced_bind any).
    + eapply Debounced_shift; [|apply recreateRouteForParticipant_Debounced]. debounce_goal.
    + intros now' w' c _. destruct c; apply sendS2SChunk_frameError_Debounced.
  - eapply Debounced_shift; [|apply sendS2SChunk_frameError_Debounced]. debounce_goal.
Qed.

Lemma publishFrames_Debounced speakerIdentity route samples slices framesPublished now w :
  Debounced any w (publishFrames speakerIdentity route samples slices framesPublished now w).
Proof.
  revert framesPublished now w.
  induction slices as [|slice rest IH]; intros framesPublished now w; cbn [publishFrames].
  - apply sendS2SChunk_mark_Debounced.
  - repeat case_match;
      try (eapply Debounced_shift; [|apply sendS2SChunk_mark_Debounced]; debounce_goal).
    apply Guards_suspended; [debounce_goal|]. intros [[]|e] now' w'.
    + apply IH.
    + apply sendS2SChunk_captureError_Debounced.
Qed.

Lemma sendS2SChunk_response_Debounced speakerIdentity route res now w :
  Debounced any w (sendS2SChunk_response speakerIdentity route res now w).
Proof.
  unfold sendS2SChunk_response, sendS2SChunk_catch. repeat case_match; try (repeat debounce_step; fail).
  - apply Guards_suspended; [debounce_goal|]. intros.
    unfold sendS2SChunk_errorText. repeat debounce_step.
  - apply Guards_suspended; [debounce_goal|]. intros.
    unfold sendS2SChunk_body, sendS2SChunk_catch.
    repeat case_match; try (repeat debounce_step; fail).
    apply publishFrames_Debounced.
Qed.

Lemma sendS2SChunk_Debounced {gate : LevelGate} speakerIdentity int16 now w :
  Debounced any w (sendS2SChunk speakerIdentity int16 now w).
Proof.
  unfold sendS2SChunk, sendS2SChunk_catch. cbv zeta.
  repeat case_match; try (repeat debounce_step; fail).
  apply Guards_suspended; [debounce_goal|]. intros. apply sendS2SChunk_response_Debounced.
Qed.

Section DebouncedLoop.

Context {gate : LevelGate}.
Variable S2S_CHUNK_MS : Z.

Lemma stream_finally_Debounced speaker w :
  Debounced any w (stream_finally speaker w).
Proof.
  unfold stream_finally. apply Guards_finished; [debounce_goal|exact I].
Qed.

Lemma stream_catch_Debounced speaker e w :
  Debounced any w (stream_catch speaker e w).
Proof.
  unfold stream_catch. eapply Debounced_shift; [|apply stream_finally_Debounced]. debounce_goal.
Qed.

Lemma stream_flush_Debounced speaker buffers totalSamples now w :
  Debounced any w (stream_flush S2S_CHUNK_MS speaker buffers totalSamples now w).
Proof.
  unfold stream_flush. repeat case_match.
  - apply (Debounced_bind any); [apply sendS2SChunk_Debounced|].
    intros now' w' c _. eapply Debounced_shift; [|apply stream_finally_Debounced]. debounce_goal.
  - apply stream_catch_Debounced.
  - eapply Debounced_shift; [|apply stream_finally_Debounced]. debounce_goal.
Qed.

(** The first segment of a loop ends waiting for a frame. *)
Lemma streamLoop_first_Debounced speaker stream : forall buffers totalSamples lastChunkTime w,
  exists k,
    streamLoop S2S_CHUNK_MS speaker stream buffers totalSamples lastChunkTime w =
      Suspended (emit (EvAwait unit (NextFrame speaker)) w) unit (NextFrame speaker) k /\
    forall r now w', Debounced any w' (k r now w').
Proof.
  induction stream as [|frame stream IH]; intros buffers totalSamples lastChunkTime w;
    cbn [streamLoop]; unfold await; (eexists; split; [reflexivity|]); intros [[]|e] now' w'.
  - apply stream_flush_Debounced.
  - apply stream_catch_Debounced.
  - assert (IH' : forall b t l w0,
              Debounced any w0 (streamLoop S2S_CHUNK_MS speaker stream b t l w0)).
    { intros b t l w0. destruct (IH b t l w0) as (k & -> & Hk).
      apply Guards_suspended; [debounce_goal|exact Hk]. }
    destruct frame as [[|s src]|]; [apply IH'| |apply IH'].
    cbv zeta. repeat case_match.
    + apply (Debounced_bind any); [apply sendS2SChunk_Debounced|].
      intros now'' w'' c _. destruct c.
      * apply IH'.
      * cbv zeta. repeat case_match.
        -- eapply Debounced_shift; [|apply stream_flush_Debounced]. debounce_goal.
        -- eapply Debounced_shift; [|apply IH']. debounce_goal.
    + apply stream_catch_Debounced.
    + apply IH'.
  - apply stream_catch_Debounced.
Qed.

Lemma _startAudioStream_Debounced track speaker w :
  Debounced any w (_startAudioStream S2S_CHUNK_MS track speaker w).
Proof.
  unfold _startAudioStream. repeat case_match; try (repeat debounce_step; fail).
  cbv zeta.
  match goal with
  | |- context [streamLoop _ _ ?stream ?b ?t ?l ?w1] =>
      destruct (streamLoop_first_Debounced speaker stream b t l w1) as (k & -> & Hk)
  end.
  apply Guards_spawned; [|exact Hk|].
  - debounce_goal.
  - intros w'. apply Guards_finished; [debounce_goal|exact I].
Qed.

Lemma startAudioStreamIfTrackExists_Debounced existing participantIdentity w :
  Debounced any w (startAudioStreamIfTrackExists S2S_CHUNK_MS existing participantIdentity w).
Proof.
  unfold startAudioStreamIfTrackExists. repeat case_match; try (repeat debounce_step; fail).
  apply _startAudioStream_Debounced.
Qed.

Lemma setupRouteForParticipant_Debounced existing participantIdentity w :
  Debounced any w (setupRouteForParticipant S2S_CHUNK_MS existing participantIdentity w).
Proof.
  unfold setupRouteForParticipant. repeat case_match; try (repeat debounce_step; fail).
  cbv zeta. apply Guards_suspended; [debounce_goal|]. intros [[]|e] now' w'.
  - cbv zeta. eapply Debounced_shift; [|apply startAudioStreamIfTrackExists_Debounced]. debounce_goal.
  - repeat debounce_step.
Qed.

Lemma handleParticipantConnected_Debounced existing participantIdentity now w :
  Debounced any w (handleParticipantConnected S2S_CHUNK_MS existing participantIdentity now w).
Proof.
  unfold handleParticipantConnected. apply (Debounced_bind any).
  - unfold loadParticipantVoice. repeat debounce_step.
  - intros now' w' c _. destruct c; [apply setupRouteForParticipant_Debounced|repeat debounce_step].
Qed.

Lemma handleParticipantDisconnected_Debounced participantIdentity w :
  Debounced any w (handleParticipantDisconnected participantIdentity w).
Proof. unfold handleParticipantDisconnected. repeat debounce_step. Qed.

Lemma onTrackSubscribed_Debounced track isAudio participantIdentity w :
  Debounced any w (onTrackSubscribed S2S_CHUNK_MS track isAudio participantIdentity w).
Proof.
  unfold onTrackSubscribed. repeat case_match; try (repeat debounce_step; fail).
  eapply Debounced_shift; [|apply _startAudioStream_Debounced]. debounce_goal.
Qed.

Lemma fireTimer_retry_Debounced participantIdentity track w :
  Debounced any w (fireTimer S2S_CHUNK_MS (TimerRetryStart participantIdentity track) w).
Proof.
  cbn [fireTimer]. repeat case_match; try (repeat debounce_step; fail).
  eapply Debounced_shift; [|apply _startAudioStream_Debounced]. debounce_goal.
Qed.

End DebouncedLoop.

(** ** The event loop keeps one timeout for each flag *)

Lemma launch_Debounced (P : Worker -> Prop) (w0 : Worker) (s : Step) :
  Debounced P w0 s ->
  forall owner tasks,
  (forall w, P w -> at_end (fun _ => any) owner w) ->
  tasks_guarded keeps_debounce (fun _ => keeps_debounce) (fun _ => any) tasks ->
  debounce_ok w0 ->
  debounced_system (launch owner s tasks).
Proof.
  intros E.
  induction E as [P w1 w c Hg Hp|P w1 w X req k Hg Hk IH|P w1 sp w X req k rest Hg Hk IHk Hr IHr];
    intros owner tasks HP Htasks Hok; cbn [launch].
  - split; [done|by apply Hg].
  - split; [|by apply Hg].
    apply Forall_app. split; [done|]. constructor; [|done]. cbn [task_step task_owner].
    eexists _, _, _, _. split; [reflexivity|]. intros.
    eapply Guards_impl; [exact HP|apply Hk].
  - apply (IHr w owner); [done| |by apply Hg].
    apply Forall_app. split; [done|]. constructor; [|done]. cbn [task_step task_owner].
    eexists _, _, _, _. split; [reflexivity|done].
Qed.

Lemma step_debounced (S2S_CHUNK_MS : Z) (a : Action) (sys sys' : System) :
  step S2S_CHUNK_MS a sys = Some sys' -> debounced_system sys -> debounced_system sys'.
Proof.
  intros Hstep [Ht Hok].
  assert (Hany : forall owner (w : Worker), any w -> at_end (fun _ => any) owner w)
    by (by intros []).
  assert (Hresume : forall i env now, resume i env now sys = Some sys' -> debounced_system sys').
  { intros i env now Hr. unfold resume in Hr.
    destruct (sys_tasks sys !! i) as [[owner st]|] eqn:Ei; [|discriminate].
    pose proof (proj1 (Forall_forall _ _) Ht _ (list_elem_of_lookup_2 _ _ _ Ei))
      as (w1 & X1 & req1 & k1 & Heq & Hk).
    cbn [task_step task_owner] in Heq, Hk. subst st.
    injection Hr as <-.
    apply (launch_Debounced (at_end (fun _ => any) owner) (sys_worker sys)); [apply Hk|done| |done].
    apply Forall_forall. intros t Hin. apply (proj1 (Forall_forall _ _) Ht).
    apply list_elem_of_lookup in Hin as [j Hj].
    rewrite list_lookup_delete in Hj.
    destruct (decide (j < i)%nat); eapply list_elem_of_lookup_2; exact Hj. }
  assert (Hsome : forall x : System, Some x = Some sys' -> x = sys') by (by intros x [= ->]).
  unfold step in Hstep.
  destruct (synchronous_task (sys_tasks sys)) as [j|].
  - destruct a; try discriminate. destruct (i =? j)%nat; [|discriminate]. by eapply Hresume.
  - destruct a; try (apply Hsome in Hstep; rewrite <- Hstep; clear Hstep Hsome Hresume).
    + by eapply Hresume.
    + apply (launch_Debounced any (sys_worker sys)); [apply onTrackSubscribed_Debounced|auto..].
    + apply (launch_Debounced any (sys_worker sys));
        [apply handleParticipantConnected_Debounced|auto..].
    + apply (launch_Debounced any (sys_worker sys));
        [apply handleParticipantDisconnected_Debounced|auto..].
    + by split.
    + by split.
    + destruct (timers (sys_worker sys) !! i) as [[delay t]|] eqn:Ei; [|discriminate].
      apply Hsome in Hstep. rewrite <- Hstep.
      pose proof (one_clearing_timer_fire _ _ _ _ _ Ei Hok) as Hfire.
      destruct t as [speaker|participantIdentity track].
      * cbn [fireTimer launch]. by split.
      * apply (launch_Debounced any
                 (set_timers (delete i (timers (sys_worker sys))) (sys_worker sys)));
          [apply fireTimer_retry_Debounced|auto..].
    + split; [done|]. cbn [sys_worker]. unfold quotaResetTick. by repeat case_match.
Qed.

Lemma steps_debounced (S2S_CHUNK_MS : Z) (acts : list Action) : forall sys sys',
  steps S2S_CHUNK_MS acts sys = Some sys' -> debounced_system sys -> debounced_system sys'.
Proof.
  induction acts as [|a acts IH]; intros sys sys' Hsteps Hsys; cbn [steps] in Hsteps.
  - by injection Hsteps as <-.
  - destruct (step S2S_CHUNK_MS a sys) as [sys1|] eqn:E; [|discriminate].
    cbn [mbind option_bind] in Hsteps. eapply IH; [exact Hsteps|]. by eapply step_debounced.
Qed.

(** Whatever happens in the room, a speaker flagged as recently recreated
    has exactly one pending timeout that clears the flag, and a speaker
    that is not flagged has none: the flag never stays for ever, and no
    timeout left over from an earlier recreation cuts a later debounce
    short. *)
Theorem debounce_flag_has_one_timeout (S2S_CHUNK_MS : Z) (sys : System) (speaker : string) :
  reachable S2S_CHUNK_MS sys ->
  length (List.filter (clears speaker) (timers (sys_worker sys))) =
    if decide (speaker ∈ recentlyRecreated (sys_worker sys)) then 1%nat else 0%nat.
Proof.
  intros [acts Hacts].
  assert (Hinit : debounced_system sys_init).
  { split; [by constructor|]. intros sp. cbn. by rewrite decide_False by apply not_elem_of_empty. }
  destruct (steps_debounced _ _ _ _ Hacts Hinit) as [_ Hok]. apply Hok.
Qed.

Lemma debounce_flag_has_one_timeout_witness :
  exists sys, steps 1 acts_capture_failure sys_init = Some sys /\
              "A"%string ∈ recentlyRecreated (sys_worker sys) /\
              length (List.filter (clears "A") (timers (sys_worker sys))) = 1%nat.
Proof.
  assert (F : (sys ← steps 1 acts_capture_failure sys_init;
               Some (bool_decide ("A"%string ∈ recentlyRecreated (sys_worker sys)))) = Some true)
    by (rewrite <- known_level_exact; vm_compute; reflexivity).
  destruct (steps 1 acts_capture_failure sys_init) as [sys|] eqn:E; [|discriminate F].
  cbn [mbind option_bind] in F. injection F as F. apply bool_decide_eq_true_1 in F.
  exists sys. split; [reflexivity|]. split; [exact F|].
  rewrite (debounce_flag_has_one_timeout 1 sys "A") by (exists acts_capture_failure; exact E).
  by rewrite decide_True.
Defined.
